(** * esl: a FreeSWITCH event-socket client -- frame decoder, command
      serializer and connection logic, embedded and verified.

    The development follows the Go sources of the package: [command.go]
    (the [Command] serializer and [Command.Execute]), [event.go] (the
    [Event] model and the frame decoder [NewEventFromReader]) and
    [connection.go] (the [Connection] object, the request operations, the
    authentication handshake and the read loop).

    Layout:
    - Part I    byte strings and package [strings];
    - Part II   the data model ([MIMEMap], [Event], errors, outcomes);
    - Part III  models of the library parsers and readers the package
                calls ([strconv], [net/url], [io], [bufio],
                [net/textproto]);
    - Part IV   the event model and the frame decoder;
    - Part V    the connection: [Write], [Close], the request operations,
                [Command], [Authenticate], [HandleEvents], [ConnectRetry]
                and [NewConnection];
    - Part VI   specification-side definitions and sample inputs;
    - Part VII  the verified properties.

    Conventions.  A Go function with receiver type [T] and name [f] is
    [T_f]; the methods of [Command] live in the module [Command].  State
    that a function mutates is passed in and returned.  A function that can
    panic returns a [result] or a [partial].  What depends on the run
    time is a parameter: the allocator ([Runtime]), the receivers on the
    unbuffered channels ([taken]), the other goroutines ([others]), the
    order of a [range] over a map and the outcome of a dial.  Of the log,
    the notices of [ConnectRetry] are kept, as a list beside its result. *)

From Stdlib Require Import ZArith Lia List Ascii String.
From stdpp Require Import base gmap strings.

Open Scope string_scope.
Open Scope Z_scope.

(* ===================================================================== *)
(** * Part I -- Byte strings and package [strings]                        *)
(* ===================================================================== *)

(** Go strings are byte sequences; [string] (a list of 8-bit [ascii]) is
    used for [string] and [[]byte] alike. *)

(** ** Bytes *)

Definition LF : ascii := "010"%char.
Definition CR : ascii := "013"%char.
Definition HT : ascii := "009"%char.
Definition SP : ascii := " "%char.

(** One-byte strings for the line terminator, as in the Go literal "\n". *)
Definition nl : string := String LF EmptyString.

Definition byte_val (c : ascii) : Z := Z.of_nat (nat_of_ascii c).

Definition in_range (lo hi : ascii) (c : ascii) : bool :=
  (byte_val lo <=? byte_val c) && (byte_val c <=? byte_val hi).

Definition is_digit (c : ascii) : bool := in_range "0" "9" c.
Definition is_lower (c : ascii) : bool := in_range "a" "z" c.
Definition is_upper (c : ascii) : bool := in_range "A" "Z" c.

Fixpoint mem_byte (c : ascii) (s : string) : bool :=
  match s with
  | EmptyString => false
  | String d s' => Ascii.eqb c d || mem_byte c s'
  end.

Definition to_upper (c : ascii) : ascii :=
  if is_lower c then ascii_of_nat (nat_of_ascii c - 32) else c.

Definition to_lower (c : ascii) : ascii :=
  if is_upper c then ascii_of_nat (nat_of_ascii c + 32) else c.

(** ** Package [strings] *)

(** [strings.HasPrefix(s, prefix)] *)
Definition strings_HasPrefix (s prefix : string) : bool := String.prefix prefix s.

(** [strings.HasSuffix(s, suffix)] *)
Definition strings_HasSuffix (s suffix : string) : bool :=
  let n := String.length s in
  let k := String.length suffix in
  (k <=? n)%nat && String.eqb (String.substring (n - k) k s) suffix.

(** [strings.Contains(s, substr)]: [substr] occurs at some offset of [s]. *)
Fixpoint strings_Contains (s substr : string) : bool :=
  String.prefix substr s ||
  match s with
  | EmptyString => false
  | String _ s' => strings_Contains s' substr
  end.

(** The UTF-8 encodings of the code points for which [unicode.IsSpace]
    holds: TAB, LF, VT, FF, CR, SPACE, U+0085, U+00A0, U+1680,
    U+2000..U+200A, U+2028, U+2029, U+202F, U+205F, U+3000.  Only the
    well-formed (shortest) encoding decodes to each code point, so
    stripping runes amounts to stripping these byte sequences. *)
Definition byte_of (n : nat) : ascii := ascii_of_nat n.
Definition bytes2 (x y : nat) : string :=
  String (byte_of x) (String (byte_of y) EmptyString).
Definition bytes3 (x y z : nat) : string := String (byte_of x) (bytes2 y z).

Definition space_runes : list string :=
  [ String HT EmptyString; String LF EmptyString; String (byte_of 11) EmptyString;
    String (byte_of 12) EmptyString; String CR EmptyString; String SP EmptyString;
    bytes2 194 133; bytes2 194 160; bytes3 225 154 128;
    bytes3 226 128 128; bytes3 226 128 129; bytes3 226 128 130;
    bytes3 226 128 131; bytes3 226 128 132; bytes3 226 128 133;
    bytes3 226 128 134; bytes3 226 128 135; bytes3 226 128 136;
    bytes3 226 128 137; bytes3 226 128 138; bytes3 226 128 168;
    bytes3 226 128 169; bytes3 226 128 175; bytes3 226 129 159;
    bytes3 227 128 128 ].

(** Width in bytes of the white-space rune [s] starts with (0 if none). *)
Definition leading_space (s : string) : nat :=
  match List.find (fun sp => strings_HasPrefix s sp) space_runes with
  | Some sp => String.length sp
  | None => 0%nat
  end.

(** Width in bytes of the white-space rune [s] ends with (0 if none). *)
Definition trailing_space (s : string) : nat :=
  match List.find (fun sp => strings_HasSuffix s sp) space_runes with
  | Some sp => String.length sp
  | None => 0%nat
  end.

Definition drop (n : nat) (s : string) : string :=
  String.substring n (String.length s - n) s.

Fixpoint trim_left_space (fuel : nat) (s : string) : string :=
  match fuel with
  | O => s
  | S fuel' =>
      match leading_space s with
      | O => s
      | w => trim_left_space fuel' (drop w s)
      end
  end.

Fixpoint trim_right_space (fuel : nat) (s : string) : string :=
  match fuel with
  | O => s
  | S fuel' =>
      match trailing_space s with
      | O => s
      | w => trim_right_space fuel' (String.substring 0 (String.length s - w) s)
      end
  end.

(** [strings.TrimSpace(s)]: every step strips at least one byte, so
    [length s] rounds exhaust the string. *)
Definition strings_TrimSpace (s : string) : string :=
  let s1 := trim_left_space (String.length s) s in
  trim_right_space (String.length s1) s1.

(** [strings.Join(elems, sep)] *)
Fixpoint strings_Join (elems : list string) (sep : string) : string :=
  match elems with
  | [] => ""
  | [x] => x
  | x :: rest => x +:+ sep +:+ strings_Join rest sep
  end.

(* ===================================================================== *)
(** * Part II -- Data model                                               *)
(* ===================================================================== *)

(** [textproto.MIMEHeader] is [map[string][]string]: a header name maps to
    the values received for it, in arrival order. *)
Abbreviation MIMEHeader := (gmap string (list string)).

(** [type MIMEMap struct { Map textproto.MIMEHeader; IsEscaped bool }] *)
Record MIMEMap : Type := mkMIMEMap {
  Map : MIMEHeader;
  IsEscaped : bool
}.

(** [type EventType int], constants in [iota] order. *)
Inductive EventType : Type :=
  | EventError | EventState | EventConnect | EventAuth
  | EventCommandReply | EventApiResponse | EventDisconnect | EventGeneric.

(** [type EventName int], constants in [iota] order; [CUSTOM] is the zero
    value. *)
Inductive EventName : Type :=
  | CUSTOM | CLONE | CHANNEL_CREATE | CHANNEL_DESTROY | CHANNEL_STATE
  | CHANNEL_CALLSTATE | CHANNEL_ANSWER | CHANNEL_HANGUP
  | CHANNEL_HANGUP_COMPLETE | CHANNEL_EXECUTE | CHANNEL_EXECUTE_COMPLETE
  | CHANNEL_HOLD | CHANNEL_UNHOLD | CHANNEL_BRIDGE | CHANNEL_UNBRIDGE
  | CHANNEL_PROGRESS | CHANNEL_PROGRESS_MEDIA | CHANNEL_OUTGOING
  | CHANNEL_PARK | CHANNEL_UNPARK | CHANNEL_APPLICATION | CHANNEL_ORIGINATE
  | CHANNEL_UUID | API | LOG | INBOUND_CHAN | OUTBOUND_CHAN | STARTUP
  | SHUTDOWN | PUBLISH | UNPUBLISH | TALK | NOTALK | SESSION_CRASH
  | MODULE_LOAD | MODULE_UNLOAD | DTMF | MESSAGE | PRESENCE_IN | NOTIFY_IN
  | PRESENCE_OUT | PRESENCE_PROBE | MESSAGE_WAITING | MESSAGE_QUERY
  | ROSTER | CODEC | BACKGROUND_JOB | DETECTED_SPEECH | DETECTED_TONE
  | PRIVATE_COMMAND | HEARTBEAT | TRAP | ADD_SCHEDULE | DEL_SCHEDULE
  | EXE_SCHEDULE | RE_SCHEDULE | RELOADXML | NOTIFY | PHONE_FEATURE
  | PHONE_FEATURE_SUBSCRIBE | SEND_MESSAGE | RECV_MESSAGE | REQUEST_PARAMS
  | CHANNEL_DATA | GENERAL | COMMAND | SESSION_HEARTBEAT
  | CLIENT_DISCONNECTED | SERVER_DISCONNECTED | SEND_INFO | RECV_INFO
  | RECV_RTCP_MESSAGE | CALL_SECURE | NAT | RECORD_START | RECORD_STOP
  | PLAYBACK_START | PLAYBACK_STOP | CALL_UPDATE | FAILURE | SOCKET_DATA
  | MEDIA_BUG_START | MEDIA_BUG_STOP | CONFERENCE_DATA_QUERY
  | CONFERENCE_DATA | CALL_SETUP_REQ | CALL_SETUP_RESULT | CALL_DETAIL
  | DEVICE_STATE | ALL.

Definition EventName_table : list (string * EventName) :=
  [ ("CUSTOM", CUSTOM); ("CLONE", CLONE); ("CHANNEL_CREATE", CHANNEL_CREATE)
    ; ("CHANNEL_DESTROY", CHANNEL_DESTROY); ("CHANNEL_STATE", CHANNEL_STATE)
    ; ("CHANNEL_CALLSTATE", CHANNEL_CALLSTATE)
    ; ("CHANNEL_ANSWER", CHANNEL_ANSWER); ("CHANNEL_HANGUP", CHANNEL_HANGUP)
    ; ("CHANNEL_HANGUP_COMPLETE", CHANNEL_HANGUP_COMPLETE)
    ; ("CHANNEL_EXECUTE", CHANNEL_EXECUTE)
    ; ("CHANNEL_EXECUTE_COMPLETE", CHANNEL_EXECUTE_COMPLETE)
    ; ("CHANNEL_HOLD", CHANNEL_HOLD); ("CHANNEL_UNHOLD", CHANNEL_UNHOLD)
    ; ("CHANNEL_BRIDGE", CHANNEL_BRIDGE)
    ; ("CHANNEL_UNBRIDGE", CHANNEL_UNBRIDGE)
    ; ("CHANNEL_PROGRESS", CHANNEL_PROGRESS)
    ; ("CHANNEL_PROGRESS_MEDIA", CHANNEL_PROGRESS_MEDIA)
    ; ("CHANNEL_OUTGOING", CHANNEL_OUTGOING); ("CHANNEL_PARK", CHANNEL_PARK)
    ; ("CHANNEL_UNPARK", CHANNEL_UNPARK)
    ; ("CHANNEL_APPLICATION", CHANNEL_APPLICATION)
    ; ("CHANNEL_ORIGINATE", CHANNEL_ORIGINATE)
    ; ("CHANNEL_UUID", CHANNEL_UUID); ("API", API); ("LOG", LOG)
    ; ("INBOUND_CHAN", INBOUND_CHAN); ("OUTBOUND_CHAN", OUTBOUND_CHAN)
    ; ("STARTUP", STARTUP); ("SHUTDOWN", SHUTDOWN); ("PUBLISH", PUBLISH)
    ; ("UNPUBLISH", UNPUBLISH); ("TALK", TALK); ("NOTALK", NOTALK)
    ; ("SESSION_CRASH", SESSION_CRASH); ("MODULE_LOAD", MODULE_LOAD)
    ; ("MODULE_UNLOAD", MODULE_UNLOAD); ("DTMF", DTMF); ("MESSAGE", MESSAGE)
    ; ("PRESENCE_IN", PRESENCE_IN); ("NOTIFY_IN", NOTIFY_IN)
    ; ("PRESENCE_OUT", PRESENCE_OUT); ("PRESENCE_PROBE", PRESENCE_PROBE)
    ; ("MESSAGE_WAITING", MESSAGE_WAITING); ("MESSAGE_QUERY", MESSAGE_QUERY)
    ; ("ROSTER", ROSTER); ("CODEC", CODEC)
    ; ("BACKGROUND_JOB", BACKGROUND_JOB)
    ; ("DETECTED_SPEECH", DETECTED_SPEECH); ("DETECTED_TONE", DETECTED_TONE)
    ; ("PRIVATE_COMMAND", PRIVATE_COMMAND); ("HEARTBEAT", HEARTBEAT)
    ; ("TRAP", TRAP); ("ADD_SCHEDULE", ADD_SCHEDULE)
    ; ("DEL_SCHEDULE", DEL_SCHEDULE); ("EXE_SCHEDULE", EXE_SCHEDULE)
    ; ("RE_SCHEDULE", RE_SCHEDULE); ("RELOADXML", RELOADXML)
    ; ("NOTIFY", NOTIFY); ("PHONE_FEATURE", PHONE_FEATURE)
    ; ("PHONE_FEATURE_SUBSCRIBE", PHONE_FEATURE_SUBSCRIBE)
    ; ("SEND_MESSAGE", SEND_MESSAGE); ("RECV_MESSAGE", RECV_MESSAGE)
    ; ("REQUEST_PARAMS", REQUEST_PARAMS); ("CHANNEL_DATA", CHANNEL_DATA)
    ; ("GENERAL", GENERAL); ("COMMAND", COMMAND)
    ; ("SESSION_HEARTBEAT", SESSION_HEARTBEAT)
    ; ("CLIENT_DISCONNECTED", CLIENT_DISCONNECTED)
    ; ("SERVER_DISCONNECTED", SERVER_DISCONNECTED); ("SEND_INFO", SEND_INFO)
    ; ("RECV_INFO", RECV_INFO); ("RECV_RTCP_MESSAGE", RECV_RTCP_MESSAGE)
    ; ("CALL_SECURE", CALL_SECURE); ("NAT", NAT)
    ; ("RECORD_START", RECORD_START); ("RECORD_STOP", RECORD_STOP)
    ; ("PLAYBACK_START", PLAYBACK_START); ("PLAYBACK_STOP", PLAYBACK_STOP)
    ; ("CALL_UPDATE", CALL_UPDATE); ("FAILURE", FAILURE)
    ; ("SOCKET_DATA", SOCKET_DATA); ("MEDIA_BUG_START", MEDIA_BUG_START)
    ; ("MEDIA_BUG_STOP", MEDIA_BUG_STOP)
    ; ("CONFERENCE_DATA_QUERY", CONFERENCE_DATA_QUERY)
    ; ("CONFERENCE_DATA", CONFERENCE_DATA)
    ; ("CALL_SETUP_REQ", CALL_SETUP_REQ)
    ; ("CALL_SETUP_RESULT", CALL_SETUP_RESULT); ("CALL_DETAIL", CALL_DETAIL)
    ; ("DEVICE_STATE", DEVICE_STATE); ("ALL", ALL) ].

(** [type Event struct]. The field [Type] is spelled [Type_]. [RawBody]
    is a byte slice; a nil slice and an empty one are both [""]. *)
Record Event : Type := mkEvent {
  UId : string;
  Name : EventName;
  App : string;
  AppData : string;
  Stamp : Z;
  Type_ : EventType;
  Header : MIMEMap;
  Body : MIMEMap;
  RawBody : string
}.

(** [&Event{}]: every field at its zero value. *)
Definition zero_MIMEMap : MIMEMap := {| Map := ∅; IsEscaped := false |}.

Definition zero_Event : Event :=
  {| UId := ""; Name := CUSTOM; App := ""; AppData := ""; Stamp := 0;
     Type_ := EventError; Header := zero_MIMEMap; Body := zero_MIMEMap;
     RawBody := "" |}.

(** Errors. The library's sentinel and typed errors are constructors;
    [fmt.Errorf] keeps its format and its arguments unrendered (the text of
    a rendered header map depends on Go's map iteration order). *)
Inductive NumErr : Type := ErrSyntax | ErrRange.

Inductive error : Type :=
  | io_EOF
  | io_ErrUnexpectedEOF
  | net_Error (msg : string)
  | textproto_ProtocolError (msg : string)
  | strconv_NumError (Func Num : string) (Err : NumErr)
  | fmt_Errorf (format : string) (args : list fmt_arg)
with fmt_arg : Type :=
  | arg_string (s : string)
  | arg_strings (l : list string)
  | arg_error (e : error)
  | arg_MIMEMap (m : MIMEMap)
  | arg_Event (e : Event)
  | arg_EventType (t : EventType).

(** [err == io.EOF] *)
Definition is_EOF (e : error) : bool :=
  match e with io_EOF => true | _ => false end.

(** Outcome of a call: a normal return with the state it leaves, or the
    end of the program by the run time (a panic, or a fatal error, told
    apart by the message) with the state reached when it was raised, or a
    goroutine parked for ever on a channel operation. *)
Inductive result (S A : Type) : Type :=
  | Ok (a : A) (s : S)
  | Panicked (msg : string) (s : S)
  | Blocked (s : S).
Arguments Ok {S A} a s.
Arguments Panicked {S A} msg s.
Arguments Blocked {S A} s.

(** Record updates of [Event], as the decoder assigns fields in place. *)
Definition set_Type (t : EventType) (e : Event) : Event :=
  {| UId := UId e; Name := Name e; App := App e; AppData := AppData e;
     Stamp := Stamp e; Type_ := t; Header := Header e; Body := Body e;
     RawBody := RawBody e |}.

Definition set_Header (h : MIMEMap) (e : Event) : Event :=
  {| UId := UId e; Name := Name e; App := App e; AppData := AppData e;
     Stamp := Stamp e; Type_ := Type_ e; Header := h; Body := Body e;
     RawBody := RawBody e |}.

Definition set_Body (bd : MIMEMap) (e : Event) : Event :=
  {| UId := UId e; Name := Name e; App := App e; AppData := AppData e;
     Stamp := Stamp e; Type_ := Type_ e; Header := Header e; Body := bd;
     RawBody := RawBody e |}.

Definition set_RawBody (raw : string) (e : Event) : Event :=
  {| UId := UId e; Name := Name e; App := App e; AppData := AppData e;
     Stamp := Stamp e; Type_ := Type_ e; Header := Header e; Body := Body e;
     RawBody := raw |}.

(* ===================================================================== *)
(** * Part III -- Library parsers and readers                             *)
(* ===================================================================== *)

(** ** Package [strconv] *)

(** [int] is 64 bits wide. *)
Definition intSize : Z := 64.
Definition maxInt : Z := 2 ^ (intSize - 1) - 1.
Definition minInt : Z := - 2 ^ (intSize - 1).
Definition maxUint64 : Z := 2 ^ 64 - 1.

(** Wrap-around of [int] arithmetic (two's complement). *)
Definition wrap_int (z : Z) : Z :=
  (z + 2 ^ (intSize - 1)) mod 2 ^ intSize - 2 ^ (intSize - 1).

(** The digit loop of [strconv.ParseUint(s, 10, 64)]: the first bad byte
    is a syntax error, the first overflow a range error, whichever comes
    first from the left. *)
Fixpoint parse_digits (s : string) (n : Z) : Z + NumErr :=
  match s with
  | EmptyString => inl n
  | String c s' =>
      if negb (is_digit c) then inr ErrSyntax
      else if maxUint64 / 10 + 1 <=? n then inr ErrRange
      else
        let n1 := n * 10 + (byte_val c - byte_val "0") in
        if maxUint64 <? n1 then inr ErrRange else parse_digits s' n1
  end.

(** [strconv.Atoi(s)]: an optional sign and at least one decimal digit.
    The result is the value and no error, 0 and a syntax error, or the
    nearest bound of [int] and a range error.  (The fast path Go takes for
    short strings computes the same result.) *)
Definition strconv_Atoi (s : string) : Z * option error :=
  let fail k := Some (strconv_NumError "Atoi" s k) in
  match s with
  | EmptyString => (0, fail ErrSyntax)
  | String c s' =>
      let neg := Ascii.eqb c "-" in
      let digits := if Ascii.eqb c "+" || neg then s' else s in
      match digits with
      | EmptyString => (0, fail ErrSyntax)
      | _ =>
          match parse_digits digits 0 with
          | inr ErrSyntax => (0, fail ErrSyntax)
          | inr ErrRange => (if neg then minInt else maxInt, fail ErrRange)
          | inl un =>
              if negb neg && (2 ^ 63 <=? un) then (maxInt, fail ErrRange)
              else if neg && (2 ^ 63 <? un) then (minInt, fail ErrRange)
              else (if neg then - un else un, None)
          end
      end
  end.

(** ** Package [net/url] *)

Definition hex_val (c : ascii) : option Z :=
  if is_digit c then Some (byte_val c - byte_val "0")
  else if in_range "a" "f" c then Some (byte_val c - byte_val "a" + 10)
  else if in_range "A" "F" c then Some (byte_val c - byte_val "A" + 10)
  else None.

(** [url.QueryUnescape(s)]: [%XY] becomes the byte with hex code XY, [+]
    becomes a space; a [%] not followed by two hex digits is an error
    ([None]). *)
Fixpoint url_QueryUnescape (s : string) : option string :=
  match s with
  | EmptyString => Some ""
  | String c s' =>
      if Ascii.eqb c "%" then
        match s' with
        | String h (String l s'') =>
            match hex_val h, hex_val l, url_QueryUnescape s'' with
            | Some x, Some y, Some rest =>
                Some (String (ascii_of_nat (Z.to_nat (16 * x + y))) rest)
            | _, _, _ => None
            end
        | _ => None
        end
      else
        match url_QueryUnescape s' with
        | Some rest => Some (String (if Ascii.eqb c "+" then SP else c) rest)
        | None => None
        end
  end.

(** ** Input stream: [bufio.Reader] over the socket *)

(** The bytes still to arrive, then the condition the transport reports
    once they are exhausted ([io.EOF] when the peer closes, another error
    when the socket fails or is closed locally). *)
Record Reader : Type := mkReader {
  pending : string;
  closing : error
}.

Definition advance (rest : string) (r : Reader) : Reader :=
  {| pending := rest; closing := closing r |}.

(** Split at the first LF: the bytes before it and the bytes after it. *)
Fixpoint cut_LF (s : string) : option (string * string) :=
  match s with
  | EmptyString => None
  | String c s' =>
      if Ascii.eqb c LF then Some ("", s')
      else match cut_LF s' with
           | Some (l, rest) => Some (String c l, rest)
           | None => None
           end
  end.

Definition drop_CR (l : string) : string :=
  if strings_HasSuffix l (String CR EmptyString)
  then String.substring 0 (String.length l - 1) l else l.

(** [bufio.Reader.ReadLine], chunks joined as [textproto] does: the next
    line without its LF or CR LF.  Bytes not followed by a LF before the
    stream ends are returned as a last line; only an exhausted stream
    gives the closing error. *)
Definition ReadLine (r : Reader) : (string + error) * Reader :=
  match pending r with
  | EmptyString => (inr (closing r), r)
  | _ =>
      match cut_LF (pending r) with
      | Some (l, rest) => (inl (drop_CR l), advance rest r)
      | None => (inl (pending r), advance "" r)
      end
  end.

(** [io.ReadFull(r, buf)] with [len(buf) = n]: [n] bytes, or the failure of
    a short read: the closing error itself when nothing was read, and
    [io.ErrUnexpectedEOF] in place of [io.EOF] after a partial read. *)
Definition io_ReadFull (n : nat) (r : Reader) : (string + error) * Reader :=
  let avail := String.length (pending r) in
  if (n <=? avail)%nat then
    (inl (String.substring 0 n (pending r)), advance (drop n (pending r)) r)
  else
    (inr (if (0 <? avail)%nat && is_EOF (closing r)
          then io_ErrUnexpectedEOF else closing r),
     advance "" r).

(** ** Package [net/textproto] *)

(** [validHeaderFieldByte]: the token characters of RFC 7230. *)
Definition validHeaderFieldByte (c : ascii) : bool :=
  is_digit c || is_lower c || is_upper c || mem_byte c "!#$%&'*+-.^_`|~".

(** [validHeaderValueByte]: HTAB, SP, the visible characters and the bytes
    from 0x80 up. *)
Definition validHeaderValueByte (c : ascii) : bool :=
  Ascii.eqb c HT || ((32 <=? byte_val c) && negb (byte_val c =? 127)).

Fixpoint all_bytes (p : ascii -> bool) (s : string) : bool :=
  match s with
  | EmptyString => true
  | String c s' => p c && all_bytes p s'
  end.

(** First letter and every letter after a dash in upper case, the others
    in lower case. *)
Fixpoint canonicalize (upper : bool) (s : string) : string :=
  match s with
  | EmptyString => ""
  | String c s' =>
      let c' := if upper then to_upper c else to_lower c in
      String c' (canonicalize (Ascii.eqb c' "-") s')
  end.

(** The reader's [canonicalMIMEHeaderKey]: [None] when a byte is neither a
    token character nor a space; a key holding a space is kept as it is. *)
Definition canonicalMIMEHeaderKey (a : string) : option string :=
  if negb (all_bytes (fun c => validHeaderFieldByte c || Ascii.eqb c SP) a) then None
  else if negb (all_bytes validHeaderFieldByte a) then Some a
  else Some (canonicalize true a).

(** [textproto.CanonicalMIMEHeaderKey(s)]: a key with a byte outside the
    token characters is returned unchanged. *)
Definition CanonicalMIMEHeaderKey (s : string) : string :=
  if all_bytes validHeaderFieldByte s then canonicalize true s else s.

(** [MIMEHeader.Get(key)]: the first value stored under the canonical form
    of [key], or [""]. *)
Definition MIMEHeader_Get (h : MIMEHeader) (key : string) : string :=
  match h !! CanonicalMIMEHeaderKey key with
  | Some (v :: _) => v
  | _ => ""
  end.

(** [m[key] = append(m[key], value)] *)
Definition MIMEHeader_append (h : MIMEHeader) (key value : string) : MIMEHeader :=
  <[key := (default [] (h !! key) ++ [value])%list]> h.

Definition is_blank (c : ascii) : bool := Ascii.eqb c SP || Ascii.eqb c HT.

Fixpoint trim_left (s : string) : string :=
  match s with
  | String c s' => if is_blank c then trim_left s' else s
  | EmptyString => ""
  end.

Fixpoint trim_right (s : string) : string :=
  match s with
  | EmptyString => ""
  | String c s' =>
      match trim_right s' with
      | EmptyString => if is_blank c then "" else String c ""
      | t => String c t
      end
  end.

(** [trim]: leading and trailing spaces and tabs removed. *)
Definition trim (s : string) : string := trim_right (trim_left s).

(** [bytes.Cut(kv, ":")] *)
Fixpoint cut_colon (s : string) : option (string * string) :=
  match s with
  | EmptyString => None
  | String c s' =>
      if Ascii.eqb c ":" then Some ("", s')
      else match cut_colon s' with
           | Some (k, v) => Some (String c k, v)
           | None => None
           end
  end.

(** [Reader.skipSpace]: the number of leading spaces and tabs consumed. *)
Definition skipSpace (r : Reader) : nat * Reader :=
  let rest := trim_left (pending r) in
  ((String.length (pending r) - String.length rest)%nat, advance rest r).

(** Continuation lines: while the next line starts with a space or a tab
    it is appended, trimmed, after a single space.  Each round consumes at
    least one byte; [fuel] is the number of pending bytes. *)
Fixpoint continuation (fuel : nat) (buf : string) (r : Reader) : string * Reader :=
  match fuel with
  | O => (buf, r)
  | S fuel' =>
      let '(n, r1) := skipSpace r in
      match n with
      | O => (buf, r1)
      | _ =>
          match ReadLine r1 with
          | (inr _, r2) => (buf +:+ " ", r2)
          | (inl line, r2) => continuation fuel' (buf +:+ " " +:+ trim line) r2
          end
      end
  end.

(** [Reader.readContinuedLineSlice] with the check that a first line has a
    colon. *)
Definition readContinuedLineSlice (r : Reader) : (string + error) * Reader :=
  match ReadLine r with
  | (inr e, r1) => (inr e, r1)
  | (inl line, r1) =>
      match line with
      | EmptyString => (inl "", r1)
      | _ =>
          match cut_colon line with
          | None =>
              (inr (textproto_ProtocolError
                      ("malformed MIME header: missing colon: " +:+ line)), r1)
          | Some _ =>
              let '(buf, r2) := continuation (String.length (pending r1)) (trim line) r1 in
              (inl buf, r2)
          end
      end
  end.

(** The loop of [readMIMEHeader]: one [Name: value] line per round until
    the blank line.  Each round consumes at least one byte, and a reader
    with nothing pending reports its closing error. *)
Fixpoint readMIMEHeader_loop (fuel : nat) (m : MIMEHeader) (r : Reader)
  : MIMEHeader * option error * Reader :=
  match readContinuedLineSlice r with
  | (inr e, r1) => (m, Some e, r1)
  | (inl EmptyString, r1) => (m, None, r1)
  | (inl kv, r1) =>
      let malformed := Some (textproto_ProtocolError ("malformed MIME header line: " +:+ kv)) in
      match cut_colon kv with
      | None => (m, malformed, r1)
      | Some (k, v) =>
          match canonicalMIMEHeaderKey k with
          | None => (m, malformed, r1)
          | Some key =>
              if negb (all_bytes validHeaderValueByte v) then (m, malformed, r1)
              else
                match fuel with
                | O => (m, Some (closing r1), r1)
                | S fuel' =>
                    match key with
                    | EmptyString => readMIMEHeader_loop fuel' m r1
                    | _ => readMIMEHeader_loop fuel' (MIMEHeader_append m key (trim_left v)) r1
                    end
                end
          end
      end
  end.

(** [textproto.NewReader(r).ReadMIMEHeader()]: the header map read so far,
    the error if any, and the reader after the block.  A first line that
    starts with a space or a tab is rejected. *)
Definition ReadMIMEHeader (r : Reader) : MIMEHeader * option error * Reader :=
  match pending r with
  | String c _ =>
      if is_blank c then
        match ReadLine r with
        | (inr e, r1) => (∅, Some e, r1)
        | (inl line, r1) =>
            (∅, Some (textproto_ProtocolError
                        ("malformed MIME header initial line: " +:+ line)), r1)
        end
      else readMIMEHeader_loop (String.length (pending r)) ∅ r
  | EmptyString => readMIMEHeader_loop 0 ∅ r
  end.

(** ** Package [fmt] *)

(** The digit loop of [fmt]'s integer formatting: the decimal digits of
    [n], most significant first, in front of [acc].  Twenty rounds cover a
    64-bit value. *)
Fixpoint digits (fuel : nat) (n : Z) (acc : string) : string :=
  match fuel with
  | O => acc
  | S fuel' =>
      let acc' := String (ascii_of_nat (48 + Z.to_nat (n mod 10))) acc in
      if n <? 10 then acc' else digits fuel' (n / 10) acc'
  end.

(** [fmt.Sprintf("%d", n)] for an [int]. *)
Definition fmt_d (n : Z) : string :=
  if n <? 0 then String "-" (digits 20 (- n) "") else digits 20 n "".

(* ===================================================================== *)
(** * Part IV -- The event model and the frame decoder                    *)
(* ===================================================================== *)

(** [func (m MIMEMap) Get(key string) string]: the stored value,
    percent-decoded when the map is flagged escaped ([""] when decoding
    fails, as the error of [url.QueryUnescape] is dropped). *)
Definition MIMEMap_Get (m : MIMEMap) (key : string) : string :=
  let val := MIMEHeader_Get (Map m) key in
  if IsEscaped m then default "" (url_QueryUnescape val) else val.

(** [func (e Event) Get(header string) string]: the outer header first,
    the nested body header when the outer one gives [""]. *)
Definition Event_Get (e : Event) (header : string) : string :=
  let val := MIMEMap_Get (Header e) header in
  if String.eqb val "" then MIMEMap_Get (Body e) header else val.

(** Modelled from the spec: [EventNameString] is generated code
    ([go:generate enumer -type=EventName]) that is not part of the sources;
    the spec describes it as "a total lookup from the string value of the
    notification's Event-Name header; unrecognized names map to a
    default/zero tag".  The table lists the constants of [EventName] under
    their own names; the boolean tells whether the name was found (the
    decoder drops it). *)
Definition EventNameString (s : string) : EventName * bool :=
  match List.find (fun p => String.eqb s p.1) EventName_table with
  | Some p => (p.2, true)
  | None => (CUSTOM, false)
  end.

Definition set_derived (uid : string) (n : EventName) (app data : string)
    (stamp : Z) (e : Event) : Event :=
  {| UId := uid; Name := n; App := app; AppData := data; Stamp := stamp;
     Type_ := Type_ e; Header := Header e; Body := Body e;
     RawBody := RawBody e |}.

(** [func (e *Event) parseTextBody() error]: the event after the call and
    the error returned.  The nested header is read from the raw body (a
    reader that ends with [io.EOF]); [e.Body.Map] is assigned whatever was
    read, also when the read fails. *)
Definition parseTextBody (e : Event) : Event * option error :=
  let '(m, err, _) := ReadMIMEHeader (mkReader (RawBody e) io_EOF) in
  let e := set_Body {| Map := m; IsEscaped := IsEscaped (Body e) |} e in
  match err with
  | Some err => (e, Some (fmt_Errorf "parse text body: %v" [arg_error err]))
  | None =>
      let e := set_Body {| Map := Map (Body e); IsEscaped := true |} e in
      let uid := Event_Get e "Unique-ID" in
      let name := (EventNameString (Event_Get e "Event-Name")).1 in
      let app := Event_Get e "Application" in
      let data := strings_TrimSpace (Event_Get e "Application-Data") in
      let '(stamp, err) := strconv_Atoi (Event_Get e "Event-Date-Timestamp") in
      (set_derived uid name app data stamp e, err)
  end.

(** Largest length [make([]byte, len)] accepts before it panics
    ([maxAlloc] of the Go runtime on 64-bit Linux). *)
Definition maxAlloc : Z := 2 ^ 48.

(** The allocator of the run time, as far as [make([]byte, len)] depends
    on it: whether the memory for [len] bytes, a length the limit
    [maxAlloc] lets through, can be had.  When it cannot, the program dies
    with the fatal error "out of memory". *)
Class Runtime : Type := {
  can_allocate : Z -> bool
}.

Definition out_of_memory : string := "fatal error: runtime: out of memory".

(** The [switch e.Get("Content-Type")] that ends [NewEventFromReader],
    with the values the function returns after it: the event pointer (or
    nil) and the error (or nil). *)
Definition switch_ContentType (e : Event) : option Event * option error :=
  let ct := Event_Get e "Content-Type" in
  if String.eqb ct "auth/request" then
    (Some (set_Type EventAuth e), None)
  else if String.eqb ct "command/reply" then
    let e := set_Type EventCommandReply e in
    let reply := Event_Get e "Reply-Text" in
    if negb (strings_Contains reply "+OK") && negb (strings_Contains reply "%2BOK") then
      (None, Some (fmt_Errorf "command error: %s" [arg_string (strings_TrimSpace reply)]))
    else if strings_Contains reply "%" then
      (Some (set_Header {| Map := Map (Header e); IsEscaped := true |} e), None)
    else (Some e, None)
  else if String.eqb ct "text/event-plain" then
    let '(e, err) := parseTextBody (set_Type EventGeneric e) in
    (Some e, err)
  else if String.eqb ct "text/event-json" || String.eqb ct "text/event-xml" then
    (Some e, Some (fmt_Errorf "unsupported format %s"
                     [arg_string (Event_Get e "Content-Type")]))
  else if String.eqb ct "text/disconnect-notice" || String.eqb ct "text/rude-rejection" then
    (Some (set_Type EventDisconnect e), None)
  else if String.eqb ct "api/response" then
    (Some (set_Type EventApiResponse e), None)
  else (Some e, None).

(** The first half of [NewEventFromReader], up to the [switch]: the
    header block, then the raw body when the header declares a
    [Content-Length].  [inl e] is the event built so far, [inr err] the
    error with which the function returns a nil event.
    [make([]byte, len)] panics for a length that is negative or above
    [maxAlloc], and is fatal for a length the allocator cannot serve. *)
Definition read_frame {rt : Runtime} (r : Reader) : result Reader (Event + error) :=
  let '(m, err, r1) := ReadMIMEHeader r in
  let e := set_Header {| Map := m; IsEscaped := false |} zero_Event in
  match err with
  | Some io_EOF => Ok (inr io_EOF) r1
  | Some err => Ok (inr (fmt_Errorf "parse headers: %v" [arg_error err])) r1
  | None =>
      let slen := Event_Get e "Content-Length" in
      if String.eqb slen "" then Ok (inl e) r1
      else
        match strconv_Atoi slen with
        | (_, Some err) =>
            Ok (inr (fmt_Errorf "convert content-length %s: %v"
                       [arg_string slen; arg_error err])) r1
        | (len, None) =>
            if (len <? 0) || (maxAlloc <? len) then
              Panicked "makeslice: len out of range" r1
            else if negb (can_allocate len) then Panicked out_of_memory r1
            else
              match io_ReadFull (Z.to_nat len) r1 with
              | (inr err, r2) => Ok (inr (fmt_Errorf "read body: %v" [arg_error err])) r2
              | (inl raw, r2) => Ok (inl (set_RawBody raw e)) r2
              end
        end
  end.

(** [NewEventFromReader(r)], returning an event pointer and an error.  The
    result holds the returned pair and the reader as the call leaves it. *)
Definition NewEventFromReader {rt : Runtime} (r : Reader)
  : result Reader (option Event * option error) :=
  match read_frame r with
  | Ok (inl e) r' => Ok (switch_ContentType e) r'
  | Ok (inr err) r' => Ok (None, Some err) r'
  | Panicked msg r' => Panicked msg r'
  | Blocked r' => Blocked r'
  end.

(** A value or a run-time panic, for calls that touch no shared state. *)
Inductive partial (A : Type) : Type :=
  | Returns (a : A)
  | Panics (msg : string).
Arguments Returns {A} a.
Arguments Panics {A} msg.

(** [func (e *Event) GetTextBody() string].  The slice expression
    [e.RawBody[blen-bblen : blen-1]] panics unless
    [0 <= blen-bblen <= blen-1 <= cap(e.RawBody)]; the capacity of a body
    allocated by the decoder is its length. *)
Definition Event_GetTextBody (e : Event) : partial string :=
  let slen := MIMEMap_Get (Body e) "Content-Length" in
  if String.eqb slen "" then Returns ""
  else
    match strconv_Atoi slen with
    | (_, Some _) => Returns ""
    | (bblen, None) =>
        let blen := Z.of_nat (String.length (RawBody e)) in
        let lo := wrap_int (blen - bblen) in
        let hi := wrap_int (blen - 1) in
        if (0 <=? lo) && (lo <=? hi) && (hi <=? blen) then
          Returns (String.substring (Z.to_nat lo) (Z.to_nat (hi - lo)) (RawBody e))
        else Panics "slice bounds out of range"
    end.

Section MapString.

Variable range : forall {V : Type}, gmap string V -> list (string * V).


End MapString.

(* ===================================================================== *)
(** * Part V -- The connection                                            *)
(* ===================================================================== *)

(** The transport ([net.Conn]) as the connection sees it: whether it has
    been closed locally, the bytes handed to the peer so far, and the
    failure a write meets, if any. *)
Record Socket : Type := mkSocket {
  sock_closed : bool;
  delivered : string;
  write_fault : option error
}.

(** [socket.Close()] *)
Definition Socket_Close (s : Socket) : Socket :=
  {| sock_closed := true; delivered := delivered s; write_fault := write_fault s |}.

(** [socket.Write(p)]: all of [p] or nothing. *)
Definition Socket_Write (p : string) (s : Socket) : option error * Socket :=
  if sock_closed s then (Some (net_Error "use of closed network connection"), s)
  else match write_fault s with
       | Some e => (Some e, s)
       | None =>
           (None, {| sock_closed := false; delivered := delivered s +:+ p;
                     write_fault := None |})
       end.

(** [type Connection struct].  [buffer] is split into the reading half
    ([reader]) and the sticky error of the writing half ([writer_err]; its
    buffer is empty between calls, every write being flushed).  The two
    channels are unbuffered: a send completes only when a goroutine
    receives.  [cmdReply] and [apiResp] list, oldest first, the events so
    handed to receivers whose calls have not been carried on yet.
    [spawned] lists the events for which a notification goroutine
    was started.  The dial settings and [UserData] play no part in the
    functions below. *)
Record Connection : Type := mkConnection {
  socket : Socket;
  reader : Reader;
  writer_err : option error;
  cmdReply : list Event;
  apiResp : list Event;
  spawned : list Event;
  Password : string;
  Connected : bool
}.

Definition set_socket (s : Socket) (con : Connection) : Connection :=
  {| socket := s; reader := reader con; writer_err := writer_err con;
     cmdReply := cmdReply con; apiResp := apiResp con; spawned := spawned con;
     Password := Password con; Connected := Connected con |}.

Definition set_reader (r : Reader) (con : Connection) : Connection :=
  {| socket := socket con; reader := r; writer_err := writer_err con;
     cmdReply := cmdReply con; apiResp := apiResp con; spawned := spawned con;
     Password := Password con; Connected := Connected con |}.

Definition set_writer_err (e : option error) (con : Connection) : Connection :=
  {| socket := socket con; reader := reader con; writer_err := e;
     cmdReply := cmdReply con; apiResp := apiResp con; spawned := spawned con;
     Password := Password con; Connected := Connected con |}.

Definition set_cmdReply (q : list Event) (con : Connection) : Connection :=
  {| socket := socket con; reader := reader con; writer_err := writer_err con;
     cmdReply := q; apiResp := apiResp con; spawned := spawned con;
     Password := Password con; Connected := Connected con |}.

Definition set_apiResp (q : list Event) (con : Connection) : Connection :=
  {| socket := socket con; reader := reader con; writer_err := writer_err con;
     cmdReply := cmdReply con; apiResp := q; spawned := spawned con;
     Password := Password con; Connected := Connected con |}.

Definition set_spawned (l : list Event) (con : Connection) : Connection :=
  {| socket := socket con; reader := reader con; writer_err := writer_err con;
     cmdReply := cmdReply con; apiResp := apiResp con; spawned := l;
     Password := Password con; Connected := Connected con |}.

Definition set_Connected (c : bool) (con : Connection) : Connection :=
  {| socket := socket con; reader := reader con; writer_err := writer_err con;
     cmdReply := cmdReply con; apiResp := apiResp con; spawned := spawned con;
     Password := Password con; Connected := c |}.

(** Size of the buffer of [bufio.NewWriter]. *)
Definition defaultBufSize : nat := 4096.

(** [func (con *Connection) Write(b []byte) (int, error)], the error only.
    The returned error is that of [buffer.Write]; the error of the deferred
    [buffer.Flush] is dropped and only remembered by the writer.  A write
    larger than the buffer goes to the socket at once; a smaller one is
    buffered (which cannot fail) and reaches the socket in the flush. *)
Definition Connection_Write (p : string) (con : Connection)
  : option error * Connection :=
  match writer_err con with
  | Some e => (Some e, con)
  | None =>
      let '(err, s) := Socket_Write p (socket con) in
      if (defaultBufSize <? String.length p)%nat then
        (err, set_writer_err err (set_socket s con))
      else
        match p with
        | EmptyString => (None, con)
        | _ => (None, set_writer_err err (set_socket s con))
        end
  end.

(** [ev := <-ch]: the oldest event handed over, if any. *)
Definition recv (q : list Event) : option (Event * list Event) :=
  match q with
  | [] => None
  | ev :: q' => Some (ev, q')
  end.

(** [cmd + " " + arg1 + " " + arg2 ...] *)
Fixpoint with_args (cmd : string) (args : list string) : string :=
  match args with
  | [] => cmd
  | arg :: rest => with_args (cmd +:+ " " +:+ arg) rest
  end.

(** [func (con *Connection) SendRecv(cmd string, args ...string)].  The
    caller parks when no reply has been handed over. *)
Definition Connection_SendRecv (cmd : string) (args : list string) (con : Connection)
  : result Connection (option Event * option error) :=
  let buf := with_args cmd args +:+ nl +:+ nl in
  match Connection_Write buf con with
  | (Some err, con) => Ok (None, Some (fmt_Errorf "send bytes: %v" [arg_error err])) con
  | (None, con) =>
      match recv (cmdReply con) with
      | None => Blocked con
      | Some (ev, q) =>
          let con := set_cmdReply q con in
          let reply := Event_Get ev "Reply-Text" in
          if strings_HasPrefix reply "-ERR" then
            Ok (None, Some (fmt_Errorf "SendRecv %s %s: %s"
                              [arg_string cmd; arg_strings args;
                               arg_string (strings_TrimSpace reply)])) con
          else Ok (Some ev, None) con
      end
  end.

(** [func (con *Connection) Api(cmd string, args ...string) (string, error)] *)
Definition Connection_Api (cmd : string) (args : list string) (con : Connection)
  : result Connection (string * option error) :=
  let buf := with_args ("api " +:+ cmd) args +:+ nl +:+ nl in
  match Connection_Write buf con with
  | (Some err, con) => Ok ("", Some (fmt_Errorf "send bytes: %v" [arg_error err])) con
  | (None, con) =>
      match recv (apiResp con) with
      | None => Blocked con
      | Some (ev, q) =>
          let con := set_apiResp q con in
          let resp := strings_TrimSpace (RawBody ev) in
          if strings_HasPrefix resp "-ERR" then
            Ok ("", Some (fmt_Errorf "api %s %s: %s"
                            [arg_string cmd; arg_strings args; arg_string resp])) con
          else Ok (RawBody ev, None) con
      end
  end.

Module Command.

(** [type Command struct { Sync bool; UId, App, Args string }] *)
Record t : Type := mk {
  Sync : bool;
  UId : string;
  App : string;
  Args : string
}.

(** [func (cmd *Command) Serialize() []byte]: the four writes to the
    buffer, in order. *)
Definition Serialize (cmd : t) : string :=
  let buf := "" in
  let buf := buf +:+ ("sendmsg " +:+ UId cmd +:+ nl +:+ "call-command: execute" +:+ nl) in
  let buf := buf +:+ ("execute-app-name: " +:+ App cmd +:+ nl +:+
                      "execute-app-arg: " +:+ Args cmd +:+ nl) in
  let buf := buf +:+ (if Sync cmd then "event-lock: true" +:+ nl
                      else "event-lock: false" +:+ nl) in
  let buf := buf +:+ (nl +:+ nl) in
  buf.

(** [func (cmd Command) Execute(con *Connection)], returning an event
    pointer and an error. *)
Definition Execute (cmd : t) (con : Connection)
  : result Connection (option Event * option error) :=
  match Connection_Write (Serialize cmd) con with
  | (Some err, con) =>
      Ok (None, Some (fmt_Errorf "execute command: con write: %v" [arg_error err])) con
  | (None, con) =>
      match recv (cmdReply con) with
      | None => Blocked con
      | Some (ev, q) => Ok (Some ev, None) (set_cmdReply q con)
      end
  end.

End Command.

(** [func (con *Connection) Execute(app, uuid string, params ...string)] *)
Definition Connection_Execute (app uuid : string) (params : list string) (con : Connection)
  : result Connection (option Event * option error) :=
  let args := strings_Join params " " in
  Command.Execute
    {| Command.Sync := false; Command.UId := uuid; Command.App := app;
       Command.Args := args |} con.

(** [func (con *Connection) ExecuteSync(app, uuid string, params ...string)] *)
Definition Connection_ExecuteSync (app uuid : string) (params : list string) (con : Connection)
  : result Connection (option Event * option error) :=
  let args := strings_Join params " " in
  Command.Execute
    {| Command.Sync := true; Command.UId := uuid; Command.App := app;
       Command.Args := args |} con.

(** [func (con *Connection) Authenticate() error].  Dereferencing the nil
    event pointer that the decoder returns beside most of its errors
    panics. *)
Definition nil_dereference : string :=
  "invalid memory address or nil pointer dereference".

Definition close_socket (con : Connection) : Connection :=
  set_socket (Socket_Close (socket con)) con.

Definition is_EventAuth (t : EventType) : bool :=
  match t with EventAuth => true | _ => false end.

Definition is_EventCommandReply (t : EventType) : bool :=
  match t with EventCommandReply => true | _ => false end.

Definition Connection_Authenticate {rt : Runtime} (con : Connection)
  : result Connection (option error) :=
  match NewEventFromReader (reader con) with
  | Panicked msg r => Panicked msg (set_reader r con)
  | Blocked r => Blocked (set_reader r con)
  | Ok (ev, err) r =>
      let con := set_reader r con in
      (* if err != nil || ev.Type != EventAuth *)
      match err, ev with
      | None, None => Panicked nil_dereference con
      | Some err, None =>
          (* con.socket.Close(); if ev.Type != EventAuth *)
          Panicked nil_dereference (close_socket con)
      | Some err, Some e =>
          let con := close_socket con in
          if negb (is_EventAuth (Type_ e)) then
            Ok (Some (fmt_Errorf "bad auth preamble: [%s]" [arg_MIMEMap (Header e)])) con
          else Ok (Some (fmt_Errorf "socket read error: %v" [arg_error err])) con
      | None, Some e =>
          if negb (is_EventAuth (Type_ e)) then
            Ok (Some (fmt_Errorf "bad auth preamble: [%s]" [arg_MIMEMap (Header e)]))
               (close_socket con)
          else
            let buf := "auth " +:+ Password con +:+ nl +:+ nl in
            match Connection_Write buf con with
            | (Some err, con) =>
                Ok (Some (fmt_Errorf "passwd buffer flush: %v" [arg_error err]))
                   (close_socket con)
            | (None, con) =>
                match NewEventFromReader (reader con) with
                | Panicked msg r => Panicked msg (set_reader r con)
                | Blocked r => Blocked (set_reader r con)
                | Ok (ev, err) r =>
                    let con := set_reader r con in
                    match err, ev with
                    | Some err, _ =>
                        Ok (Some (fmt_Errorf "auth reply: %v" [arg_error err]))
                           (close_socket con)
                    | None, None => Panicked nil_dereference con
                    | None, Some e =>
                        if negb (is_EventCommandReply (Type_ e)) then
                          Ok (Some (fmt_Errorf "bad reply type: %#v"
                                      [arg_EventType (Type_ e)]))
                             (close_socket con)
                        else Ok None (set_Connected true con)
                    end
                end
            end
      end
  end.

(** [type ConnectionHandler interface]: the four hooks, each as its effect
    on the connection it is given. *)
Class ConnectionHandler : Type := {
  OnConnect : Connection -> Connection;
  OnEvent : Connection -> Event -> Connection;
  OnDisconnect : Connection -> Event -> Connection;
  OnClose : Connection -> Connection
}.

Section ReadLoop.

Context {Handler : ConnectionHandler} {rt : Runtime}.

(** What the other goroutines (request callers, notification handlers
    started with [go], anyone calling [Close]) do to the connection while
    the read loop waits in the decoder for its [i]-th frame. *)
Variable others : nat -> Connection -> Connection.

(** [func (con *Connection) Close()] *)
Definition Connection_Close (con : Connection) : Connection :=
  let con := if Connected con then OnClose (set_Connected false con) else con in
  close_socket con.

(** Whether a goroutine is there to receive what the loop sends in its
    round [i].  The channels are unbuffered: a send parks the loop until a
    receiver takes the event, and for ever when none comes. *)
Variable taken : nat -> bool.

(** What the [switch ev.Type] of the loop leads to. *)
Inductive step : Type :=
  | Return (err : error)
  | Continue (con : Connection)
  | Park (con : Connection).

(** The [switch ev.Type] of the loop in round [i]: the loop returns an
    error, goes on to its next round, or stays parked in a send.
    [go con.Handler.OnEvent(con, ev)] starts a goroutine and goes on. *)
Definition dispatch (i : nat) (ev : Event) (con : Connection) : step :=
  match Type_ ev with
  | EventError => Return (fmt_Errorf "invalid event: [%s]" [arg_Event ev])
  | EventDisconnect => Continue (OnDisconnect con ev)
  | EventCommandReply =>
      if taken i then Continue (set_cmdReply (cmdReply con ++ [ev])%list con)
      else Park con
  | EventApiResponse =>
      if taken i then Continue (set_apiResp (apiResp con ++ [ev])%list con)
      else Park con
  | EventGeneric => Continue (set_spawned (spawned con ++ [ev])%list con)
  | _ => Continue con
  end.

(** [func (con *Connection) HandleEvents() error].  [fuel] bounds the
    number of rounds ([None]: more rounds are needed); [i] counts the
    frames awaited so far. *)
Fixpoint Connection_HandleEvents (fuel : nat) (i : nat) (con : Connection)
  : option (result Connection (option error)) :=
  match fuel with
  | O => None
  | S fuel' =>
      if negb (Connected con) then Some (Ok (Some (fmt_Errorf "disconnected" [])) con)
      else
        match NewEventFromReader (reader con) with
        | Panicked msg r => Some (Panicked msg (others i (set_reader r con)))
        | Blocked r => Some (Blocked (others i (set_reader r con)))
        | Ok (ev, err) r =>
            let con := others i (set_reader r con) in
            match err with
            | Some err =>
                if is_EOF err || negb (Connected con) then Some (Ok None con)
                else
                  Some (Ok (Some (fmt_Errorf ("event read loop: %v" +:+ nl) [arg_error err]))
                           (Connection_Close con))
            | None =>
                match ev with
                | None => Some (Panicked nil_dereference con)
                | Some ev =>
                    match dispatch i ev con with
                    | Return e => Some (Ok (Some e) con)
                    | Park con => Some (Blocked con)
                    | Continue con => Connection_HandleEvents fuel' (S i) con
                    end
                end
            end
        end
  end.

End ReadLoop.

(** [func (con *Connection) BgApi(cmd string, args ...string) (string, error)] *)
Definition Connection_BgApi (cmd : string) (args : list string) (con : Connection)
  : result Connection (string * option error) :=
  match Connection_SendRecv ("bgapi " +:+ cmd) args con with
  | Ok (_, Some err) con => Ok ("", Some (fmt_Errorf "bgapi: %v" [arg_error err])) con
  | Ok (Some repl, None) con => Ok (Event_Get repl "Job-Uuid", None) con
  | Ok (None, None) con => Panicked nil_dereference con
  | Panicked msg con => Panicked msg con
  | Blocked con => Blocked con
  end.

Section SendEvent.

(** The order in which a [range] statement visits the entries of a map is
    the run time's choice. *)
Variable range : forall {V : Type}, gmap string V -> list (string * V).

(** The bytes [SendEvent] collects in its buffer: the request line, one
    line per header in the order [range] visits them, the length of the
    body, a blank line and the body. *)
Definition SendEvent_buf (cmd : string) (headers : gmap string string) (body : string)
  : string :=
  let buf := "sendevent " +:+ cmd +:+ nl in
  let buf := fold_left (fun buf kv => buf +:+ (kv.1 +:+ ": " +:+ kv.2 +:+ nl))
                       (range headers) buf in
  let buf := buf +:+ ("Content-Length: " +:+ fmt_d (Z.of_nat (String.length body)) +:+
                      nl +:+ nl) in
  buf +:+ body.

(** [func (con *Connection) SendEvent(cmd string, headers map[string]string,
    body []byte)], returning an event pointer and an error. *)
Definition Connection_SendEvent (cmd : string) (headers : gmap string string)
    (body : string) (con : Connection)
  : result Connection (option Event * option error) :=
  match Connection_Write (SendEvent_buf cmd headers body) con with
  | (Some err, con) => Ok (None, Some (fmt_Errorf "send event: %v" [arg_error err])) con
  | (None, con) =>
      match recv (cmdReply con) with
      | None => Blocked con
      | Some (ev, q) =>
          let con := set_cmdReply q con in
          let reply := Event_Get ev "Reply-Text" in
          if strings_HasPrefix reply "-ERR" then
            Ok (None, Some (fmt_Errorf "send event %s: %s"
                              [arg_string cmd; arg_string (strings_TrimSpace reply)])) con
          else Ok (Some ev, None) con
      end
  end.

End SendEvent.

Section Dial.

Context {rt : Runtime}.

(** The outcome of the [k]-th call of [net.DialTimeout] (counted from 1): the
    socket with the stream that will arrive on it, or the error. *)
Variable dial : Z -> (Socket * Reader) + error.

(** The dial loop of [ConnectRetry] from attempt [retries] on, for a
    connection that is not connected: the notices logged (attempt and
    error), and either the error the function returns at once ([inl]) or
    the socket the loop has assigned, if any ([inr]).  The loop makes at
    most [MaxRetries] rounds, which [fuel] counts. *)
Fixpoint dial_loop (fuel : nat) (retries MaxRetries : Z)
  : list (Z * error) * (error + option (Socket * Reader)) :=
  match fuel with
  | O => ([], inr None)
  | S fuel' =>
      if retries <=? MaxRetries then
        match dial retries with
        | inr err =>
            if retries =? MaxRetries then
              ([], inl (fmt_Errorf "last dial attempt: %v" [arg_error err]))
            else
              let '(notices, res) := dial_loop fuel' (retries + 1) MaxRetries in
              ((retries, err) :: notices, res)
        | inl c => ([], inr (Some c))
        end
      else ([], inr None)
  end.

(** [func (con *Connection) ConnectRetry(MaxRetries int) error], with the
    notices it logs.  [unread] is [None] when [con.socket] is nil, and
    otherwise the stream a new reader over [con.socket] will see.  The
    buffers are created anew over the socket the connection then holds;
    on a nil socket the first read of [Authenticate] panics. *)
Definition Connection_ConnectRetry (MaxRetries : Z) (unread : option Reader)
    (con : Connection) : list (Z * error) * result Connection (option error) :=
  let '(notices, res) :=
    if Connected con then ([], inr None)
    else dial_loop (Z.to_nat MaxRetries) 1 MaxRetries in
  match res with
  | inl err => (notices, Ok (Some err) con)
  | inr (Some (s, stream)) =>
      (notices,
       Connection_Authenticate (set_writer_err None (set_reader stream (set_socket s con))))
  | inr None =>
      (notices,
       match unread with
       | Some stream => Connection_Authenticate (set_writer_err None (set_reader stream con))
       | None => Panicked nil_dereference con
       end)
  end.

(** The [Connection] value [NewConnection] builds before it dials.  Its
    socket and buffer are nil: the two fields hold placeholders that are
    replaced before anything uses them. *)
Definition new_connection : Connection :=
  {| socket := {| sock_closed := true; delivered := ""; write_fault := None |};
     reader := {| pending := ""; closing := io_EOF |};
     writer_err := None; cmdReply := []; apiResp := []; spawned := [];
     Password := "ClueCon"; Connected := false |}.

(** [func NewConnection(host string, handler ConnectionHandler)], with the
    notices logged.  The value returned tells whether the connection is
    returned (beside an error the function returns nil) and the
    [OnConnect] goroutine started, and the error. *)
Definition NewConnection : list (Z * error) * result Connection (bool * option error) :=
  match Connection_ConnectRetry 3 None new_connection with
  | (notices, Ok (Some err) con) =>
      (notices, Ok (false, Some (fmt_Errorf "connect: %v" [arg_error err])) con)
  | (notices, Ok None con) => (notices, Ok (true, None) con)
  | (notices, Panicked msg con) => (notices, Panicked msg con)
  | (notices, Blocked con) => (notices, Blocked con)
  end.

End Dial.

(* ===================================================================== *)
(** * Part VI -- Specification-side definitions and sample inputs         *)
(* ===================================================================== *)

(** The grammar in the words of the specification: the target line
    ([sendmsg] and the call-leg id) with the line declaring the "execute"
    action, the application-name line, the application-argument line and
    the event-lock line, terminated by a blank line.  The text of each line
    is the one the sources write. *)
Definition spec_grammar (cmd : Command.t) : string :=
  "sendmsg " +:+ Command.UId cmd +:+ nl +:+
  "call-command: execute" +:+ nl +:+
  "execute-app-name: " +:+ Command.App cmd +:+ nl +:+
  "execute-app-arg: " +:+ Command.Args cmd +:+ nl +:+
  "event-lock: " +:+ (if Command.Sync cmd then "true" else "false") +:+ nl +:+
  nl.

(** The pieces of a byte string between its line feeds: one more than the
    number of line feeds, the last being what follows the final one. *)
Fixpoint split_LF (s : string) : list string :=
  match s with
  | EmptyString => [""]
  | String c s' =>
      if Ascii.eqb c LF then "" :: split_LF s'
      else match split_LF s' with
           | l :: ls => String c l :: ls
           | [] => [String c ""]
           end
  end.

(** An event with a 12-byte raw body whose nested header declares a
    length of 6. *)
Definition sample_text_event : Event :=
  set_RawBody "hello world!"
    (set_Body {| Map := {["Content-Length" := ["6"]]}; IsEscaped := true |} zero_Event).

(** The event the read phase hands to the [switch]: the outer header as
    read, unescaped, the raw body, and every other field still zero. *)
Definition frame_event (m : MIMEHeader) (raw : string) : Event :=
  set_RawBody raw (set_Header {| Map := m; IsEscaped := false |} zero_Event).

(** A stream holding the bytes [s], closed by the peer after them. *)
Definition reader_of (s : string) : Reader := {| pending := s; closing := io_EOF |}.

(** What the read phase yields on a stream, for use with sample frames. *)
Definition frame_of {rt : Runtime} (r : Reader) : Event :=
  match read_frame r with Ok (inl e) _ => e | _ => zero_Event end.

(** The reader as the read phase leaves it. *)
Definition after_frame {rt : Runtime} (r : Reader) : Reader :=
  match read_frame r with Ok _ r' | Panicked _ r' | Blocked r' => r' end.

(** Whether the read phase yields an event. *)
Definition frame_read {rt : Runtime} (r : Reader) : bool :=
  match read_frame r with Ok (inl _) _ => true | _ => false end.

(** The header map read from a stream, and the reader after the block. *)
Definition header_of (r : Reader) : MIMEHeader := (ReadMIMEHeader r).1.1.
Definition after_header (r : Reader) : Reader := (ReadMIMEHeader r).2.

(** A command reply whose text is percent-encoded. *)
Definition escaped_reply_frame : Reader :=
  reader_of ("Content-Type: command/reply" +:+ nl +:+
             "Reply-Text: %2BOK%20accepted" +:+ nl +:+ nl).

(** The classification table: the event type the [switch] assigns for a
    [Content-Type] value. *)
Definition classify (ct : string) : EventType :=
  if String.eqb ct "auth/request" then EventAuth
  else if String.eqb ct "command/reply" then EventCommandReply
  else if String.eqb ct "text/event-plain" then EventGeneric
  else if String.eqb ct "text/disconnect-notice" then EventDisconnect
  else if String.eqb ct "text/rude-rejection" then EventDisconnect
  else if String.eqb ct "api/response" then EventApiResponse
  else EventError.

(** The [Content-Type] values the [switch] has a case for. *)
Definition known_content_types : list string :=
  [ "auth/request"; "command/reply"; "text/event-plain"; "text/event-json";
    "text/event-xml"; "text/disconnect-notice"; "text/rude-rejection";
    "api/response" ].

(** A notification in a format the decoder does not support. *)
Definition json_frame : Reader :=
  reader_of ("Content-Type: text/event-json" +:+ nl +:+ nl).

(** A header block that declares a negative body length. *)
Definition negative_length_frame : Reader :=
  reader_of ("Content-Length: -1" +:+ nl +:+ nl).

(** An api response with a four-byte body, followed by another frame. *)
Definition api_frame : Reader :=
  reader_of ("Content-Type: api/response" +:+ nl +:+ "Content-Length: 4" +:+ nl +:+ nl +:+
             "+OK" +:+ nl +:+ "Content-Type: auth/request" +:+ nl +:+ nl).

(** The event as [parseTextBody] sees it once the nested header [m] is
    installed and flagged escaped. *)
Definition with_nested (m : MIMEHeader) (e : Event) : Event :=
  set_Body {| Map := m; IsEscaped := true |} (set_Type EventGeneric e).

(** Sample notification frames: a 74-byte nested header block behind the
    outer header. *)
Definition answer_body : string :=
  "Event-Name: CHANNEL_ANSWER" +:+ nl +:+ "Unique-ID: abc-123" +:+ nl +:+
  "Event-Date-Timestamp: 1000" +:+ nl +:+ nl.

(** The plain notification of a channel answer. *)
Definition answer_frame : Reader :=
  reader_of ("Content-Length: 74" +:+ nl +:+ "Content-Type: text/event-plain" +:+ nl +:+
             nl +:+ answer_body).

(** The same notification behind an outer header that also carries a
    [Unique-ID]. *)
Definition shadowed_frame : Reader :=
  reader_of ("Content-Length: 74" +:+ nl +:+ "Content-Type: text/event-plain" +:+ nl +:+
             "Unique-ID: other" +:+ nl +:+ nl +:+ answer_body).

(** A notification whose timestamp is not a number. *)
Definition undated_frame : Reader :=
  reader_of ("Content-Length: 74" +:+ nl +:+ "Content-Type: text/event-plain" +:+ nl +:+
             nl +:+
             "Event-Name: CHANNEL_ANSWER" +:+ nl +:+ "Unique-ID: abc-123" +:+ nl +:+
             "Event-Date-Timestamp: soon" +:+ nl +:+ nl).

(** The same notification, undated, behind an outer header that carries
    an [Event-Date-Timestamp]. *)
Definition stamped_frame : Reader :=
  reader_of ("Content-Length: 74" +:+ nl +:+ "Content-Type: text/event-plain" +:+ nl +:+
             "Event-Date-Timestamp: 5" +:+ nl +:+ nl +:+
             "Event-Name: CHANNEL_ANSWER" +:+ nl +:+ "Unique-ID: abc-123" +:+ nl +:+
             "Event-Date-Timestamp: soon" +:+ nl +:+ nl).

(** A notification whose timestamp is percent-encoded. *)
Definition escaped_stamp_frame : Reader :=
  reader_of ("Content-Length: 73" +:+ nl +:+ "Content-Type: text/event-plain" +:+ nl +:+
             nl +:+
             "Event-Name: CHANNEL_ANSWER" +:+ nl +:+ "Unique-ID: abc-123" +:+ nl +:+
             "Event-Date-Timestamp: %35" +:+ nl +:+ nl).

(** The event the decoder returns on a stream when it returns one and no
    error. *)
Definition decoded {rt : Runtime} (r : Reader) : option Event :=
  match NewEventFromReader r with
  | Ok (Some ev, None) _ => Some ev
  | _ => None
  end.

(** The reader [parseTextBody] builds over the raw body of the frame on
    a stream. *)
Definition nested_reader {rt : Runtime} (r : Reader) : Reader :=
  {| pending := RawBody (frame_of r); closing := io_EOF |}.

(** The premises shared by the notification lemmas, on a sample frame. *)
Definition plain_frame_parsed {rt : Runtime} (r : Reader) : Prop :=
  read_frame r = Ok (inl (frame_of r)) (after_frame r) /\
  Event_Get (frame_of r) "Content-Type" = "text/event-plain" /\
  ReadMIMEHeader (nested_reader r)
  = (header_of (nested_reader r), None, after_header (nested_reader r)).

(** The nested header of the frame holds the three fields of the channel
    answer. *)
Definition nested_has_answer {rt : Runtime} (r : Reader) : Prop :=
  MIMEHeader_Get (header_of (nested_reader r)) "Event-Name" = "CHANNEL_ANSWER" /\
  MIMEHeader_Get (header_of (nested_reader r)) "Unique-ID" = "abc-123" /\
  MIMEHeader_Get (header_of (nested_reader r)) "Event-Date-Timestamp" = "1000".

(** A handler whose hooks leave the connection alone. *)
#[export] Instance quiet_handler : ConnectionHandler :=
  {| OnConnect := fun con => con;
     OnEvent := fun con _ => con;
     OnDisconnect := fun con _ => con;
     OnClose := fun con => con |}.

(** The other goroutines leave the connection as it is. *)
Definition alone : nat -> Connection -> Connection := fun _ con => con.

(** A receiver is there for every event the loop sends. *)
Definition all_taken : nat -> bool := fun _ => true.

(** Nobody receives what the loop sends. *)
Definition none_taken : nat -> bool := fun _ => false.

(** A run time that serves every slice of up to one gigabyte. *)
#[export] Instance roomy : Runtime :=
  {| can_allocate := fun len => len <=? 2 ^ 30 |}.

(** A connection in the connected state whose stream is [stream], then
    [closing]. *)
Definition connected_on (stream : string) (closing : error) : Connection :=
  {| socket := {| sock_closed := false; delivered := ""; write_fault := None |};
     reader := {| pending := stream; closing := closing |};
     writer_err := None; cmdReply := []; apiResp := []; spawned := [];
     Password := "ClueCon"; Connected := true |}.

(** A command reply whose text starts with the failure marker and also
    holds the success marker. *)
Definition failed_reply_stream : string :=
  "Content-Type: command/reply" +:+ nl +:+
  "Reply-Text: -ERR invalid session id (no +OK)" +:+ nl +:+ nl.

(** A fire-and-forget playback on a call leg. *)
Definition playback : Command.t :=
  {| Command.Sync := false; Command.UId := "abc-123"; Command.App := "playback";
     Command.Args := "local_stream://moh" |}.

(** A connection that has just dialled: not yet connected. *)
Definition dialled_on (stream : string) (closing : error) : Connection :=
  set_Connected false (connected_on stream closing).

(** Number of bytes still pending on a reader. *)
Abbreviation plen r := (String.length (pending r)).

(** A command reply whose text starts with the failure marker. *)
Definition err_reply : Event :=
  set_Header {| Map := {["Reply-Text" := ["-ERR no such channel"]]}; IsEscaped := false |}
    (set_Type EventCommandReply zero_Event).

(** An api response whose body starts with the failure marker. *)
Definition err_response : Event :=
  set_RawBody ("-ERR no such command" +:+ nl) (set_Type EventApiResponse zero_Event).

(** A connected connection with one event waiting in each queue. *)
Definition waiting_con : Connection :=
  set_apiResp [err_response] (set_cmdReply [err_reply] (connected_on "" io_EOF)).

(** The connection as [Write] leaves it. *)
Definition after_write (p : string) (con : Connection) : Connection :=
  (Connection_Write p con).2.

(** A successful command reply. *)
Definition reply_first_stream : string :=
  "Content-Type: command/reply" +:+ nl +:+ "Reply-Text: +OK accepted" +:+ nl +:+ nl.

(** ASCII lower case of a byte string. *)
Fixpoint lower (s : string) : string :=
  match s with
  | EmptyString => ""
  | String c s' => String (to_lower c) (lower s')
  end.


(** The error a write on the socket meets, if any. *)
Definition write_error (s : Socket) : option error :=
  if sock_closed s then Some (net_Error "use of closed network connection")
  else write_fault s.

(** A connection whose writer has met no error and whose socket takes
    writes. *)
Definition healthy (con : Connection) : Prop :=
  writer_err con = None /\ write_error (socket con) = None.

(** [con'] is [con] after [frame] has reached the peer and nothing else
    has changed but the two queues. *)
Definition sent (frame : string) (con con' : Connection) : Prop :=
  delivered (socket con') = delivered (socket con) +:+ frame /\
  healthy con' /\
  reader con' = reader con /\
  Connected con' = Connected con.

(** A connection whose socket was closed locally. *)
Definition closed_con : Connection := close_socket (connected_on "" io_EOF).


(** The notices of the failed attempts [from .. from + n - 1], the [k]-th
    attempt failing with [errs k]. *)
Definition failed_attempts (errs : Z -> error) (from : Z) (n : nat) : list (Z * error) :=
  map (fun k => (k, errs k)) (seqZ from (Z.of_nat n)).

(** One header line as the package writes it with ["%s: %s\n"]. *)
Definition header_line (kv : string * string) : string :=
  kv.1 +:+ ": " +:+ kv.2 +:+ nl.

(** Header lines one after the other. *)
Fixpoint header_lines (l : list (string * string)) : string :=
  match l with
  | [] => ""
  | kv :: l' => header_line kv +:+ header_lines l'
  end.

(** A field the header reader accepts: a name that is a non-empty token
    and a value of header-value bytes. *)
Definition well_formed_field (kv : string * string) : bool :=
  negb (String.eqb kv.1 "") && all_bytes validHeaderFieldByte kv.1 &&
  all_bytes validHeaderValueByte kv.2.

(** The header map that holds the fields of [l], in order, after those of
    [m]: names canonical, values trimmed. *)
Definition parsed_fields (l : list (string * string)) (m : MIMEHeader) : MIMEHeader :=
  fold_left (fun m kv => MIMEHeader_append m (canonicalize true kv.1) (trim kv.2)) l m.

(** The four header fields of the message [Serialize] writes after the
    [sendmsg] line. *)
Definition Serialize_fields (cmd : Command.t) : list (string * string) :=
  [ ("call-command", "execute");
    ("execute-app-name", Command.App cmd);
    ("execute-app-arg", Command.Args cmd);
    ("event-lock", if Command.Sync cmd then "true" else "false") ].

(** [r'] is [r] after some bytes were taken from the front of its stream:
    what is pending on [r'] is a suffix of what was pending on [r], and the
    stream ends the same way. *)
Definition reads_on (r r' : Reader) : Prop :=
  closing r' = closing r /\ exists taken, pending r = taken +:+ pending r'.

(** The reader as a call of the decoder leaves it. *)
Definition reader_after {A : Type} (res : result Reader A) : Reader :=
  match res with Ok _ r | Panicked _ r | Blocked r => r end.

(** The reader [r] on a longer stream: the bytes [t] arrive after those
    pending on [r], and the stream then ends with [c]. *)
Definition extend (t : string) (c : error) (r : Reader) : Reader :=
  {| pending := pending r +:+ t; closing := c |}.

(** A frame without body: header lines and the blank line. *)
Definition frame_text (fields : list (string * string)) : string :=
  header_lines fields +:+ nl.

(** The greeting of the server. *)
Definition auth_request : list (string * string) := [("Content-Type", "auth/request")].

(** A command reply with the text [t]. *)
Definition command_reply (t : string) : list (string * string) :=
  [("Content-Type", "command/reply"); ("Reply-Text", t)].

(** The connection with which a call ends, whatever the outcome. *)
Definition final {A : Type} (res : result Connection A) : Connection :=
  match res with Ok _ con | Panicked _ con | Blocked con => con end.

(** The message of the panic [make([]byte, len)] raises in the decoder. *)
Definition makeslice_panic : string := "makeslice: len out of range".

(** A command reply the decoder lets through: the [Reply-Text] of its
    outer header, as received, holds a success marker. *)
Definition accepted_reply (ev : Event) : Prop :=
  Type_ ev = EventCommandReply /\
  (strings_Contains (MIMEHeader_Get (Map (Header ev)) "Reply-Text") "+OK" = true \/
   strings_Contains (MIMEHeader_Get (Map (Header ev)) "Reply-Text") "%2BOK" = true).

(** Each queue holds events of its own kind only. *)
Definition queues_sorted (con : Connection) : Prop :=
  Forall accepted_reply (cmdReply con) /\
  Forall (fun ev => Type_ ev = EventApiResponse) (apiResp con) /\
  Forall (fun ev => Type_ ev = EventGeneric) (spawned con).

(** A stream of one command reply, one api response and one
    notification. *)
Definition mixed_stream : string :=
  reply_first_stream +:+
  ("Content-Type: api/response" +:+ nl +:+ "Content-Length: 4" +:+ nl +:+ nl +:+ "+OK" +:+ nl) +:+
  ("Content-Length: 74" +:+ nl +:+ "Content-Type: text/event-plain" +:+ nl +:+ nl +:+ answer_body).

(** The [auth] request [Authenticate] writes. *)
Definition auth_line (password : string) : string := "auth " +:+ password +:+ nl +:+ nl.

(** Whether the decoder turns down a command reply of text [t]: its text,
    trimmed, holds neither success marker. *)
Definition rejected (t : string) : bool :=
  negb (strings_Contains (trim t) "+OK") && negb (strings_Contains (trim t) "%2BOK").

(** The second dial reaches a server that greets and accepts. *)
Definition second_dial (k : Z) : (Socket * Reader) + error :=
  if k =? 2 then
    inl ({| sock_closed := false; delivered := ""; write_fault := None |},
         reader_of (frame_text auth_request +:+ frame_text (command_reply "+OK accepted") +:+ ""))
  else inr (net_Error "connection refused").

(* ===================================================================== *)
(** * Part VII -- Verified properties                                     *)
(* ===================================================================== *)

(** ** Byte strings *)

Lemma append_cons (c : ascii) (s t : string) : String c s +:+ t = String c (s +:+ t).
Proof. reflexivity. Qed.

Lemma append_nil_l (s : string) : "" +:+ s = s.
Proof. reflexivity. Qed.

Lemma append_nil_r (s : string) : s +:+ "" = s.
Proof. induction s as [|c s IH]; [reflexivity | now rewrite append_cons, IH]. Qed.

Lemma append_assoc (s1 s2 s3 : string) : (s1 +:+ s2) +:+ s3 = s1 +:+ (s2 +:+ s3).
Proof. induction s1 as [|c s1 IH]; [reflexivity | now rewrite !append_cons, IH]. Qed.

Lemma length_append (s1 s2 : string) :
  String.length (s1 +:+ s2) = (String.length s1 + String.length s2)%nat.
Proof.
  induction s1 as [|c s1 IH]; [reflexivity | rewrite append_cons; simpl; now rewrite IH].
Qed.

Lemma substring_0_length (s : string) : String.substring 0 (String.length s) s = s.
Proof. induction s as [|c s IH]; simpl; [reflexivity | now rewrite IH]. Qed.

(** A string splits at any offset within it into [substring]s. *)
Lemma substring_split (s : string) (n : nat) :
  (n <= String.length s)%nat ->
  s = String.substring 0 n s +:+ String.substring n (String.length s - n) s.
Proof.
  revert n. induction s as [|c s IH]; intros [|n] Hn; simpl in *; try reflexivity; try lia.
  - now rewrite substring_0_length.
  - rewrite append_cons. f_equal. apply IH. lia.
Qed.

Lemma length_substring (s : string) (n m : nat) :
  (n + m <= String.length s)%nat -> String.length (String.substring n m s) = m.
Proof.
  revert n m. induction s as [|c s IH]; intros [|n] [|m] H; simpl in *; try reflexivity; try lia.
  - f_equal. apply (IH 0%nat m). lia.
  - apply (IH n 0%nat). lia.
  - apply (IH n (S m)). lia.
Qed.

(** Composition of [substring]s: a window taken inside a suffix. *)
Lemma substring_drop (s : string) (n k m : nat) :
  (n + k + m <= String.length s)%nat ->
  String.substring k m (String.substring n (String.length s - n) s)
  = String.substring (n + k) m s.
Proof.
  revert n. induction s as [|c s IH]; intros [|n] H; simpl in *.
  - destruct k, m; reflexivity.
  - lia.
  - now rewrite substring_0_length.
  - apply IH. lia.
Qed.

(** The one-byte window at offset [n] is the byte [get n] finds. *)
Lemma substring_one (s : string) (n : nat) :
  (n < String.length s)%nat ->
  String.substring n 1 s
  = String (match String.get n s with Some c => c | None => SP end) "".
Proof.
  revert n. induction s as [|c s IH]; intros [|n] H; simpl in *; try lia.
  - destruct s; reflexivity.
  - apply IH. lia.
Qed.

Lemma prefix_spec (p s : string) :
  String.prefix p s = true <-> exists post, s = p +:+ post.
Proof.
  revert s. induction p as [|c p IH]; intros s.
  - destruct s; simpl; split; eauto.
  - destruct s as [|d s]; simpl.
    + split; [discriminate | intros [post H]; discriminate H].
    + destruct (ascii_dec c d) as [->|Hne].
      * rewrite IH. split; intros [post H]; exists post.
        -- now rewrite append_cons, H.
        -- rewrite append_cons in H. now injection H.
      * split; [discriminate|]. intros [post H]. rewrite append_cons in H.
        injection H as H1 H2. now destruct Hne.
Qed.

(** [strings.HasPrefix] holds exactly when [s] starts with [p]. *)
Lemma HasPrefix_spec (s p : string) :
  strings_HasPrefix s p = true <-> exists post, s = p +:+ post.
Proof. apply prefix_spec. Qed.


Lemma mem_byte_append (c : ascii) (s t : string) :
  mem_byte c (s +:+ t) = mem_byte c s || mem_byte c t.
Proof.
  induction s as [|d s IH]; [reflexivity|].
  rewrite append_cons. cbn [mem_byte]. now rewrite IH, orb_assoc.
Qed.

(** A line without line feed, then a line feed: the first piece. *)
Lemma split_LF_line (l rest : string) :
  mem_byte LF l = false -> split_LF (l +:+ nl +:+ rest) = l :: split_LF rest.
Proof.
  induction l as [|c l IH]; intros H.
  - reflexivity.
  - cbn [mem_byte] in H. apply orb_false_iff in H as [Hc Hl].
    rewrite append_cons. cbn [split_LF].
    rewrite Ascii.eqb_sym, Hc. now rewrite (IH Hl).
Qed.

(** ** [Command.Serialize] *)

(** X27.  [Command.Serialize] is a total function of the command.  Its
    output is the target line and the line declaring the
    "execute" action, the application-name line, the application-argument
    line and the event-lock line ("true" exactly when [Sync] is set),
    followed by a blank line and one more line feed: three LF bytes follow
    the event-lock value.  When no field of the command holds a line feed,
    the output cut at its line feeds is exactly these five lines, two
    empty lines, and nothing after the last line feed. *)
Theorem Serialize_layout (cmd : Command.t) :
  Command.Serialize cmd = spec_grammar cmd +:+ nl /\
  (mem_byte LF (Command.UId cmd) = false ->
   mem_byte LF (Command.App cmd) = false ->
   mem_byte LF (Command.Args cmd) = false ->
   split_LF (Command.Serialize cmd)
   = [ "sendmsg " +:+ Command.UId cmd;
       "call-command: execute";
       "execute-app-name: " +:+ Command.App cmd;
       "execute-app-arg: " +:+ Command.Args cmd;
       "event-lock: " +:+ (if Command.Sync cmd then "true" else "false");
       ""; ""; "" ]).
Proof.
  assert (Hbytes : Command.Serialize cmd = spec_grammar cmd +:+ nl).
  { unfold Command.Serialize, spec_grammar.
    rewrite append_nil_l, !append_assoc.
    destruct (Command.Sync cmd); rewrite ?append_assoc; reflexivity. }
  split; [exact Hbytes|].
  intros Hu Ha Hg. rewrite Hbytes. unfold spec_grammar.
  rewrite !append_assoc.
  rewrite <- (append_assoc "sendmsg " (Command.UId cmd)).
  rewrite split_LF_line by (rewrite mem_byte_append, Hu; reflexivity).
  rewrite (split_LF_line "call-command: execute") by reflexivity.
  rewrite <- (append_assoc "execute-app-name: " (Command.App cmd)).
  rewrite split_LF_line by (rewrite mem_byte_append, Ha; reflexivity).
  rewrite <- (append_assoc "execute-app-arg: " (Command.Args cmd)).
  rewrite split_LF_line by (rewrite mem_byte_append, Hg; reflexivity).
  rewrite <- (append_assoc "event-lock: ").
  rewrite split_LF_line by (destruct (Command.Sync cmd); reflexivity).
  reflexivity.
Qed.

(** The layout on the sample playback command. *)
Lemma Serialize_layout_witness :
  (mem_byte LF (Command.UId playback) = false /\
   mem_byte LF (Command.App playback) = false /\
   mem_byte LF (Command.Args playback) = false)
  /\ split_LF (Command.Serialize playback)
     = [ "sendmsg " +:+ Command.UId playback;
         "call-command: execute";
         "execute-app-name: " +:+ Command.App playback;
         "execute-app-arg: " +:+ Command.Args playback;
         "event-lock: " +:+ (if Command.Sync playback then "true" else "false");
         ""; ""; "" ].
Proof.
  split; [repeat split|].
  apply (proj2 (Serialize_layout playback)); reflexivity.
Defined.

(** C8, the defect: for the command below the output is not the grammar
    terminated by a blank line; one more line feed follows the blank line.
    The requests the other operations write ([SendRecv], [Api],
    [Authenticate], [SendEvent]) end with a single blank line. *)
Theorem Serialize_not_single_blank_line :
  let cmd := {| Command.Sync := false; Command.UId := "u1";
                Command.App := "playback"; Command.Args := "moh" |} in
  Command.Serialize cmd <> spec_grammar cmd
  /\ Command.Serialize cmd = spec_grammar cmd +:+ nl.
Proof. split; [intros H; vm_compute in H; discriminate H | vm_compute; reflexivity]. Qed.

(** ** [strconv.Atoi] stays within [int] *)

Lemma is_digit_val (c : ascii) :
  is_digit c = true -> 0 <= byte_val c - byte_val "0" <= 9.
Proof.
  unfold is_digit, in_range. change (byte_val "0") with 48. change (byte_val "9") with 57.
  intros H. apply andb_true_iff in H as [H1 H2]. lia.
Qed.

Lemma parse_digits_bounds (s : string) : forall n m,
  0 <= n <= maxUint64 -> parse_digits s n = inl m -> 0 <= m <= maxUint64.
Proof.
  induction s as [|c s IH]; intros n m Hn H; simpl in H.
  - now injection H as <-.
  - destruct (is_digit c) eqn:Hd; simpl in H; [|discriminate].
    destruct (maxUint64 / 10 + 1 <=? n); [discriminate|].
    destruct (maxUint64 <? n * 10 + (byte_val c - byte_val "0")) eqn:Hlt; [discriminate|].
    apply Z.ltb_ge in Hlt.
    pose proof (is_digit_val c Hd) as Hv.
    apply (IH (n * 10 + (byte_val c - byte_val "0")) m); [lia | exact H].
Qed.

Lemma Atoi_range (s : string) (n : Z) :
  strconv_Atoi s = (n, None) -> minInt <= n <= maxInt.
Proof.
  unfold strconv_Atoi. destruct s as [|c s]; [discriminate|].
  set (neg := Ascii.eqb c "-").
  set (digits := if Ascii.eqb c "+" || neg then s else String c s).
  destruct digits as [|d ds] eqn:Hds; [discriminate|].
  destruct (parse_digits (String d ds) 0) as [un|[]] eqn:Hp; try discriminate.
  apply parse_digits_bounds in Hp; [|unfold maxUint64; lia].
  change (2 ^ 63) with 9223372036854775808.
  unfold minInt, maxInt, intSize. change (2 ^ (64 - 1)) with 9223372036854775808.
  destruct neg; simpl.
  - destruct (9223372036854775808 <? un) eqn:E; [discriminate|].
    apply Z.ltb_ge in E. intros [= <-]. lia.
  - destruct (9223372036854775808 <=? un) eqn:E; [discriminate|].
    apply Z.leb_gt in E. intros [= <-]. lia.
Qed.

(** ** [Event.GetTextBody] *)

Lemma wrap_int_id (x : Z) : minInt <= x <= maxInt -> wrap_int x = x.
Proof.
  unfold wrap_int, minInt, maxInt, intSize.
  change (2 ^ (64 - 1)) with 9223372036854775808.
  change (2 ^ 64) with 18446744073709551616.
  intros H. rewrite Z.mod_small; lia.
Qed.

Lemma wrap_int_over (x : Z) :
  maxInt < x <= maxInt - minInt -> wrap_int x < 0.
Proof.
  unfold wrap_int, minInt, maxInt, intSize.
  change (2 ^ (64 - 1)) with 9223372036854775808.
  change (2 ^ 64) with 18446744073709551616.
  intros H.
  replace (x + 9223372036854775808)
    with ((x - 9223372036854775808) + 1 * 18446744073709551616) by lia.
  rewrite Z.mod_add by lia. rewrite Z.mod_small; lia.
Qed.

(** C10.  [GetTextBody] returns [""] when the nested header has no
    [Content-Length] or one that [Atoi] rejects.  When the value parses as
    [n], the slice is in range exactly when [0 < n <= len(RawBody)], and
    the result is then the last [n] bytes of the raw body without the final
    one; for any other [n] (greater than the body length, any positive [n]
    on an empty body, zero, negative) the slice expression panics. *)
Theorem GetTextBody_cases (e : Event) :
  Z.of_nat (String.length (RawBody e)) <= maxInt ->
  let slen := MIMEMap_Get (Body e) "Content-Length" in
  let blen := Z.of_nat (String.length (RawBody e)) in
  (slen = "" -> Event_GetTextBody e = Returns "") /\
  (forall v err, strconv_Atoi slen = (v, Some err) -> Event_GetTextBody e = Returns "") /\
  (forall n, slen <> "" -> strconv_Atoi slen = (n, None) ->
     (0 < n <= blen ->
        exists pre t c,
          RawBody e = pre +:+ t +:+ String c "" /\
          Z.of_nat (String.length (t +:+ String c "")) = n /\
          Event_GetTextBody e = Returns t) /\
     (~ (0 < n <= blen) -> exists msg, Event_GetTextBody e = Panics msg)).
Proof.
  intros Hlen slen blen. unfold Event_GetTextBody. fold slen.
  split; [|split].
  - intros ->. reflexivity.
  - intros v err H. destruct (String.eqb slen ""); [reflexivity|]. now rewrite H.
  - intros n Hne Hn.
    apply String.eqb_neq in Hne. rewrite Hne, Hn. fold blen.
    pose proof (Atoi_range _ _ Hn) as Hr.
    assert (Hb : 0 <= blen) by (unfold blen; lia).
    assert (Hmm : minInt = - maxInt - 1) by reflexivity.
    assert (Hmx : 0 < maxInt) by reflexivity.
    split.
    + intros [Hn0 Hnb].
      rewrite !wrap_int_id by lia.
      replace ((0 <=? blen - n) && (blen - n <=? blen - 1) && (blen - 1 <=? blen))
        with true by (symmetry; rewrite !andb_true_iff, !Z.leb_le; lia).
      set (lo := Z.to_nat (blen - n)).
      set (k := Z.to_nat (blen - 1 - (blen - n))).
      assert (Hk : (lo + k + 1 = String.length (RawBody e))%nat) by (unfold lo, k, blen in *; lia).
      exists (String.substring 0 lo (RawBody e)),
             (String.substring lo k (RawBody e)),
             (match String.get (lo + k) (RawBody e) with Some c => c | None => SP end).
      split; [|split; [|reflexivity]].
      * rewrite (substring_split (RawBody e) lo) at 1 by lia.
        f_equal.
        set (suf := String.substring lo (String.length (RawBody e) - lo) (RawBody e)).
        assert (Hsl : String.length suf = (k + 1)%nat)
          by (unfold suf; rewrite length_substring; lia).
        rewrite (substring_split suf k) by lia.
        unfold suf at 1. rewrite (substring_drop (RawBody e) lo 0 k) by lia.
        rewrite Nat.add_0_r. f_equal.
        rewrite Hsl. replace (k + 1 - k)%nat with 1%nat by lia.
        unfold suf. rewrite (substring_drop (RawBody e) lo k 1) by lia.
        apply substring_one. lia.
      * rewrite length_append, length_substring by lia. simpl. unfold k, blen. lia.
    + intros Hout. exists "slice bounds out of range".
      rewrite (wrap_int_id (blen - 1)) by lia.
      destruct (Z_le_gt_dec (blen - n) maxInt) as [Hle|Hgt].
      * rewrite wrap_int_id by lia.
        replace ((0 <=? blen - n) && (blen - n <=? blen - 1) && (blen - 1 <=? blen))
          with false; [reflexivity|].
        symmetry. apply not_true_is_false. rewrite !andb_true_iff, !Z.leb_le. lia.
      * pose proof (wrap_int_over (blen - n) ltac:(lia)) as Hneg.
        replace (0 <=? wrap_int (blen - n)) with false; [reflexivity|].
        symmetry. apply Z.leb_gt. exact Hneg.
Qed.

(** C10 at a sample event: a 12-byte raw body and a nested
    [Content-Length] of 6. *)
Lemma GetTextBody_cases_witness :
  Z.of_nat (String.length (RawBody sample_text_event)) <= maxInt /\
  exists pre t c,
    RawBody sample_text_event = pre +:+ t +:+ String c "" /\
    Z.of_nat (String.length (t +:+ String c "")) = 6 /\
    Event_GetTextBody sample_text_event = Returns t.
Proof.
  assert (H : Z.of_nat (String.length (RawBody sample_text_event)) <= maxInt)
    by (vm_compute; discriminate).
  split; [exact H|].
  destruct (GetTextBody_cases sample_text_event H) as (_ & _ & H3).
  destruct (H3 6) as [Hin _].
  - vm_compute. discriminate.
  - reflexivity.
  - apply Hin. vm_compute. split; [reflexivity | discriminate].
Defined.

(** ** The frame decoder *)

Lemma MIMEHeader_Get_empty (key : string) : MIMEHeader_Get ∅ key = "".
Proof. unfold MIMEHeader_Get. now rewrite lookup_empty. Qed.

(** While the nested header is unset, [Event.Get] reads the outer one. *)
Lemma Event_Get_frame_event (m : MIMEHeader) (raw key : string) :
  Event_Get (frame_event m raw) key = MIMEHeader_Get m key.
Proof.
  unfold Event_Get, MIMEMap_Get, frame_event. simpl.
  destruct (String.eqb (MIMEHeader_Get m key) "") eqn:E; [|reflexivity].
  apply String.eqb_eq in E. now rewrite E, MIMEHeader_Get_empty.
Qed.

Lemma Event_Get_set_Type (t : EventType) (e : Event) (key : string) :
  Event_Get (set_Type t e) key = Event_Get e key.
Proof. reflexivity. Qed.

(** A successful read phase: the header block was read without error and
    the event is the [frame_event] of the header and of the body read. *)
Lemma read_frame_event {rt : Runtime} (r : Reader) (e : Event) (r' : Reader) :
  read_frame r = Ok (inl e) r' ->
  exists m r1 raw, ReadMIMEHeader r = (m, None, r1) /\ e = frame_event m raw.
Proof.
  unfold read_frame. destruct (ReadMIMEHeader r) as [[m err] r1].
  destruct err as [err|].
  - destruct err; discriminate.
  - destruct (String.eqb _ ""); [intros [= <- <-]; now exists m, r1, ""|].
    destruct (strconv_Atoi _) as [len [err|]]; [discriminate|].
    destruct ((len <? 0) || (maxAlloc <? len)); [discriminate|].
    destruct (negb (can_allocate len)); [discriminate|].
    destruct (io_ReadFull _ r1) as [[raw|err] r2]; [|discriminate].
    intros [= <- <-]. now exists m, r1, raw.
Qed.

(** [parseTextBody] leaves the classification, the outer header and the
    raw body as they were. *)
Lemma parseTextBody_frame (e e' : Event) (err : option error) :
  parseTextBody e = (e', err) ->
  Type_ e' = Type_ e /\ Header e' = Header e /\ RawBody e' = RawBody e.
Proof.
  unfold parseTextBody.
  destruct (ReadMIMEHeader _) as [[m [err0|]] rest].
  - intros [= <- <-]. now repeat split.
  - destruct (strconv_Atoi _) as [stamp err1]. intros [= <- <-]. now repeat split.
Qed.

(** The [switch] never changes the raw body of the event it returns. *)
Lemma switch_RawBody (e ev : Event) (err : option error) :
  switch_ContentType e = (Some ev, err) -> RawBody ev = RawBody e.
Proof.
  unfold switch_ContentType.
  repeat match goal with
         | |- context [if ?c then _ else _] => destruct c
         end; try (intros [= <- <-]; reflexivity); try discriminate.
  destruct (parseTextBody _) as [e' err'] eqn:P. intros [= <- <-].
  now apply parseTextBody_frame in P as (_ & _ & ->).
Qed.

Lemma read_frame_eta {rt : Runtime} (r : Reader) :
  frame_read r = true -> read_frame r = Ok (inl (frame_of r)) (after_frame r).
Proof.
  unfold frame_read, frame_of, after_frame.
  destruct (read_frame r) as [[e|e] r'|msg r'|r']; now try discriminate.
Qed.

Lemma ReadMIMEHeader_eta (r : Reader) :
  (ReadMIMEHeader r).1.2 = None ->
  ReadMIMEHeader r = (header_of r, None, after_header r).
Proof.
  unfold header_of, after_header. destruct (ReadMIMEHeader r) as [[m e] r']. simpl.
  now intros ->.
Qed.

(** *** Command replies (C1) *)

(** C1.  For a frame whose header block and body were read and whose
    [Content-Type] is [command/reply]: when [Reply-Text] contains neither
    "+OK" nor "%2BOK" the decoder returns an error and no event; when it
    contains one of them the decoder returns, without error, an event
    classified [EventCommandReply], and the outer header map of that event
    is flagged escaped exactly when [Reply-Text] contains a percent sign. *)
Theorem CommandReply_validation {rt : Runtime} (r : Reader) (e : Event) (r' : Reader) :
  read_frame r = Ok (inl e) r' ->
  Event_Get e "Content-Type" = "command/reply" ->
  let reply := Event_Get e "Reply-Text" in
  (strings_Contains reply "+OK" = false ->
   strings_Contains reply "%2BOK" = false ->
   exists err, NewEventFromReader r = Ok (None, Some err) r') /\
  (strings_Contains reply "+OK" = true \/ strings_Contains reply "%2BOK" = true ->
   exists ev,
     NewEventFromReader r = Ok (Some ev, None) r' /\
     Type_ ev = EventCommandReply /\
     Map (Header ev) = Map (Header e) /\
     IsEscaped (Header ev) = strings_Contains reply "%").
Proof.
  intros Hread Hct reply.
  unfold NewEventFromReader. rewrite Hread.
  apply read_frame_event in Hread as (m & r1 & raw & _ & ->).
  unfold switch_ContentType. rewrite Hct. simpl String.eqb. cbv iota.
  rewrite Event_Get_set_Type. fold reply.
  split.
  - intros -> ->. simpl. eauto.
  - intros Hok.
    assert (Hno : negb (strings_Contains reply "+OK") && negb (strings_Contains reply "%2BOK") = false)
      by (destruct Hok as [-> | ->]; simpl; [reflexivity | apply andb_false_r]).
    rewrite Hno.
    destruct (strings_Contains reply "%") eqn:Hpct; eexists; repeat split; reflexivity.
Qed.

(** C1 on a reply whose text is percent-encoded. *)
Lemma CommandReply_validation_witness :
  (read_frame escaped_reply_frame
   = Ok (inl (frame_of escaped_reply_frame)) (after_frame escaped_reply_frame)
   /\ Event_Get (frame_of escaped_reply_frame) "Content-Type" = "command/reply")
  /\ exists ev,
       NewEventFromReader escaped_reply_frame
       = Ok (Some ev, None) (after_frame escaped_reply_frame) /\
       Type_ ev = EventCommandReply /\
       Map (Header ev) = Map (Header (frame_of escaped_reply_frame)) /\
       IsEscaped (Header ev) = true.
Proof.
  assert (H1 : read_frame escaped_reply_frame
               = Ok (inl (frame_of escaped_reply_frame)) (after_frame escaped_reply_frame))
    by (apply read_frame_eta; vm_compute; reflexivity).
  assert (H2 : Event_Get (frame_of escaped_reply_frame) "Content-Type" = "command/reply")
    by (vm_compute; reflexivity).
  split; [now split|].
  destruct (CommandReply_validation _ _ _ H1 H2) as [_ Hok].
  destruct Hok as (ev & Hev & Ht & Hm & Hesc); [right; vm_compute; reflexivity|].
  exists ev. split; [exact Hev|]. split; [exact Ht|]. split; [exact Hm|].
  rewrite Hesc. vm_compute. reflexivity.
Defined.

(** *** Classification (C3) *)

Lemma switch_Type (e ev : Event) (err : option error) :
  Type_ e = EventError ->
  switch_ContentType e = (Some ev, err) ->
  Type_ ev = classify (Event_Get e "Content-Type").
Proof.
  intros Hz. unfold switch_ContentType, classify.
  destruct (String.eqb _ "auth/request") eqn:E1; [intros [= <- <-]; reflexivity|].
  destruct (String.eqb _ "command/reply") eqn:E2.
  { repeat match goal with
           | |- context [if ?c then _ else _] => destruct c
           end; intros [= <- <-]; reflexivity. }
  destruct (String.eqb _ "text/event-plain") eqn:E3.
  { destruct (parseTextBody _) as [e' err'] eqn:P. intros [= <- <-].
    now apply parseTextBody_frame in P as (-> & _). }
  destruct (String.eqb _ "text/event-json") eqn:E4;
    destruct (String.eqb _ "text/event-xml") eqn:E5; simpl;
    try (intros [= <- <-];
         apply String.eqb_eq in E4 || apply String.eqb_eq in E5;
         (rewrite E4 || rewrite E5); exact Hz).
  destruct (String.eqb _ "text/disconnect-notice") eqn:E6; simpl;
    [intros [= <- <-]; reflexivity|].
  destruct (String.eqb _ "text/rude-rejection") eqn:E7; simpl;
    [intros [= <- <-]; reflexivity|].
  destruct (String.eqb _ "api/response") eqn:E8; intros [= <- <-]; [reflexivity | exact Hz].
Qed.

(** C3.  For a frame whose header block and body were read, with [ct] its
    outer [Content-Type] value ([""] when the header is missing): the type
    of any event the decoder returns is [classify ct], a function of [ct]
    alone; and case by case the decoder returns what the table says --
    [auth/request], the two disconnect types and [api/response] give the
    classified event and no error; [command/reply] gives either an event
    classified [EventCommandReply] or the validation error; [text/event-plain]
    always gives an event classified [EventGeneric]; [text/event-json] and
    [text/event-xml] give the unsupported-format error beside an event
    whose type is still the zero value [EventError]; any other value gives
    the event with type [EventError] and no error. *)
Theorem classification_table {rt : Runtime} (r : Reader) (e : Event) (r' : Reader) :
  read_frame r = Ok (inl e) r' ->
  let ct := Event_Get e "Content-Type" in
  (forall ev err r'', NewEventFromReader r = Ok (Some ev, err) r'' ->
                      Type_ ev = classify ct) /\
  (ct = "auth/request" ->
   NewEventFromReader r = Ok (Some (set_Type EventAuth e), None) r') /\
  (ct = "command/reply" ->
   (exists ev, NewEventFromReader r = Ok (Some ev, None) r' /\ Type_ ev = EventCommandReply)
   \/ (exists err, NewEventFromReader r = Ok (None, Some err) r')) /\
  (ct = "text/event-plain" ->
   exists ev err, NewEventFromReader r = Ok (Some ev, err) r' /\ Type_ ev = EventGeneric) /\
  (ct = "text/event-json" \/ ct = "text/event-xml" ->
   NewEventFromReader r
   = Ok (Some e, Some (fmt_Errorf "unsupported format %s" [arg_string ct])) r'
   /\ Type_ e = EventError) /\
  (ct = "text/disconnect-notice" \/ ct = "text/rude-rejection" ->
   NewEventFromReader r = Ok (Some (set_Type EventDisconnect e), None) r') /\
  (ct = "api/response" ->
   NewEventFromReader r = Ok (Some (set_Type EventApiResponse e), None) r') /\
  (~ In ct known_content_types ->
   NewEventFromReader r = Ok (Some e, None) r' /\ Type_ e = EventError).
Proof.
  intros Hread ct.
  assert (Hz : Type_ e = EventError)
    by (apply read_frame_event in Hread as (m & r1 & raw & _ & ->); reflexivity).
  unfold NewEventFromReader. rewrite Hread.
  split; [|split; [|split; [|split; [|split; [|split; [|split]]]]]].
  - intros ev err r'' [= H <-]. now apply (switch_Type e ev err).
  - intros H. unfold switch_ContentType. fold ct. now rewrite H.
  - intros H. unfold switch_ContentType. fold ct. rewrite H. simpl String.eqb. cbv iota.
    destruct (negb _ && negb _); [right; eauto|].
    left. destruct (strings_Contains _ "%"); eexists; split; reflexivity.
  - intros H. unfold switch_ContentType. fold ct. rewrite H. simpl String.eqb. cbv iota.
    destruct (parseTextBody _) as [e' err'] eqn:P.
    exists e', err'. split; [reflexivity|].
    now apply parseTextBody_frame in P as (-> & _).
  - intros H. split; [|exact Hz].
    unfold switch_ContentType. fold ct. destruct H as [H|H]; rewrite H; reflexivity.
  - intros H. unfold switch_ContentType. fold ct. destruct H as [H|H]; now rewrite H.
  - intros H. unfold switch_ContentType. fold ct. now rewrite H.
  - intros H. split; [|exact Hz].
    unfold switch_ContentType. fold ct.
    repeat match goal with
           | |- context [String.eqb ct ?s] =>
               let E := fresh "E" in
               destruct (String.eqb ct s) eqn:E;
               [apply String.eqb_eq in E; exfalso; apply H; rewrite E; simpl; tauto|]
           end.
    reflexivity.
Qed.

(** C3 on a frame in an unsupported format: an error, beside an event left
    unclassified. *)
Lemma classification_table_witness :
  read_frame json_frame = Ok (inl (frame_of json_frame)) (after_frame json_frame)
  /\ NewEventFromReader json_frame
     = Ok (Some (frame_of json_frame),
           Some (fmt_Errorf "unsupported format %s" [arg_string "text/event-json"]))
          (after_frame json_frame)
  /\ Type_ (frame_of json_frame) = EventError.
Proof.
  assert (H1 : read_frame json_frame
               = Ok (inl (frame_of json_frame)) (after_frame json_frame))
    by (apply read_frame_eta; vm_compute; reflexivity).
  split; [exact H1|].
  destruct (classification_table _ _ _ H1) as (_ & _ & _ & _ & Hjson & _).
  apply Hjson. left. vm_compute. reflexivity.
Defined.

(** *** The raw body (C6) *)

Lemma io_ReadFull_enough (n : nat) (r : Reader) :
  (n <= String.length (pending r))%nat ->
  io_ReadFull n r
  = (inl (String.substring 0 n (pending r)), advance (drop n (pending r)) r).
Proof. intros H. unfold io_ReadFull. apply Nat.leb_le in H. now rewrite H. Qed.

Lemma io_ReadFull_short (n : nat) (r : Reader) :
  (String.length (pending r) < n)%nat ->
  exists err, io_ReadFull n r = (inr err, advance "" r).
Proof. intros H. unfold io_ReadFull. apply Nat.leb_gt in H. rewrite H. eauto. Qed.

(** X8.  When the header block was read and its [Content-Length] parses
    as an integer [n] that [make] accepts ([0 <= n <= maxAlloc]) and the
    allocator can serve: if the stream still holds [n] bytes, exactly the
    next [n] bytes become the raw body, the reader is left right after
    them whatever the classification then yields, and an event that is
    returned carries that body; if fewer than [n] bytes arrive before the
    stream ends, the decoder returns the read failure and no event. *)
Theorem body_read_exact {rt : Runtime} (r : Reader) (m : MIMEHeader) (r1 : Reader) (n : Z) :
  ReadMIMEHeader r = (m, None, r1) ->
  MIMEHeader_Get m "Content-Length" <> "" ->
  strconv_Atoi (MIMEHeader_Get m "Content-Length") = (n, None) ->
  0 <= n <= maxAlloc ->
  can_allocate n = true ->
  (n <= Z.of_nat (String.length (pending r1)) ->
   exists body rest,
     pending r1 = body +:+ rest /\
     Z.of_nat (String.length body) = n /\
     read_frame r = Ok (inl (frame_event m body)) (advance rest r1) /\
     exists ev err,
       NewEventFromReader r = Ok (ev, err) (advance rest r1) /\
       forall e', ev = Some e' -> RawBody e' = body) /\
  (Z.of_nat (String.length (pending r1)) < n ->
   exists err,
     NewEventFromReader r
     = Ok (None, Some (fmt_Errorf "read body: %v" [arg_error err])) (advance "" r1)).
Proof.
  intros Hhdr Hne Hn Hrange Halloc.
  assert (Hframe : read_frame r =
    if (n <? 0) || (maxAlloc <? n) then Panicked "makeslice: len out of range" r1
    else if negb (can_allocate n) then Panicked out_of_memory r1
    else match io_ReadFull (Z.to_nat n) r1 with
         | (inr err, r2) => Ok (inr (fmt_Errorf "read body: %v" [arg_error err])) r2
         | (inl raw, r2) => Ok (inl (frame_event m raw)) r2
         end).
  { unfold read_frame. rewrite Hhdr.
    change (set_Header {| Map := m; IsEscaped := false |} zero_Event) with (frame_event m "").
    rewrite Event_Get_frame_event.
    apply String.eqb_neq in Hne. rewrite Hne, Hn. reflexivity. }
  replace ((n <? 0) || (maxAlloc <? n)) with false in Hframe
    by (symmetry; apply orb_false_iff; split; [apply Z.ltb_ge | apply Z.ltb_ge]; lia).
  rewrite Halloc in Hframe. cbn [negb] in Hframe.
  split.
  - intros Hav.
    assert (Hnat : (Z.to_nat n <= String.length (pending r1))%nat) by lia.
    rewrite (io_ReadFull_enough _ _ Hnat) in Hframe.
    exists (String.substring 0 (Z.to_nat n) (pending r1)), (drop (Z.to_nat n) (pending r1)).
    split; [apply substring_split; exact Hnat|].
    split; [rewrite length_substring; lia|].
    split; [exact Hframe|].
    unfold NewEventFromReader. rewrite Hframe.
    destruct (switch_ContentType _) as [ev err] eqn:Hsw.
    exists ev, err. split; [reflexivity|].
    intros e' ->. now apply switch_RawBody in Hsw.
  - intros Hshort.
    destruct (io_ReadFull_short (Z.to_nat n) r1 ltac:(lia)) as [err Herr].
    rewrite Herr in Hframe. exists err.
    unfold NewEventFromReader. now rewrite Hframe.
Qed.

(** C6, the defect: a [Content-Length] of -1 parses as an integer ([Atoi]
    accepts a sign), and the decoder, which turns every other unusable
    length into a returned error, neither reads a body nor returns a
    failure: the allocation of the body panics, whatever the allocator. *)
Theorem negative_length_panics :
  (exists m r1,
     ReadMIMEHeader negative_length_frame = (m, None, r1) /\
     strconv_Atoi (MIMEHeader_Get m "Content-Length") = (-1, None))
  /\ forall rt : Runtime,
       NewEventFromReader negative_length_frame
       = Panicked "makeslice: len out of range" (reader_of "").
Proof.
  split; [|intros rt; vm_compute; reflexivity].
  exists (header_of negative_length_frame), (after_header negative_length_frame).
  split; [apply ReadMIMEHeader_eta|]; vm_compute; reflexivity.
Qed.

(** The property on an api response with a four-byte body followed by
    another frame. *)
Lemma body_read_exact_witness :
  (ReadMIMEHeader api_frame = (header_of api_frame, None, after_header api_frame)
   /\ MIMEHeader_Get (header_of api_frame) "Content-Length" <> ""
   /\ strconv_Atoi (MIMEHeader_Get (header_of api_frame) "Content-Length") = (4, None)
   /\ 0 <= 4 <= maxAlloc
   /\ can_allocate 4 = true
   /\ 4 <= Z.of_nat (String.length (pending (after_header api_frame))))
  /\ exists body rest,
       pending (after_header api_frame) = body +:+ rest /\
       Z.of_nat (String.length body) = 4 /\
       read_frame api_frame
       = Ok (inl (frame_event (header_of api_frame) body))
            (advance rest (after_header api_frame)) /\
       exists ev err,
         NewEventFromReader api_frame = Ok (ev, err) (advance rest (after_header api_frame)) /\
         forall e', ev = Some e' -> RawBody e' = body.
Proof.
  assert (H1 : ReadMIMEHeader api_frame
               = (header_of api_frame, None, after_header api_frame))
    by (apply ReadMIMEHeader_eta; vm_compute; reflexivity).
  assert (H2 : MIMEHeader_Get (header_of api_frame) "Content-Length" <> "")
    by (vm_compute; discriminate).
  assert (H3 : strconv_Atoi (MIMEHeader_Get (header_of api_frame) "Content-Length") = (4, None))
    by (vm_compute; reflexivity).
  assert (H4 : 0 <= 4 <= maxAlloc) by (vm_compute; split; discriminate).
  assert (H4' : can_allocate 4 = true) by reflexivity.
  assert (H5 : 4 <= Z.of_nat (String.length (pending (after_header api_frame))))
    by (vm_compute; discriminate).
  split; [exact (conj H1 (conj H2 (conj H3 (conj H4 (conj H4' H5)))))|].
  exact (proj1 (body_read_exact _ _ _ _ H1 H2 H3 H4 H4') H5).
Defined.

(** *** Notifications (C7, C9) *)

(** [parseTextBody] once the nested header block has been read. *)
Lemma parseTextBody_parsed (e : Event) (m : MIMEHeader) (rest : Reader) :
  ReadMIMEHeader {| pending := RawBody e; closing := io_EOF |} = (m, None, rest) ->
  let e1 := with_nested m e in
  parseTextBody (set_Type EventGeneric e)
  = (set_derived (Event_Get e1 "Unique-ID")
                 (EventNameString (Event_Get e1 "Event-Name")).1
                 (Event_Get e1 "Application")
                 (strings_TrimSpace (Event_Get e1 "Application-Data"))
                 (strconv_Atoi (Event_Get e1 "Event-Date-Timestamp")).1 e1,
     (strconv_Atoi (Event_Get e1 "Event-Date-Timestamp")).2).
Proof.
  intros H e1. unfold parseTextBody.
  change (RawBody (set_Type EventGeneric e)) with (RawBody e). rewrite H.
  fold (with_nested m e). fold e1.
  change (set_Body {| Map := Map (Body (set_Body {| Map := m; IsEscaped := IsEscaped (Body (set_Type EventGeneric e)) |} (set_Type EventGeneric e))); IsEscaped := true |}
            (set_Body {| Map := m; IsEscaped := IsEscaped (Body (set_Type EventGeneric e)) |} (set_Type EventGeneric e)))
    with e1.
  now destruct (strconv_Atoi (Event_Get e1 "Event-Date-Timestamp")).
Qed.

(** A value the outer header lacks is read from the nested one,
    percent-decoded. *)
Lemma Event_Get_nested (m0 m : MIMEHeader) (raw key : string) :
  MIMEHeader_Get m0 key = "" ->
  Event_Get (with_nested m (frame_event m0 raw)) key
  = default "" (url_QueryUnescape (MIMEHeader_Get m key)).
Proof.
  intros H. unfold Event_Get, MIMEMap_Get, with_nested, frame_event. simpl.
  now rewrite H.
Qed.

(** C7 (as amended).  For a [text/event-plain] frame whose nested body
    header gives [Event-Name: CHANNEL_ANSWER], [Unique-ID: abc-123] and
    [Event-Date-Timestamp: 1000] as the first values of those names, and
    whose outer header carries none of the three names, the decoder returns,
    without error, an [EventGeneric] event with name [CHANNEL_ANSWER],
    call-leg id "abc-123" and timestamp 1000, whose nested header map is the
    one read from the body, flagged percent-escaped. *)
Theorem channel_answer_decoded {rt : Runtime} (r : Reader) (e : Event) (r' : Reader)
    (m : MIMEHeader) (rest : Reader) :
  read_frame r = Ok (inl e) r' ->
  Event_Get e "Content-Type" = "text/event-plain" ->
  ReadMIMEHeader {| pending := RawBody e; closing := io_EOF |} = (m, None, rest) ->
  MIMEHeader_Get m "Event-Name" = "CHANNEL_ANSWER" ->
  MIMEHeader_Get m "Unique-ID" = "abc-123" ->
  MIMEHeader_Get m "Event-Date-Timestamp" = "1000" ->
  MIMEHeader_Get (Map (Header e)) "Event-Name" = "" ->
  MIMEHeader_Get (Map (Header e)) "Unique-ID" = "" ->
  MIMEHeader_Get (Map (Header e)) "Event-Date-Timestamp" = "" ->
  exists ev,
    NewEventFromReader r = Ok (Some ev, None) r' /\
    Type_ ev = EventGeneric /\
    Name ev = CHANNEL_ANSWER /\
    UId ev = "abc-123" /\
    Stamp ev = 1000 /\
    Body ev = {| Map := m; IsEscaped := true |}.
Proof.
  intros Hread Hct Hbody Hname Huid Hstamp Hn0 Hu0 Hs0.
  unfold NewEventFromReader. rewrite Hread.
  apply read_frame_event in Hread as (m0 & r1 & raw & _ & ->).
  simpl in Hn0, Hu0, Hs0.
  unfold switch_ContentType. rewrite Hct. simpl String.eqb. cbv iota.
  rewrite (parseTextBody_parsed _ _ _ Hbody). cbv zeta.
  rewrite (Event_Get_nested m0 m raw "Unique-ID") by assumption.
  rewrite (Event_Get_nested m0 m raw "Event-Name") by assumption.
  rewrite (Event_Get_nested m0 m raw "Event-Date-Timestamp") by assumption.
  rewrite Hname, Huid, Hstamp.
  eexists. split; [reflexivity|]. repeat split.
Qed.

(** The timestamp text is what [Event.Get] finds for
    [Event-Date-Timestamp] (outer header first, else the nested value
    percent-decoded).  When [Atoi] rejects that text the decoder returns
    the [Atoi] error; the event returned beside it is classified
    [EventGeneric] and has its call-leg id, name, application and trimmed
    argument populated. *)
Lemma timestamp_rejected {rt : Runtime} (r : Reader) (e : Event) (r' : Reader)
    (m : MIMEHeader) (rest : Reader) :
  read_frame r = Ok (inl e) r' ->
  Event_Get e "Content-Type" = "text/event-plain" ->
  ReadMIMEHeader {| pending := RawBody e; closing := io_EOF |} = (m, None, rest) ->
  let e1 := with_nested m e in
  forall v err, strconv_Atoi (Event_Get e1 "Event-Date-Timestamp") = (v, Some err) ->
    exists ev,
      NewEventFromReader r = Ok (Some ev, Some err) r' /\
      Type_ ev = EventGeneric /\
      UId ev = Event_Get e1 "Unique-ID" /\
      Name ev = (EventNameString (Event_Get e1 "Event-Name")).1 /\
      App ev = Event_Get e1 "Application" /\
      AppData ev = strings_TrimSpace (Event_Get e1 "Application-Data").
Proof.
  intros Hread Hct Hbody e1 v err Hatoi.
  unfold NewEventFromReader. rewrite Hread.
  unfold switch_ContentType. rewrite Hct. simpl String.eqb. cbv iota.
  rewrite (parseTextBody_parsed _ _ _ Hbody). cbv zeta.
  fold e1. rewrite Hatoi.
  eexists. split; [reflexivity|]. repeat split.
Qed.

(** C9 (as amended).  For a [text/event-plain] frame whose outer header
    carries no [Event-Date-Timestamp] and whose nested header block
    parses, let the timestamp text be the nested [Event-Date-Timestamp]
    value, percent-decoded ([""] when the header is absent or the value
    cannot be decoded).  When [Atoi] rejects that text, and so whenever the
    nested header is absent, [NewEventFromReader] returns the [Atoi]
    error; the event returned beside it is classified [EventGeneric] and
    has its call-leg id, name, application and trimmed argument
    populated. *)
Theorem bad_timestamp_fails {rt : Runtime} (r : Reader) (e : Event) (r' : Reader)
    (m : MIMEHeader) (rest : Reader) :
  read_frame r = Ok (inl e) r' ->
  Event_Get e "Content-Type" = "text/event-plain" ->
  ReadMIMEHeader {| pending := RawBody e; closing := io_EOF |} = (m, None, rest) ->
  MIMEHeader_Get (Map (Header e)) "Event-Date-Timestamp" = "" ->
  let e1 := with_nested m e in
  let stamp := default "" (url_QueryUnescape (MIMEHeader_Get m "Event-Date-Timestamp")) in
  (forall v err, strconv_Atoi stamp = (v, Some err) ->
     exists ev,
       NewEventFromReader r = Ok (Some ev, Some err) r' /\
       Type_ ev = EventGeneric /\
       UId ev = Event_Get e1 "Unique-ID" /\
       Name ev = (EventNameString (Event_Get e1 "Event-Name")).1 /\
       App ev = Event_Get e1 "Application" /\
       AppData ev = strings_TrimSpace (Event_Get e1 "Application-Data")) /\
  (MIMEHeader_Get m "Event-Date-Timestamp" = "" ->
   exists ev err, NewEventFromReader r = Ok (Some ev, Some err) r').
Proof.
  intros Hread Hct Hbody Houter e1 stamp.
  assert (Hstamp : Event_Get e1 "Event-Date-Timestamp" = stamp).
  { unfold e1, stamp.
    destruct (read_frame_event _ _ _ Hread) as (m0 & r1 & raw & _ & ->).
    apply Event_Get_nested. exact Houter. }
  assert (Hgen : forall v err, strconv_Atoi stamp = (v, Some err) ->
     exists ev,
       NewEventFromReader r = Ok (Some ev, Some err) r' /\
       Type_ ev = EventGeneric /\
       UId ev = Event_Get e1 "Unique-ID" /\
       Name ev = (EventNameString (Event_Get e1 "Event-Name")).1 /\
       App ev = Event_Get e1 "Application" /\
       AppData ev = strings_TrimSpace (Event_Get e1 "Application-Data")).
  { intros v err Hatoi. rewrite <- Hstamp in Hatoi.
    exact (timestamp_rejected r e r' m rest Hread Hct Hbody v err Hatoi). }
  split; [exact Hgen|].
  intros Habsent.
  destruct (Hgen 0 (strconv_NumError "Atoi" "" ErrSyntax)) as (ev & Hev & _).
  - unfold stamp. now rewrite Habsent.
  - eauto.
Qed.

(** C7 on the sample frame. *)
Lemma channel_answer_decoded_witness :
  (plain_frame_parsed answer_frame /\ nested_has_answer answer_frame)
  /\ exists ev,
       NewEventFromReader answer_frame = Ok (Some ev, None) (after_frame answer_frame) /\
       Type_ ev = EventGeneric /\
       Name ev = CHANNEL_ANSWER /\
       UId ev = "abc-123" /\
       Stamp ev = 1000 /\
       Body ev = {| Map := header_of (nested_reader answer_frame); IsEscaped := true |}.
Proof.
  assert (H1 : read_frame answer_frame
               = Ok (inl (frame_of answer_frame)) (after_frame answer_frame))
    by (apply read_frame_eta; vm_compute; reflexivity).
  assert (H2 : Event_Get (frame_of answer_frame) "Content-Type" = "text/event-plain")
    by (vm_compute; reflexivity).
  assert (H3 : ReadMIMEHeader (nested_reader answer_frame)
               = (header_of (nested_reader answer_frame), None,
                  after_header (nested_reader answer_frame)))
    by (apply ReadMIMEHeader_eta; vm_compute; reflexivity).
  assert (H4 : MIMEHeader_Get (header_of (nested_reader answer_frame)) "Event-Name"
               = "CHANNEL_ANSWER") by (vm_compute; reflexivity).
  assert (H5 : MIMEHeader_Get (header_of (nested_reader answer_frame)) "Unique-ID"
               = "abc-123") by (vm_compute; reflexivity).
  assert (H6 : MIMEHeader_Get (header_of (nested_reader answer_frame)) "Event-Date-Timestamp"
               = "1000") by (vm_compute; reflexivity).
  split; [exact (conj (conj H1 (conj H2 H3)) (conj H4 (conj H5 H6)))|].
  apply (channel_answer_decoded _ _ _ _ _ H1 H2 H3 H4 H5 H6); vm_compute; reflexivity.
Defined.

(** C7, the claim as stated fails: the nested header of this frame holds
    the three fields, yet the call-leg id of the decoded event is the
    [Unique-ID] of the outer header, which [Event.Get] consults first. *)
Lemma outer_header_shadows_nested :
  (plain_frame_parsed shadowed_frame /\ nested_has_answer shadowed_frame)
  /\ Type_ <$> decoded shadowed_frame = Some EventGeneric
  /\ UId <$> decoded shadowed_frame = Some "other".
Proof.
  split; [split; [split; [|split] | split; [|split]]|split];
    try (apply read_frame_eta); try (apply ReadMIMEHeader_eta); vm_compute; reflexivity.
Qed.

(** C9, the claim as stated fails.  The nested header block of the first
    frame parses and its [Event-Date-Timestamp] is "soon", no decimal
    integer; yet the decoder returns no error: [Event.Get] consults the
    outer header first, which gives 5.  The nested [Event-Date-Timestamp]
    of the second frame, "%35", is no decimal integer either; the nested
    header is read percent-decoded, which gives 5 again. *)
Lemma outer_timestamp_shadows_nested :
  (plain_frame_parsed stamped_frame
   /\ MIMEHeader_Get (header_of (nested_reader stamped_frame)) "Event-Date-Timestamp" = "soon"
   /\ (strconv_Atoi "soon").2 = Some (strconv_NumError "Atoi" "soon" ErrSyntax)
   /\ Stamp <$> decoded stamped_frame = Some 5)
  /\ (plain_frame_parsed escaped_stamp_frame
      /\ MIMEHeader_Get (header_of (nested_reader escaped_stamp_frame)) "Event-Date-Timestamp"
         = "%35"
      /\ (strconv_Atoi "%35").2 = Some (strconv_NumError "Atoi" "%35" ErrSyntax)
      /\ Stamp <$> decoded escaped_stamp_frame = Some 5).
Proof.
  split; (split; [split; [|split]|split; [|split]]);
    try (apply read_frame_eta); try (apply ReadMIMEHeader_eta); vm_compute; reflexivity.
Qed.

(** C9 on a notification whose timestamp is not a number. *)
Lemma bad_timestamp_fails_witness :
  (plain_frame_parsed undated_frame
   /\ MIMEHeader_Get (Map (Header (frame_of undated_frame))) "Event-Date-Timestamp" = "")
  /\ exists ev,
       NewEventFromReader undated_frame
       = Ok (Some ev, Some (strconv_NumError "Atoi" "soon" ErrSyntax))
            (after_frame undated_frame) /\
       Type_ ev = EventGeneric /\
       UId ev = "abc-123" /\
       Name ev = CHANNEL_ANSWER.
Proof.
  assert (H1 : read_frame undated_frame
               = Ok (inl (frame_of undated_frame)) (after_frame undated_frame))
    by (apply read_frame_eta; vm_compute; reflexivity).
  assert (H2 : Event_Get (frame_of undated_frame) "Content-Type" = "text/event-plain")
    by (vm_compute; reflexivity).
  assert (H3 : ReadMIMEHeader (nested_reader undated_frame)
               = (header_of (nested_reader undated_frame), None,
                  after_header (nested_reader undated_frame)))
    by (apply ReadMIMEHeader_eta; vm_compute; reflexivity).
  assert (H4 : MIMEHeader_Get (Map (Header (frame_of undated_frame))) "Event-Date-Timestamp" = "")
    by (vm_compute; reflexivity).
  split; [exact (conj (conj H1 (conj H2 H3)) H4)|].
  destruct (bad_timestamp_fails _ _ _ _ _ H1 H2 H3 H4) as [Hbad _].
  destruct (Hbad 0 (strconv_NumError "Atoi" "soon" ErrSyntax)) as (ev & Hev & Ht & Hu & Hn & _).
  - vm_compute. reflexivity.
  - exists ev. split; [exact Hev|]. split; [exact Ht|].
    split; [rewrite Hu | rewrite Hn]; vm_compute; reflexivity.
Defined.

(** ** The read loop (C2) *)

Lemma is_EOF_false (e : error) : e <> io_EOF -> is_EOF e = false.
Proof. destruct e; intros H; try reflexivity. now destruct H. Qed.

(** The decoder never parks. *)
Lemma NewEventFromReader_not_Blocked {rt : Runtime} (r r' : Reader) : NewEventFromReader r <> Blocked r'.
Proof.
  unfold NewEventFromReader, read_frame.
  destruct (ReadMIMEHeader r) as [[m err] r1].
  destruct err as [err|]; [destruct err; discriminate|].
  destruct (String.eqb _ ""); [discriminate|].
  destruct (strconv_Atoi _) as [len [err|]]; [discriminate|].
  destruct ((len <? 0) || (maxAlloc <? len)); [discriminate|].
  destruct (negb (can_allocate len)); [discriminate|].
  destruct (io_ReadFull _ r1) as [[raw|err] r2]; discriminate.
Qed.

(** The decoder never returns a nil event without an error. *)
Lemma decoder_no_nil_nil {rt : Runtime} (r r' : Reader) :
  NewEventFromReader r <> Ok (None, None) r'.
Proof.
  unfold NewEventFromReader.
  destruct (read_frame r) as [[e0|e0] r0|msg r0|r0]; try discriminate.
  unfold switch_ContentType.
  repeat match goal with
         | |- context [if ?c then _ else _] => destruct c
         end; try discriminate.
  destruct (parseTextBody _). discriminate.
Qed.

(** C2 (as amended).  One round of [HandleEvents], for any handler, any
    allocator, any behaviour [others] of the other goroutines, any
    receivers [taken] and any number of rounds still allowed.  With the
    connected flag found cleared at the top of the round the loop ends
    with the "disconnected" failure.  Otherwise the decoder runs; it never
    parks and never returns a nil event without an error, and [con'] is
    the connection once it has returned.
    - The decoder panics: the loop ends with that panic.
    - The decoder reports [io.EOF]: normal return, whatever the connected
      flag; the loop closes nothing.
    - The decoder reports any failure and the connection is no longer
      connected: normal return; the loop closes nothing.
    - The decoder reports another failure and the connection is connected:
      the loop calls [Close] (the socket ends closed) and returns the
      failure, wrapped.
    - A frame of [EventError] classification: the loop returns a failure
      and closes nothing.
    - A command reply or an api response is sent on its channel: when a
      goroutine receives it the loop runs its next round, the event handed
      over; when none does the loop stays parked in the send.
    - A disconnect notice goes to the [OnDisconnect] hook and a
      notification to a new goroutine; after either, and after a frame of
      any other classification, the loop runs its next round. *)
Theorem HandleEvents_round {Handler : ConnectionHandler} {rt : Runtime}
    (others : nat -> Connection -> Connection) (taken : nat -> bool)
    (fuel i : nat) (con : Connection) :
  (Connected con = false ->
   Connection_HandleEvents others taken (S fuel) i con
   = Some (Ok (Some (fmt_Errorf "disconnected" [])) con)) /\
  (Connected con = true ->
   (forall r', NewEventFromReader (reader con) <> Blocked r' /\
               NewEventFromReader (reader con) <> Ok (None, None) r') /\
   (forall msg r', NewEventFromReader (reader con) = Panicked msg r' ->
    Connection_HandleEvents others taken (S fuel) i con
    = Some (Panicked msg (others i (set_reader r' con)))) /\
   forall ev err r', NewEventFromReader (reader con) = Ok (ev, err) r' ->
   let con' := others i (set_reader r' con) in
   (err = Some io_EOF ->
    Connection_HandleEvents others taken (S fuel) i con = Some (Ok None con')) /\
   (forall e, err = Some e -> Connected con' = false ->
    Connection_HandleEvents others taken (S fuel) i con = Some (Ok None con')) /\
   (forall e, err = Some e -> e <> io_EOF -> Connected con' = true ->
    Connection_HandleEvents others taken (S fuel) i con
    = Some (Ok (Some (fmt_Errorf ("event read loop: %v" +:+ nl) [arg_error e]))
               (Connection_Close con'))
    /\ sock_closed (socket (Connection_Close con')) = true) /\
   (forall e0, err = None -> ev = Some e0 -> Type_ e0 = EventError ->
    Connection_HandleEvents others taken (S fuel) i con
    = Some (Ok (Some (fmt_Errorf "invalid event: [%s]" [arg_Event e0])) con')) /\
   (forall e0, err = None -> ev = Some e0 -> Type_ e0 = EventCommandReply ->
    Connection_HandleEvents others taken (S fuel) i con
    = if taken i
      then Connection_HandleEvents others taken fuel (S i)
             (set_cmdReply (cmdReply con' ++ [e0]) con')
      else Some (Blocked con')) /\
   (forall e0, err = None -> ev = Some e0 -> Type_ e0 = EventApiResponse ->
    Connection_HandleEvents others taken (S fuel) i con
    = if taken i
      then Connection_HandleEvents others taken fuel (S i)
             (set_apiResp (apiResp con' ++ [e0]) con')
      else Some (Blocked con')) /\
   (forall e0, err = None -> ev = Some e0 -> Type_ e0 = EventDisconnect ->
    Connection_HandleEvents others taken (S fuel) i con
    = Connection_HandleEvents others taken fuel (S i) (OnDisconnect con' e0)) /\
   (forall e0, err = None -> ev = Some e0 -> Type_ e0 = EventGeneric ->
    Connection_HandleEvents others taken (S fuel) i con
    = Connection_HandleEvents others taken fuel (S i)
        (set_spawned (spawned con' ++ [e0]) con')) /\
   (forall e0, err = None -> ev = Some e0 ->
    Type_ e0 = EventState \/ Type_ e0 = EventConnect \/ Type_ e0 = EventAuth ->
    Connection_HandleEvents others taken (S fuel) i con
    = Connection_HandleEvents others taken fuel (S i) con')).
Proof.
  split.
  - intros Hc. simpl. now rewrite Hc.
  - intros Hc. split; [|split].
    + intros r'. split; [apply NewEventFromReader_not_Blocked | apply decoder_no_nil_nil].
    + intros msg r' Hdec. simpl. now rewrite Hc, Hdec.
    + intros ev err r' Hdec con'. simpl. rewrite Hc, Hdec. simpl. fold con'.
      split; [|split; [|split; [|split; [|split; [|split; [|split; [|split]]]]]]].
      * intros ->. reflexivity.
      * intros e -> Hd. rewrite Hd. simpl. now rewrite orb_true_r.
      * intros e -> Hne Hd. rewrite Hd, (is_EOF_false e Hne). simpl. split; reflexivity.
      * intros e0 -> -> Ht. unfold dispatch. now rewrite Ht.
      * intros e0 -> -> Ht. unfold dispatch. rewrite Ht. now destruct (taken i).
      * intros e0 -> -> Ht. unfold dispatch. rewrite Ht. now destruct (taken i).
      * intros e0 -> -> Ht. unfold dispatch. now rewrite Ht.
      * intros e0 -> -> Ht. unfold dispatch. now rewrite Ht.
      * intros e0 -> -> [Ht|[Ht|Ht]]; unfold dispatch; now rewrite Ht.
Qed.

(** C2, the claim as stated fails: on a connected connection whose peer
    closes the stream, the loop returns normally; it reports no failure and
    leaves the connection connected and its socket open. *)
Lemma eof_while_connected_returns_normally :
  let con := connected_on "" io_EOF in
  NewEventFromReader (reader con) = Ok (None, Some io_EOF) (reader con)
  /\ Connection_HandleEvents alone none_taken 1 0 con = Some (Ok None con)
  /\ Connected con = true
  /\ sock_closed (socket con) = false.
Proof. repeat split. Qed.

(** C2 on a connected connection that receives one api response and then
    a line that is no header.  With a receiver for the response, the first
    round hands it over and the loop goes on to its next round; with none,
    the loop stays parked in the send. *)
Lemma HandleEvents_round_witness :
  let con := connected_on ("Content-Type: api/response" +:+ nl +:+ nl +:+
                           "garbage" +:+ nl) io_EOF in
  Connected con = true
  /\ exists ev r',
       NewEventFromReader (reader con) = Ok (Some ev, None) r' /\
       Type_ ev = EventApiResponse /\
       Connection_HandleEvents alone all_taken 2 0 con
       = Connection_HandleEvents alone all_taken 1 1
           (set_apiResp [ev] (set_reader r' con)) /\
       Connection_HandleEvents alone none_taken 2 0 con
       = Some (Blocked (set_reader r' con)).
Proof.
  intros con.
  assert (Hc : Connected con = true) by reflexivity.
  split; [exact Hc|].
  pose (ev := set_Type EventApiResponse (frame_of (reader con))).
  pose (r' := after_frame (reader con)).
  assert (Hdec : NewEventFromReader (reader con) = Ok (Some ev, None) r')
    by (vm_compute; reflexivity).
  exists ev, r'. split; [exact Hdec|]. split; [reflexivity|].
  split.
  - destruct (proj2 (HandleEvents_round alone all_taken 1 0 con) Hc)
      as (_ & _ & Hok).
    destruct (Hok _ _ _ Hdec) as (_ & _ & _ & _ & _ & Hapi & _).
    exact (Hapi ev eq_refl eq_refl eq_refl).
  - destruct (proj2 (HandleEvents_round alone none_taken 1 0 con) Hc)
      as (_ & _ & Hok).
    destruct (Hok _ _ _ Hdec) as (_ & _ & _ & _ & _ & Hapi & _).
    exact (Hapi ev eq_refl eq_refl eq_refl).
Defined.

(** After the response, the same loop meets the malformed line: with the
    connection still connected it closes it and reports the failure. *)
Example HandleEvents_garbage_closes (rt : Runtime) :
  exists err con',
    Connection_HandleEvents alone all_taken 2 0
      (connected_on ("Content-Type: api/response" +:+ nl +:+ nl +:+ "garbage" +:+ nl) io_EOF)
    = Some (Ok (Some (fmt_Errorf ("event read loop: %v" +:+ nl) [arg_error err])) con')
    /\ Connected con' = false
    /\ sock_closed (socket con') = true.
Proof. eexists _, _. split; [vm_compute; reflexivity | split; reflexivity]. Qed.

(** ** Request operations (C4) *)

(** X2.  [SendRecv] inspects the reply text of the event it receives: a text
    that starts with "-ERR" makes it return a failure that carries the
    trimmed text; otherwise it returns the event. *)
Lemma SendRecv_inspects (cmd : string) (args : list string) (con con1 : Connection)
    (ev : Event) (q : list Event) :
  Connection_Write (with_args cmd args +:+ nl +:+ nl) con = (None, con1) ->
  cmdReply con1 = ev :: q ->
  let reply := Event_Get ev "Reply-Text" in
  (strings_HasPrefix reply "-ERR" = true ->
   Connection_SendRecv cmd args con
   = Ok (None, Some (fmt_Errorf "SendRecv %s %s: %s"
                       [arg_string cmd; arg_strings args;
                        arg_string (strings_TrimSpace reply)]))
        (set_cmdReply q con1)) /\
  (strings_HasPrefix reply "-ERR" = false ->
   Connection_SendRecv cmd args con = Ok (Some ev, None) (set_cmdReply q con1)).
Proof.
  intros Hw Hq reply. unfold Connection_SendRecv. rewrite Hw, Hq. simpl. fold reply.
  split; intros ->; reflexivity.
Qed.

(** [SendRecv] on a reply that carries the failure marker. *)
Lemma SendRecv_inspects_witness :
  let p := with_args "hupall" [] +:+ nl +:+ nl in
  (Connection_Write p waiting_con = (None, after_write p waiting_con)
   /\ cmdReply (after_write p waiting_con) = [err_reply])
  /\ Connection_SendRecv "hupall" [] waiting_con
     = Ok (None, Some (fmt_Errorf "SendRecv %s %s: %s"
                         [arg_string "hupall"; arg_strings [];
                          arg_string (strings_TrimSpace (Event_Get err_reply "Reply-Text"))]))
          (set_cmdReply [] (after_write p waiting_con)).
Proof.
  intros p.
  assert (H1 : Connection_Write p waiting_con = (None, after_write p waiting_con))
    by reflexivity.
  assert (H2 : cmdReply (after_write p waiting_con) = [err_reply]) by reflexivity.
  split; [exact (conj H1 H2)|].
  apply (proj1 (SendRecv_inspects "hupall" [] _ _ _ _ H1 H2)).
  vm_compute. reflexivity.
Defined.

(** X3.  [Api] inspects the raw body of the event it receives: when the body,
    trimmed, starts with "-ERR" it returns a failure that carries the
    trimmed body; otherwise it returns the body verbatim. *)
Lemma Api_inspects (cmd : string) (args : list string) (con con1 : Connection)
    (ev : Event) (q : list Event) :
  Connection_Write (with_args ("api " +:+ cmd) args +:+ nl +:+ nl) con = (None, con1) ->
  apiResp con1 = ev :: q ->
  let resp := strings_TrimSpace (RawBody ev) in
  (strings_HasPrefix resp "-ERR" = true ->
   Connection_Api cmd args con
   = Ok ("", Some (fmt_Errorf "api %s %s: %s"
                     [arg_string cmd; arg_strings args; arg_string resp]))
        (set_apiResp q con1)) /\
  (strings_HasPrefix resp "-ERR" = false ->
   Connection_Api cmd args con = Ok (RawBody ev, None) (set_apiResp q con1)).
Proof.
  intros Hw Hq resp. unfold Connection_Api. rewrite Hw, Hq. simpl. fold resp.
  split; intros ->; reflexivity.
Qed.

(** [Api] on a response whose body carries the failure marker. *)
Lemma Api_inspects_witness :
  let p := with_args ("api " +:+ "status") [] +:+ nl +:+ nl in
  (Connection_Write p waiting_con = (None, after_write p waiting_con)
   /\ apiResp (after_write p waiting_con) = [err_response])
  /\ Connection_Api "status" [] waiting_con
     = Ok ("", Some (fmt_Errorf "api %s %s: %s"
                       [arg_string "status"; arg_strings [];
                        arg_string (strings_TrimSpace (RawBody err_response))]))
          (set_apiResp [] (after_write p waiting_con)).
Proof.
  intros p.
  assert (H1 : Connection_Write p waiting_con = (None, after_write p waiting_con))
    by reflexivity.
  assert (H2 : apiResp (after_write p waiting_con) = [err_response]) by reflexivity.
  split; [exact (conj H1 H2)|].
  apply (proj1 (Api_inspects "status" [] _ _ _ _ H1 H2)).
  vm_compute. reflexivity.
Defined.

(** X4.  Once its request is written, [Command.Execute] returns whatever
    event it receives from the command queue, and no error. *)
Lemma Execute_returns_any_reply (cmd : Command.t) (con con1 : Connection)
    (ev : Event) (q : list Event) :
  Connection_Write (Command.Serialize cmd) con = (None, con1) ->
  cmdReply con1 = ev :: q ->
  Command.Execute cmd con = Ok (Some ev, None) (set_cmdReply q con1).
Proof. intros Hw Hq. unfold Command.Execute. now rewrite Hw, Hq. Qed.

(** [Command.Execute] on the same reply. *)
Lemma Execute_returns_any_reply_witness :
  (Connection_Write (Command.Serialize playback) waiting_con
   = (None, after_write (Command.Serialize playback) waiting_con)
   /\ cmdReply (after_write (Command.Serialize playback) waiting_con) = [err_reply])
  /\ Command.Execute playback waiting_con
     = Ok (Some err_reply, None)
          (set_cmdReply [] (after_write (Command.Serialize playback) waiting_con)).
Proof.
  assert (H1 : Connection_Write (Command.Serialize playback) waiting_con
               = (None, after_write (Command.Serialize playback) waiting_con))
    by reflexivity.
  assert (H2 : cmdReply (after_write (Command.Serialize playback) waiting_con) = [err_reply])
    by reflexivity.
  split; [exact (conj H1 H2)|].
  exact (Execute_returns_any_reply playback _ _ _ _ H1 H2).
Defined.

(** C4, the defect: the read loop decodes the reply below (its text starts
    with the failure marker and also holds "+OK", so the decoder accepts it)
    and hands it to the command queue.  [SendRecv] on that connection
    returns a failure; [Command.Execute] returns the event and no error. *)
Theorem Execute_ignores_failure_marker (rt : Runtime) :
  exists con ev,
    Connection_HandleEvents alone all_taken 2 0 (connected_on failed_reply_stream io_EOF)
    = Some (Ok None con) /\
    cmdReply con = [ev] /\
    Type_ ev = EventCommandReply /\
    strings_HasPrefix (Event_Get ev "Reply-Text") "-ERR" = true /\
    (exists err con', Connection_SendRecv "sendmsg" ["abc-123"] con = Ok (None, Some err) con') /\
    (exists con', Command.Execute playback con = Ok (Some ev, None) con').
Proof.
  pose (con0 := connected_on failed_reply_stream io_EOF).
  pose (ev := set_Type EventCommandReply (frame_of (reader con0))).
  exists (set_cmdReply [ev] (set_reader (reader_of "") con0)), ev.
  split; [vm_compute; reflexivity|].
  split; [reflexivity|].
  split; [reflexivity|].
  split; [vm_compute; reflexivity|].
  split; eexists; [eexists|]; vm_compute; reflexivity.
Qed.

(** ** Authentication (C5) *)

(** X5.  When the first frame is decoded and is not an authentication
    request, [Authenticate] closes the socket and returns an error; the
    connected flag is untouched. *)
Lemma Authenticate_wrong_preamble {rt : Runtime} (con : Connection) (e : Event) (r' : Reader) :
  NewEventFromReader (reader con) = Ok (Some e, None) r' ->
  Type_ e <> EventAuth ->
  exists err con',
    Connection_Authenticate con = Ok (Some err) con' /\
    sock_closed (socket con') = true /\
    Connected con' = Connected con.
Proof.
  intros Hdec Ht. unfold Connection_Authenticate. rewrite Hdec.
  assert (Hb : is_EventAuth (Type_ e) = false) by (destruct (Type_ e); try reflexivity; now destruct Ht).
  rewrite Hb. simpl. eauto.
Qed.

(** [Authenticate] on a peer that opens with a command reply. *)
Lemma Authenticate_wrong_preamble_witness :
  let con := dialled_on reply_first_stream io_EOF in
  let e := set_Type EventCommandReply (frame_of (reader con)) in
  (NewEventFromReader (reader con) = Ok (Some e, None) (after_frame (reader con))
   /\ Type_ e <> EventAuth)
  /\ exists err con',
       Connection_Authenticate con = Ok (Some err) con' /\
       sock_closed (socket con') = true /\
       Connected con' = Connected con.
Proof.
  intros con e.
  assert (H1 : NewEventFromReader (reader con) = Ok (Some e, None) (after_frame (reader con)))
    by (vm_compute; reflexivity).
  assert (H2 : Type_ e <> EventAuth) by discriminate.
  split; [exact (conj H1 H2)|].
  exact (Authenticate_wrong_preamble con e _ H1 H2).
Defined.

(** X6.  The handshake: an authentication request, the password written,
    a command reply.  [Authenticate] returns nil and sets the connected flag;
    the peer has received [auth <password>] and a blank line. *)
Lemma Authenticate_handshake {rt : Runtime} (con con1 : Connection) (e1 e2 : Event) (r1 r2 : Reader) :
  NewEventFromReader (reader con) = Ok (Some e1, None) r1 ->
  Type_ e1 = EventAuth ->
  Connection_Write ("auth " +:+ Password con +:+ nl +:+ nl) (set_reader r1 con)
  = (None, con1) ->
  NewEventFromReader (reader con1) = Ok (Some e2, None) r2 ->
  Type_ e2 = EventCommandReply ->
  Connection_Authenticate con = Ok None (set_Connected true (set_reader r2 con1)).
Proof.
  intros H1 T1 Hw H2 T2. unfold Connection_Authenticate.
  rewrite H1, T1. cbn [is_EventAuth negb]. cbn [Password set_reader] in *.
  rewrite Hw, H2, T2. reflexivity.
Qed.

(** The handshake on a well-behaved peer. *)
Lemma Authenticate_handshake_witness :
  let con := dialled_on ("Content-Type: auth/request" +:+ nl +:+ nl +:+
                         reply_first_stream) io_EOF in
  let e1 := set_Type EventAuth (frame_of (reader con)) in
  let r1 := after_frame (reader con) in
  let con1 := after_write ("auth " +:+ Password con +:+ nl +:+ nl) (set_reader r1 con) in
  let e2 := set_Type EventCommandReply (frame_of (reader con1)) in
  let r2 := after_frame (reader con1) in
  (NewEventFromReader (reader con) = Ok (Some e1, None) r1 /\
   Type_ e1 = EventAuth /\
   Connection_Write ("auth " +:+ Password con +:+ nl +:+ nl) (set_reader r1 con)
   = (None, con1) /\
   NewEventFromReader (reader con1) = Ok (Some e2, None) r2 /\
   Type_ e2 = EventCommandReply)
  /\ Connection_Authenticate con = Ok None (set_Connected true (set_reader r2 con1))
  /\ delivered (socket con1) = "auth ClueCon" +:+ nl +:+ nl.
Proof.
  intros con e1 r1 con1 e2 r2.
  assert (H1 : NewEventFromReader (reader con) = Ok (Some e1, None) r1)
    by (vm_compute; reflexivity).
  assert (T1 : Type_ e1 = EventAuth) by reflexivity.
  assert (Hw : Connection_Write ("auth " +:+ Password con +:+ nl +:+ nl) (set_reader r1 con)
               = (None, con1)) by reflexivity.
  assert (H2 : NewEventFromReader (reader con1) = Ok (Some e2, None) r2)
    by (vm_compute; reflexivity).
  assert (T2 : Type_ e2 = EventCommandReply) by reflexivity.
  split; [exact (conj H1 (conj T1 (conj Hw (conj H2 T2))))|].
  split; [exact (Authenticate_handshake con con1 e1 e2 r1 r2 H1 T1 Hw H2 T2)|].
  vm_compute. reflexivity.
Defined.

(** Whenever the decoder fails on the first frame and returns no event,
    [Authenticate] panics after closing the socket. *)
Lemma Authenticate_nil_event_panics {rt : Runtime} (con : Connection) (err : error) (r' : Reader) :
  NewEventFromReader (reader con) = Ok (None, Some err) r' ->
  Connection_Authenticate con
  = Panicked nil_dereference (close_socket (set_reader r' con)).
Proof. intros H. unfold Connection_Authenticate. now rewrite H. Qed.

(** C5, the defect: the peer closes the stream before sending anything.
    The decoder returns [io.EOF] and a nil event; [Authenticate] closes the
    socket and then reads [ev.Type] through the nil pointer: it panics and
    returns no error. *)
Theorem Authenticate_panics_on_decode_failure (rt : Runtime) :
  let con := dialled_on "" io_EOF in
  NewEventFromReader (reader con) = Ok (None, Some io_EOF) (reader con)
  /\ Connection_Authenticate con = Panicked nil_dereference (close_socket con)
  /\ sock_closed (socket (close_socket con)) = true.
Proof. split; [|split]; reflexivity. Qed.

(** ** Progress of the readers *)

Lemma cut_LF_length (s l rest : string) :
  cut_LF s = Some (l, rest) ->
  String.length s = (String.length l + 1 + String.length rest)%nat.
Proof.
  revert l. induction s as [|c s IH]; intros l H; simpl in H; [discriminate|].
  destruct (Ascii.eqb c LF).
  - injection H as <- <-. simpl. lia.
  - destruct (cut_LF s) as [[l' rest']|]; [|discriminate].
    injection H as <- <-. simpl. rewrite (IH l' eq_refl). lia.
Qed.

(** A line read consumes at least one byte; a failed read consumes none. *)
Lemma ReadLine_progress (r r' : Reader) (l : string) :
  ReadLine r = (inl l, r') -> (plen r' < plen r)%nat /\ closing r' = closing r.
Proof.
  unfold ReadLine. destruct (pending r) as [|c s] eqn:Hp; [discriminate|].
  destruct (cut_LF (String c s)) as [[l' rest]|] eqn:Hc; intros [= <- <-]; simpl.
  - apply cut_LF_length in Hc. simpl in Hc. split; [lia | reflexivity].
  - split; [lia | reflexivity].
Qed.

Lemma ReadLine_error (r r' : Reader) (e : error) :
  ReadLine r = (inr e, r') -> r' = r /\ pending r = "" /\ e = closing r.
Proof.
  unfold ReadLine. destruct (pending r) as [|c s] eqn:Hp.
  - intros [= <- <-]. auto.
  - destruct (cut_LF (String c s)) as [[l' rest]|]; discriminate.
Qed.

Lemma trim_left_length (s : string) : (String.length (trim_left s) <= String.length s)%nat.
Proof.
  induction s as [|c s IH]; simpl; [lia|]. destruct (is_blank c); simpl; lia.
Qed.

Lemma skipSpace_length (r r1 : Reader) (n : nat) :
  skipSpace r = (n, r1) -> (plen r1 + n = plen r)%nat /\ closing r1 = closing r.
Proof.
  unfold skipSpace. intros [= <- <-]. simpl.
  pose proof (trim_left_length (pending r)). split; [lia | reflexivity].
Qed.

Lemma continuation_length (fuel : nat) : forall (buf : string) (r r' : Reader) (buf' : string),
  continuation fuel buf r = (buf', r') -> (plen r' <= plen r)%nat /\ closing r' = closing r.
Proof.
  induction fuel as [|fuel IH]; intros buf r r' buf'; cbn [continuation].
  - intros [= <- <-]. split; [lia | reflexivity].
  - destruct (skipSpace r) as [n r1] eqn:Hs. apply skipSpace_length in Hs as [Hs Hc].
    destruct n as [|n]; [intros [= <- <-]; split; [lia | exact Hc]|].
    destruct (ReadLine r1) as [[line|e] r2] eqn:Hl.
    + apply ReadLine_progress in Hl as [Hl Hc2]. intros H. apply IH in H as [H Hc3].
      split; [lia | congruence].
    + apply ReadLine_error in Hl as (-> & _ & _). intros [= <- <-].
      split; [lia | exact Hc].
Qed.

Lemma readContinuedLineSlice_progress (r r1 : Reader) (kv : string) :
  readContinuedLineSlice r = (inl kv, r1) ->
  (plen r1 < plen r)%nat /\ closing r1 = closing r.
Proof.
  unfold readContinuedLineSlice.
  destruct (ReadLine r) as [[line|e] r0] eqn:Hl; [|discriminate].
  apply ReadLine_progress in Hl as [Hl Hc].
  destruct line as [|c line]; [intros [= <- <-]; auto|].
  destruct (cut_colon _); [|discriminate].
  destruct (continuation _ _ r0) as [buf r2] eqn:Hk.
  apply continuation_length in Hk as [Hk Hc2].
  intros [= <- <-]. split; [lia | congruence].
Qed.

Lemma readContinuedLineSlice_error (r r1 : Reader) (e : error) :
  readContinuedLineSlice r = (inr e, r1) ->
  (plen r1 <= plen r)%nat /\ closing r1 = closing r.
Proof.
  unfold readContinuedLineSlice.
  destruct (ReadLine r) as [[line|e0] r0] eqn:Hl.
  - apply ReadLine_progress in Hl as [Hl Hc].
    destruct line as [|c line]; [discriminate|].
    destruct (cut_colon _).
    + destruct (continuation _ _ r0) as [buf r2]. discriminate.
    + intros [= <- <-]. split; [lia | exact Hc].
  - apply ReadLine_error in Hl as (-> & _ & _). intros [= <- <-]. split; [lia | reflexivity].
Qed.

(** A header block read without error took at least its blank line from
    the stream. *)
Lemma readMIMEHeader_loop_progress (fuel : nat) : forall (m m' : MIMEHeader) (r r' : Reader),
  readMIMEHeader_loop fuel m r = (m', None, r') -> (plen r' < plen r)%nat.
Proof.
  induction fuel as [|fuel IH]; intros m m' r r'; cbn [readMIMEHeader_loop];
    destruct (readContinuedLineSlice r) as [[kv|e] r1] eqn:Hr; try discriminate;
    apply readContinuedLineSlice_progress in Hr as [Hr _];
    (destruct kv as [|c kv]; [intros [= <- <-]; exact Hr|]);
    (destruct (cut_colon _) as [[k v]|]; [|discriminate]);
    (destruct (canonicalMIMEHeaderKey k) as [key|]; [|discriminate]);
    (destruct (negb (all_bytes validHeaderValueByte v)); [discriminate|]).
  - discriminate.
  - destruct key; intros H; apply IH in H; lia.
Qed.

Lemma ReadMIMEHeader_progress (r r' : Reader) (m : MIMEHeader) :
  ReadMIMEHeader r = (m, None, r') -> (plen r' < plen r)%nat.
Proof.
  unfold ReadMIMEHeader. destruct (pending r) as [|c s] eqn:Hp.
  - intros H. apply readMIMEHeader_loop_progress in H. rewrite Hp in H. simpl in H. lia.
  - destruct (is_blank c).
    + destruct (ReadLine r) as [[line|e] r1]; discriminate.
    + intros H. apply readMIMEHeader_loop_progress in H. now rewrite Hp in H.
Qed.

(** More fuel than pending bytes changes nothing: the bound of the loops is
    never the reason a header read stops. *)
Lemma continuation_fuel (f1 : nat) : forall (f2 : nat) (buf : string) (r : Reader),
  (plen r <= f1)%nat -> (plen r <= f2)%nat ->
  continuation f1 buf r = continuation f2 buf r.
Proof.
  induction f1 as [|f1 IH]; intros f2 buf r H1 H2.
  - destruct f2 as [|f2]; [reflexivity|]. cbn [continuation].
    unfold skipSpace. destruct (pending r) eqn:Hp; [|simpl in H1; lia].
    simpl. unfold advance. destruct r. simpl in *. now subst.
  - destruct f2 as [|f2].
    + cbn [continuation]. unfold skipSpace. destruct (pending r) eqn:Hp; [|simpl in H2; lia].
      simpl. unfold advance. destruct r. simpl in *. now subst.
    + cbn [continuation]. destruct (skipSpace r) as [n r1] eqn:Hs.
      apply skipSpace_length in Hs as [Hs _].
      destruct n as [|n]; [reflexivity|].
      destruct (ReadLine r1) as [[line|e] r2] eqn:Hl; [|reflexivity].
      apply ReadLine_progress in Hl as [Hl _]. apply IH; lia.
Qed.

Lemma readMIMEHeader_loop_fuel (f1 : nat) : forall (f2 : nat) (m : MIMEHeader) (r : Reader),
  (plen r <= f1)%nat -> (plen r <= f2)%nat ->
  readMIMEHeader_loop f1 m r = readMIMEHeader_loop f2 m r.
Proof.
  induction f1 as [|f1 IH]; intros f2 m r H1 H2.
  - destruct f2 as [|f2]; [reflexivity|]. cbn [readMIMEHeader_loop].
    destruct (readContinuedLineSlice r) as [[kv|e] r1] eqn:Hr; [|reflexivity].
    apply readContinuedLineSlice_progress in Hr as [Hr _]. lia.
  - destruct f2 as [|f2]; cbn [readMIMEHeader_loop];
      destruct (readContinuedLineSlice r) as [[kv|e] r1] eqn:Hr; try reflexivity;
      apply readContinuedLineSlice_progress in Hr as [Hr _]; [lia|].
    destruct kv as [|c kv]; [reflexivity|].
    destruct (cut_colon _) as [[k v]|]; [|reflexivity].
    destruct (canonicalMIMEHeaderKey k) as [key|]; [|reflexivity].
    destruct (negb (all_bytes validHeaderValueByte v)); [reflexivity|].
    destruct key; apply IH; lia.
Qed.

Lemma io_ReadFull_length (n : nat) (r r' : Reader) (x : string + error) :
  io_ReadFull n r = (x, r') -> (plen r' <= plen r)%nat.
Proof.
  unfold io_ReadFull. destruct (n <=? plen r)%nat eqn:E; intros [= <- <-]; simpl; [|lia].
  apply Nat.leb_le in E. unfold drop. rewrite length_substring; lia.
Qed.

(** A frame read without error took at least one byte from the stream. *)
Lemma read_frame_progress {rt : Runtime} (r r' : Reader) (e : Event) :
  read_frame r = Ok (inl e) r' -> (plen r' < plen r)%nat.
Proof.
  unfold read_frame. destruct (ReadMIMEHeader r) as [[m err] r1] eqn:Hh.
  destruct err as [err|]; [destruct err; discriminate|].
  apply ReadMIMEHeader_progress in Hh.
  destruct (String.eqb _ ""); [intros [= <- <-]; exact Hh|].
  destruct (strconv_Atoi _) as [len [err|]]; [discriminate|].
  destruct ((len <? 0) || (maxAlloc <? len)); [discriminate|].
  destruct (negb (can_allocate len)); [discriminate|].
  destruct (io_ReadFull _ r1) as [[raw|err] r2] eqn:Hb; [|discriminate].
  apply io_ReadFull_length in Hb. intros [= <- <-]. lia.
Qed.

Lemma NewEventFromReader_progress {rt : Runtime} (r r' : Reader) (ev : Event) (err : option error) :
  NewEventFromReader r = Ok (Some ev, err) r' -> (plen r' < plen r)%nat.
Proof.
  unfold NewEventFromReader. destruct (read_frame r) as [[e|e] r0|msg r0|r0] eqn:Hf;
    try discriminate.
  intros [= _ <-]. now apply read_frame_progress in Hf.
Qed.

(** X7.  A call of the decoder that returns an event has taken at least
    one byte from the stream. *)
Theorem decoder_consumes_input {rt : Runtime} (r r' : Reader) (ev : Event) (err : option error) :
  NewEventFromReader r = Ok (Some ev, err) r' ->
  (String.length (pending r') < String.length (pending r))%nat.
Proof. apply NewEventFromReader_progress. Qed.

(** The decoder on the sample api response: the header block and the four
    bytes of body have left the stream. *)
Lemma decoder_consumes_input_witness :
  NewEventFromReader api_frame
  = Ok (Some (set_Type EventApiResponse (frame_of api_frame)), None) (after_frame api_frame)
  /\ (String.length (pending (after_frame api_frame))
      < String.length (pending api_frame))%nat.
Proof.
  assert (H : NewEventFromReader api_frame
              = Ok (Some (set_Type EventApiResponse (frame_of api_frame)), None)
                   (after_frame api_frame)) by (vm_compute; reflexivity).
  split; [exact H|].
  exact (decoder_consumes_input _ _ _ _ H).
Defined.

(** ** The read loop returns on every stream that ends *)

Section LoopTermination.

Context {Handler : ConnectionHandler} {rt : Runtime}.
Variable others : nat -> Connection -> Connection.
Variable taken : nat -> bool.

(** Only the read loop reads the socket: neither the other goroutines nor
    the disconnect hook put bytes back into the reader. *)
Hypothesis others_reader : forall i con,
  (plen (reader (others i con)) <= plen (reader con))%nat.
Hypothesis OnDisconnect_reader : forall con ev,
  (plen (reader (OnDisconnect con ev)) <= plen (reader con))%nat.

(** Every event the loop sends on a channel is received. *)
Hypothesis every_send_taken : forall i, taken i = true.

Lemma dispatch_reader (i : nat) (ev : Event) (con con' : Connection) :
  dispatch taken i ev con = Continue con' -> (plen (reader con') <= plen (reader con))%nat.
Proof.
  unfold dispatch. destruct (Type_ ev); try destruct (taken i);
    try discriminate; intros [= <-]; cbn [reader set_cmdReply set_apiResp set_spawned];
    try apply OnDisconnect_reader; lia.
Qed.

(** X1.  On a stream that ends, with a receiver for every event the loop
    sends, [HandleEvents] comes to an end: one round per pending byte, and
    one more, are enough for the loop to return, or to end by a panic of
    the decoder; it is never left parked and never runs out of rounds. *)
Theorem HandleEvents_returns (fuel : nat) : forall (i : nat) (con : Connection),
  (plen (reader con) < fuel)%nat ->
  exists con',
    (exists v, Connection_HandleEvents others taken fuel i con = Some (Ok v con')) \/
    (exists msg, Connection_HandleEvents others taken fuel i con = Some (Panicked msg con')).
Proof.
  induction fuel as [|fuel IH]; intros i con Hlen; [lia|].
  cbn [Connection_HandleEvents].
  destruct (negb (Connected con)); [eauto|].
  destruct (NewEventFromReader (reader con)) as [[ev err] r'|msg r'|r'] eqn:Hdec;
    [|eauto|now apply NewEventFromReader_not_Blocked in Hdec].
  destruct err as [err|]; [destruct (is_EOF err || _); eauto|].
  destruct ev as [ev|]; [|eauto].
  apply NewEventFromReader_progress in Hdec.
  destruct (dispatch taken i ev _) as [e|con'|con'] eqn:Hd; [eauto| |].
  - apply IH. apply dispatch_reader in Hd.
    pose proof (others_reader i (set_reader r' con)) as Ho. simpl in Ho. lia.
  - unfold dispatch in Hd. rewrite every_send_taken in Hd.
    destruct (Type_ ev); discriminate Hd.
Qed.

End LoopTermination.

(** The loop on the sample stream of one response and one malformed line,
    with a silent handler, a receiver for the response and no other
    goroutine at work. *)
Lemma HandleEvents_returns_witness :
  let con := connected_on ("Content-Type: api/response" +:+ nl +:+ nl +:+
                           "garbage" +:+ nl) io_EOF in
  exists con',
    (exists v, Connection_HandleEvents alone all_taken 38 0 con = Some (Ok v con')) \/
    (exists msg, Connection_HandleEvents alone all_taken 38 0 con = Some (Panicked msg con')).
Proof.
  intros con.
  apply (HandleEvents_returns alone all_taken).
  - intros i c. unfold alone. lia.
  - intros c ev. simpl. lia.
  - intros i. reflexivity.
  - vm_compute. lia.
Defined.

Lemma all_bytes_mem (p : ascii -> bool) (c : ascii) (s : string) :
  all_bytes p s = true -> p c = false -> mem_byte c s = false.
Proof.
  intros Hs Hc. induction s as [|d s IH]; [reflexivity|].
  cbn [all_bytes] in Hs. apply andb_true_iff in Hs as [Hd Hs].
  cbn [mem_byte]. rewrite (IH Hs), orb_false_r.
  destruct (Ascii.eqb_spec c d) as [->|]; [congruence | reflexivity].
Qed.

Lemma all_bytes_append (p : ascii -> bool) (s t : string) :
  all_bytes p (s +:+ t) = all_bytes p s && all_bytes p t.
Proof.
  induction s as [|c s IH]; [reflexivity|].
  rewrite append_cons. cbn [all_bytes]. now rewrite IH, andb_assoc.
Qed.

Lemma all_bytes_impl (p q : ascii -> bool) (s : string) :
  (forall c, p c = true -> q c = true) -> all_bytes p s = true -> all_bytes q s = true.
Proof.
  intros Hpq. induction s as [|c s IH]; [reflexivity|].
  cbn [all_bytes]. rewrite !andb_true_iff. intros [Hc Hs]. auto.
Qed.

Lemma cut_LF_append (l rest : string) :
  mem_byte LF l = false -> cut_LF (l +:+ nl +:+ rest) = Some (l, rest).
Proof.
  induction l as [|c l IH]; intros H; [reflexivity|].
  cbn [mem_byte] in H. apply orb_false_iff in H as [Hc Hl].
  rewrite append_cons. cbn [cut_LF]. rewrite Ascii.eqb_sym, Hc. now rewrite (IH Hl).
Qed.

Lemma cut_colon_append (k w : string) :
  mem_byte ":" k = false -> cut_colon (k +:+ String ":" w) = Some (k, w).
Proof.
  induction k as [|c k IH]; intros H; [reflexivity|].
  cbn [mem_byte] in H. apply orb_false_iff in H as [Hc Hk].
  rewrite append_cons. cbn [cut_colon]. rewrite Ascii.eqb_sym, Hc. now rewrite (IH Hk).
Qed.

Lemma substring_one_mem (s : string) : forall (i : nat) (c : ascii),
  String.substring i 1 s = String c "" -> mem_byte c s = true.
Proof.
  induction s as [|d s IH]; intros [|i] c H; simpl in H; try discriminate.
  - destruct s; injection H as ->; cbn [mem_byte]; now rewrite Ascii.eqb_refl.
  - cbn [mem_byte]. rewrite (IH i c H). apply orb_true_r.
Qed.

Lemma drop_CR_id (l : string) : mem_byte CR l = false -> drop_CR l = l.
Proof.
  intros H. unfold drop_CR, strings_HasSuffix.
  destruct (_ <=? _)%nat; [|reflexivity]. cbn [andb].
  destruct (String.eqb_spec (String.substring (String.length l - String.length (String CR "")) (String.length (String CR "")) l) (String CR "")) as [E|]; [|reflexivity].
  apply substring_one_mem in E. congruence.
Qed.

Lemma trim_right_nonblank (s w : string) (c : ascii) :
  is_blank c = false -> trim_right (s +:+ String c w) = s +:+ String c (trim_right w).
Proof.
  intros Hc.
  assert (H0 : trim_right (String c w) = String c (trim_right w)).
  { cbn [trim_right]. destruct (trim_right w); [now rewrite Hc | reflexivity]. }
  induction s as [|d s IH]; [exact H0|].
  rewrite !append_cons. cbn [trim_right]. rewrite IH.
  destruct s; reflexivity.
Qed.

Lemma trim_left_right (v : string) : trim_left (trim_right v) = trim v.
Proof.
  unfold trim. induction v as [|c v IH]; [reflexivity|].
  cbn [trim_left trim_right].
  destruct (is_blank c) eqn:Hc.
  - rewrite <- IH. destruct (trim_right v) as [|d t]; [reflexivity|].
    cbn [trim_left]. now rewrite Hc.
  - cbn [trim_right]. destruct (trim_right v) as [|d t]; cbn [trim_left]; now rewrite Hc.
Qed.

Lemma all_bytes_trim_right (p : ascii -> bool) (s : string) :
  all_bytes p s = true -> all_bytes p (trim_right s) = true.
Proof.
  induction s as [|c s IH]; [reflexivity|].
  cbn [all_bytes trim_right]. rewrite andb_true_iff. intros [Hc Hs].
  specialize (IH Hs). destruct (trim_right s) as [|d t].
  - destruct (is_blank c); [reflexivity|]. cbn [all_bytes]. now rewrite Hc.
  - cbn [all_bytes] in *. now rewrite Hc, IH.
Qed.

Lemma advance_pending (r : Reader) : advance (pending r) r = r.
Proof. now destruct r. Qed.

(** No continuation when the next byte is neither a space nor a tab. *)
Lemma continuation_none (fuel : nat) (buf : string) (r : Reader) :
  trim_left (pending r) = pending r -> continuation fuel buf r = (buf, r).
Proof.
  intros H. destruct fuel as [|fuel]; [reflexivity|].
  cbn [continuation]. unfold skipSpace. rewrite H, Nat.sub_diag, advance_pending. reflexivity.
Qed.

Lemma field_byte_facts (k : string) :
  all_bytes validHeaderFieldByte k = true ->
  mem_byte LF k = false /\ mem_byte CR k = false /\ mem_byte ":" k = false /\
  mem_byte SP k = false /\ mem_byte HT k = false.
Proof. intros H. repeat split; now apply (all_bytes_mem _ _ _ H). Qed.

Lemma value_byte_facts (v : string) :
  all_bytes validHeaderValueByte v = true -> mem_byte LF v = false /\ mem_byte CR v = false.
Proof. intros H. repeat split; now apply (all_bytes_mem _ _ _ H). Qed.

Lemma canonicalMIMEHeaderKey_token (k : string) :
  all_bytes validHeaderFieldByte k = true ->
  canonicalMIMEHeaderKey k = Some (canonicalize true k).
Proof.
  intros H. unfold canonicalMIMEHeaderKey. rewrite H.
  rewrite (all_bytes_impl validHeaderFieldByte _ k); [reflexivity | | exact H].
  intros c ->. reflexivity.
Qed.

(** One well-formed header line, followed by a byte that starts no
    continuation, is read as [name:] and the value without trailing
    blanks. *)
Lemma readContinuedLineSlice_field (k v rest : string) (c : error) :
  well_formed_field (k, v) = true ->
  trim_left rest = rest ->
  readContinuedLineSlice (mkReader (header_line (k, v) +:+ rest) c)
  = (inl (k +:+ String ":" (trim_right (String SP v))), mkReader rest c).
Proof.
  unfold well_formed_field. cbn [fst snd]. rewrite !andb_true_iff, negb_true_iff.
  intros [[Hne Hk] Hv] Hrest.
  destruct (field_byte_facts k Hk) as (HkLF & HkCR & Hkcol & HkSP & HkHT).
  destruct (value_byte_facts v Hv) as (HvLF & HvCR).
  set (line := k +:+ String ":" (String SP v)).
  assert (Hline : header_line (k, v) +:+ rest = line +:+ nl +:+ rest).
  { unfold header_line, line. cbn [fst snd]. now rewrite !append_assoc. }
  assert (HlLF : mem_byte LF line = false).
  { unfold line. rewrite mem_byte_append. cbn [mem_byte]. now rewrite HkLF, HvLF. }
  assert (HlCR : mem_byte CR line = false).
  { unfold line. rewrite mem_byte_append. cbn [mem_byte]. now rewrite HkCR, HvCR. }
  assert (Hb0 : trim_left line = line).
  { unfold line. destruct k as [|k0 k]; [discriminate|].
    cbn [mem_byte] in HkSP, HkHT. apply orb_false_iff in HkSP as [H1 _].
    apply orb_false_iff in HkHT as [H2 _].
    rewrite append_cons. cbn [trim_left]. unfold is_blank.
    now rewrite Ascii.eqb_sym, H1, Ascii.eqb_sym, H2. }
  assert (Htrim : trim line = k +:+ String ":" (trim_right (String SP v))).
  { unfold trim. rewrite Hb0. unfold line. now rewrite trim_right_nonblank. }
  assert (Hcut : cut_colon line = Some (k, String SP v))
    by (apply cut_colon_append; exact Hkcol).
  unfold readContinuedLineSlice, ReadLine. cbn [pending]. rewrite Hline.
  rewrite (cut_LF_append _ _ HlLF), (drop_CR_id _ HlCR).
  destruct (line +:+ nl +:+ rest) eqn:E0.
  { destruct line; discriminate. }
  rewrite Hcut, Htrim.
  destruct line as [|c0 l0] eqn:El; [discriminate|].
  unfold advance. cbn [pending closing].
  now rewrite continuation_none by exact Hrest.
Qed.

Lemma trim_left_id_first (c : ascii) (s : string) :
  trim_left (String c s) = String c s -> is_blank c = false.
Proof.
  cbn [trim_left]. destruct (is_blank c); [|reflexivity].
  intros H. pose proof (trim_left_length s) as Hl. rewrite H in Hl. simpl in Hl. lia.
Qed.

Lemma token_starts_nonblank (k s : string) :
  k <> "" -> all_bytes validHeaderFieldByte k = true -> trim_left (k +:+ s) = k +:+ s.
Proof.
  intros Hne Hk. destruct k as [|k0 k]; [now destruct Hne|].
  rewrite append_cons. cbn [trim_left].
  cbn [all_bytes] in Hk. apply andb_true_iff in Hk as [H0 _].
  replace (is_blank k0) with false; [reflexivity|].
  unfold is_blank. destruct (Ascii.eqb_spec k0 SP) as [->|]; [discriminate H0|].
  destruct (Ascii.eqb_spec k0 HT) as [->|]; [discriminate H0 | reflexivity].
Qed.

(** A block of well-formed header lines closed by a blank line starts
    with a byte that is neither a space nor a tab. *)
Lemma block_starts_nonblank (l : list (string * string)) (rest : string) :
  forallb well_formed_field l = true ->
  trim_left (header_lines l +:+ nl +:+ rest) = header_lines l +:+ nl +:+ rest.
Proof.
  destruct l as [|[k v] l]; [reflexivity|].
  cbn [forallb header_lines]. unfold well_formed_field at 1, header_line. cbn [fst snd].
  rewrite !andb_true_iff, negb_true_iff. intros [[[Hne Hk] _] _].
  rewrite !append_assoc. apply token_starts_nonblank; [|exact Hk].
  intros ->. discriminate.
Qed.

Lemma canonicalize_nonempty (k : string) : k <> "" -> canonicalize true k <> "".
Proof. destruct k; [congruence | discriminate]. Qed.

Lemma readMIMEHeader_loop_fields (l : list (string * string)) :
  forall (m : MIMEHeader) (fuel : nat) (rest : string) (c : error),
  forallb well_formed_field l = true ->
  (length l <= fuel)%nat ->
  readMIMEHeader_loop fuel m (mkReader (header_lines l +:+ nl +:+ rest) c)
  = (parsed_fields l m, None, mkReader rest c).
Proof.
  induction l as [|[k v] l IH]; intros m fuel rest c Hwf Hfuel.
  - assert (H : readContinuedLineSlice (mkReader (nl +:+ rest) c) = (inl "", mkReader rest c))
      by reflexivity.
    cbn [header_lines]. rewrite append_nil_l.
    destruct fuel; cbn [readMIMEHeader_loop]; rewrite H; reflexivity.
  - cbn [forallb] in Hwf. apply andb_true_iff in Hwf as [Hkv Hl].
    cbn [header_lines length] in *. destruct fuel as [|fuel]; [lia|].
    rewrite append_assoc.
    cbn [readMIMEHeader_loop].
    rewrite (readContinuedLineSlice_field k v _ c Hkv (block_starts_nonblank l rest Hl)).
    unfold well_formed_field in Hkv. cbn [fst snd] in Hkv.
    rewrite !andb_true_iff, negb_true_iff in Hkv. destruct Hkv as [[Hne Hk] Hv].
    apply String.eqb_neq in Hne.
    destruct (field_byte_facts k Hk) as (_ & _ & Hkcol & _ & _).
    rewrite (cut_colon_append _ _ Hkcol), (canonicalMIMEHeaderKey_token k Hk).
    assert (Hv' : all_bytes validHeaderValueByte (trim_right (String SP v)) = true).
    { apply all_bytes_trim_right. cbn [all_bytes]. now rewrite Hv. }
    rewrite Hv'. cbn [negb].
    assert (Hval : trim_left (trim_right (String SP v)) = trim v) by now rewrite trim_left_right.
    rewrite Hval.
    destruct k as [|k0 k]; [now destruct Hne|].
    rewrite append_cons.
    pose proof (canonicalize_nonempty (String k0 k) Hne) as Hc.
    destruct (canonicalize true (String k0 k)) as [|c0 key] eqn:Ek; [now destruct Hc|].
    rewrite <- Ek. cbn [parsed_fields fold_left fst snd].
    change (fold_left _ l ?m0) with (parsed_fields l m0).
    rewrite Ek at 1. cbv iota. rewrite <- Ek.
    apply IH; [exact Hl | lia].
Qed.

Lemma header_lines_length (l : list (string * string)) :
  (length l <= String.length (header_lines l))%nat.
Proof.
  induction l as [|kv l IH]; [reflexivity|].
  cbn [header_lines length]. unfold header_line. rewrite !length_append. simpl. lia.
Qed.

(** A block of well-formed header lines followed by a blank line is read
    back as the fields it was written from, names made canonical and
    values trimmed, and the reader is left right after the blank line. *)
Lemma ReadMIMEHeader_fields (l : list (string * string)) (rest : string) (c : error) :
  forallb well_formed_field l = true ->
  ReadMIMEHeader (mkReader (header_lines l +:+ nl +:+ rest) c)
  = (parsed_fields l ∅, None, mkReader rest c).
Proof.
  intros Hwf. pose proof (block_starts_nonblank l rest Hwf) as Hb.
  unfold ReadMIMEHeader. cbn [pending].
  destruct (header_lines l +:+ nl +:+ rest) as [|c0 s] eqn:E.
  { destruct (header_lines l); discriminate. }
  rewrite (trim_left_id_first _ _ Hb). rewrite <- E.
  apply readMIMEHeader_loop_fields; [exact Hwf|].
  rewrite length_append. pose proof (header_lines_length l). lia.
Qed.

Lemma Serialize_block (cmd : Command.t) :
  Command.Serialize cmd
  = "sendmsg " +:+ Command.UId cmd +:+ nl +:+
    (header_lines (Serialize_fields cmd) +:+ nl +:+ nl).
Proof.
  unfold Command.Serialize, Serialize_fields, header_lines, header_line. cbn [fst snd].
  rewrite append_nil_l, append_nil_r, !append_assoc.
  destruct (Command.Sync cmd); reflexivity.
Qed.

Lemma lookup_append_other (m : MIMEHeader) (k key value : string) :
  k <> key -> MIMEHeader_append m key value !! k = m !! k.
Proof. intros H. unfold MIMEHeader_append. now rewrite lookup_insert_ne. Qed.

Lemma lookup_append_same (m : MIMEHeader) (key value : string) :
  MIMEHeader_append m key value !! key = Some (default [] (m !! key) ++ [value])%list.
Proof. unfold MIMEHeader_append. now rewrite lookup_insert_eq. Qed.

(** X15.  What [Serialize] writes is read back by a peer that takes the request
    line and then a header block: the line is [sendmsg] and the call-leg
    id, the block holds the action, the application, its argument and the
    lock flag under their canonical names, with the blanks around a value
    stripped -- and one line feed is left over on the stream. *)
Theorem Serialize_read_back (cmd : Command.t) (rest : string) (c : error) :
  mem_byte LF (Command.UId cmd) = false ->
  mem_byte CR (Command.UId cmd) = false ->
  all_bytes validHeaderValueByte (Command.App cmd) = true ->
  all_bytes validHeaderValueByte (Command.Args cmd) = true ->
  exists r1 m,
    ReadLine (mkReader (Command.Serialize cmd +:+ rest) c)
    = (inl ("sendmsg " +:+ Command.UId cmd), r1) /\
    ReadMIMEHeader r1 = (m, None, mkReader (nl +:+ rest) c) /\
    m !! "Call-Command" = Some ["execute"] /\
    m !! "Execute-App-Name" = Some [trim (Command.App cmd)] /\
    m !! "Execute-App-Arg" = Some [trim (Command.Args cmd)] /\
    m !! "Event-Lock" = Some [if Command.Sync cmd then "true" else "false"] /\
    forall k, m !! k <> None ->
      In k ["Call-Command"; "Execute-App-Name"; "Execute-App-Arg"; "Event-Lock"].
Proof.
  intros HuLF HuCR HApp Hargs.
  set (line := "sendmsg " +:+ Command.UId cmd).
  set (block := header_lines (Serialize_fields cmd) +:+ nl +:+ (nl +:+ rest)).
  assert (Hs : Command.Serialize cmd +:+ rest = line +:+ nl +:+ block).
  { rewrite Serialize_block. unfold line, block. now rewrite !append_assoc. }
  assert (Hl1 : mem_byte LF line = false)
    by (unfold line; rewrite mem_byte_append, HuLF; reflexivity).
  assert (Hl2 : mem_byte CR line = false)
    by (unfold line; rewrite mem_byte_append, HuCR; reflexivity).
  exists (mkReader block c), (parsed_fields (Serialize_fields cmd) ∅).
  split; [|split].
  - unfold ReadLine. cbn [pending]. rewrite Hs.
    rewrite (cut_LF_append _ _ Hl1), (drop_CR_id _ Hl2).
    unfold line at 1. reflexivity.
  - apply ReadMIMEHeader_fields. unfold Serialize_fields, well_formed_field. cbn [forallb fst snd].
    rewrite HApp, Hargs. now destruct (Command.Sync cmd).
  - unfold parsed_fields, Serialize_fields. cbn [fold_left fst snd].
    change (canonicalize true "call-command") with "Call-Command".
    change (canonicalize true "execute-app-name") with "Execute-App-Name".
    change (canonicalize true "execute-app-arg") with "Execute-App-Arg".
    change (canonicalize true "event-lock") with "Event-Lock".
    change (trim "execute") with "execute".
    replace (trim (if Command.Sync cmd then "true" else "false"))
      with (if Command.Sync cmd then "true" else "false")
      by (now destruct (Command.Sync cmd)).
    split; [|split; [|split; [|split]]].
    + rewrite !lookup_append_other by discriminate.
      now rewrite lookup_append_same, lookup_empty.
    + rewrite !lookup_append_other by discriminate.
      rewrite lookup_append_same, lookup_append_other by discriminate.
      now rewrite lookup_empty.
    + rewrite !lookup_append_other by discriminate.
      rewrite lookup_append_same, !lookup_append_other by discriminate.
      now rewrite lookup_empty.
    + rewrite lookup_append_same, !lookup_append_other by discriminate.
      now rewrite lookup_empty.
    + intros k Hk. cbn [In].
      destruct (decide (k = "Event-Lock")) as [->|H4]; [auto|].
      destruct (decide (k = "Execute-App-Arg")) as [->|H3]; [auto|].
      destruct (decide (k = "Execute-App-Name")) as [->|H2]; [auto|].
      destruct (decide (k = "Call-Command")) as [->|H1]; [auto|].
      rewrite !lookup_append_other, lookup_empty in Hk by assumption. now destruct Hk.
Qed.

Lemma Serialize_read_back_witness :
  exists r1 m,
    ReadLine (mkReader (Command.Serialize playback +:+ "") io_EOF)
    = (inl ("sendmsg " +:+ Command.UId playback), r1) /\
    ReadMIMEHeader r1 = (m, None, mkReader (nl +:+ "") io_EOF) /\
    m !! "Execute-App-Name" = Some ["playback"] /\
    m !! "Execute-App-Arg" = Some ["local_stream://moh"].
Proof.
  destruct (Serialize_read_back playback "" io_EOF) as (r1 & m & H1 & H2 & _ & H4 & H5 & _);
    try reflexivity.
  exists r1, m. split; [exact H1|]. split; [exact H2|]. split; [exact H4 | exact H5].
Defined.






Lemma reads_on_refl (r : Reader) : reads_on r r.
Proof. split; [reflexivity|]. now exists "". Qed.

Lemma reads_on_trans (r1 r2 r3 : Reader) : reads_on r1 r2 -> reads_on r2 r3 -> reads_on r1 r3.
Proof.
  intros [Hc1 [t1 H1]] [Hc2 [t2 H2]]. split; [congruence|].
  exists (t1 +:+ t2). now rewrite H1, H2, append_assoc.
Qed.

Lemma reads_on_advance (r : Reader) (taken rest : string) :
  pending r = taken +:+ rest -> reads_on r (advance rest r).
Proof. intros H. split; [reflexivity|]. now exists taken. Qed.

Lemma cut_LF_split (s l rest : string) :
  cut_LF s = Some (l, rest) -> s = l +:+ nl +:+ rest.
Proof.
  revert l. induction s as [|c s IH]; intros l H; simpl in H; [discriminate|].
  destruct (Ascii.eqb_spec c LF) as [->|].
  - now injection H as <- <-.
  - destruct (cut_LF s) as [[l' rest']|]; [|discriminate].
    injection H as <- <-. rewrite append_cons. f_equal. now apply IH.
Qed.

Lemma ReadLine_reads_on (r r' : Reader) (x : string + error) :
  ReadLine r = (x, r') -> reads_on r r'.
Proof.
  unfold ReadLine. destruct (pending r) as [|c s] eqn:Hp.
  - intros [= _ <-]. apply reads_on_refl.
  - destruct (cut_LF (String c s)) as [[l rest]|] eqn:Hc; intros [= _ <-].
    + apply cut_LF_split in Hc. apply (reads_on_advance r (l +:+ nl)).
      now rewrite Hp, Hc, append_assoc.
    + apply (reads_on_advance r (String c s)). now rewrite Hp, append_nil_r.
Qed.

Lemma trim_left_split (s : string) : exists blanks, s = blanks +:+ trim_left s.
Proof.
  induction s as [|c s [b IH]]; [now exists ""|].
  cbn [trim_left]. destruct (is_blank c); [|now exists ""].
  exists (String c b). now rewrite append_cons, <- IH.
Qed.

Lemma skipSpace_reads_on (r r1 : Reader) (n : nat) : skipSpace r = (n, r1) -> reads_on r r1.
Proof.
  unfold skipSpace. intros [= _ <-]. destruct (trim_left_split (pending r)) as [b Hb].
  now apply (reads_on_advance r b).
Qed.

Lemma continuation_reads_on (fuel : nat) : forall (buf buf' : string) (r r' : Reader),
  continuation fuel buf r = (buf', r') -> reads_on r r'.
Proof.
  induction fuel as [|fuel IH]; intros buf buf' r r'; cbn [continuation].
  - intros [= _ <-]. apply reads_on_refl.
  - destruct (skipSpace r) as [n r1] eqn:Hs. apply skipSpace_reads_on in Hs.
    destruct n as [|n]; [now intros [= _ <-]|].
    destruct (ReadLine r1) as [[line|e] r2] eqn:Hl; apply ReadLine_reads_on in Hl.
    + intros H. apply IH in H. eauto using reads_on_trans.
    + intros [= _ <-]. eauto using reads_on_trans.
Qed.

Lemma readContinuedLineSlice_reads_on (r r' : Reader) (x : string + error) :
  readContinuedLineSlice r = (x, r') -> reads_on r r'.
Proof.
  unfold readContinuedLineSlice.
  destruct (ReadLine r) as [[line|e] r0] eqn:Hl; apply ReadLine_reads_on in Hl;
    [|now intros [= _ <-]].
  destruct line as [|c line]; [now intros [= _ <-]|].
  destruct (cut_colon _); [|now intros [= _ <-]].
  destruct (continuation _ _ r0) as [buf r2] eqn:Hk. apply continuation_reads_on in Hk.
  intros [= _ <-]. eauto using reads_on_trans.
Qed.

Lemma readMIMEHeader_loop_reads_on (fuel : nat) :
  forall (m m' : MIMEHeader) (r r' : Reader) (err : option error),
  readMIMEHeader_loop fuel m r = (m', err, r') -> reads_on r r'.
Proof.
  induction fuel as [|fuel IH]; intros m m' r r' err; cbn [readMIMEHeader_loop];
    destruct (readContinuedLineSlice r) as [[kv|e] r1] eqn:Hr;
    apply readContinuedLineSlice_reads_on in Hr;
    try (now intros [= _ _ <-]);
    (destruct kv as [|c kv]; [now intros [= _ _ <-]|]);
    (destruct (cut_colon _) as [[k v]|]; [|now intros [= _ _ <-]]);
    (destruct (canonicalMIMEHeaderKey k) as [key|]; [|now intros [= _ _ <-]]);
    (destruct (negb (all_bytes validHeaderValueByte v)); [now intros [= _ _ <-]|]).
  - now intros [= _ _ <-].
  - destruct key; intros H; apply IH in H; eauto using reads_on_trans.
Qed.

Lemma ReadMIMEHeader_reads_on (r r' : Reader) (m : MIMEHeader) (err : option error) :
  ReadMIMEHeader r = (m, err, r') -> reads_on r r'.
Proof.
  unfold ReadMIMEHeader. destruct (pending r) as [|c s].
  - apply readMIMEHeader_loop_reads_on.
  - destruct (is_blank c); [|apply readMIMEHeader_loop_reads_on].
    destruct (ReadLine r) as [[line|e] r1] eqn:Hl; apply ReadLine_reads_on in Hl;
      now intros [= _ _ <-].
Qed.

Lemma io_ReadFull_reads_on (n : nat) (r r' : Reader) (x : string + error) :
  io_ReadFull n r = (x, r') -> reads_on r r'.
Proof.
  unfold io_ReadFull. destruct (n <=? plen r)%nat eqn:E; intros [= _ <-].
  - apply Nat.leb_le in E. apply (reads_on_advance r (String.substring 0 n (pending r))).
    unfold drop. now apply substring_split.
  - apply (reads_on_advance r (pending r)). now rewrite append_nil_r.
Qed.

Lemma read_frame_reads_on {rt : Runtime} (r : Reader) : reads_on r (reader_after (read_frame r)).
Proof.
  unfold read_frame. destruct (ReadMIMEHeader r) as [[m err] r1] eqn:Hh.
  apply ReadMIMEHeader_reads_on in Hh.
  destruct err as [err|]; [destruct err; exact Hh|].
  destruct (String.eqb _ ""); [exact Hh|].
  destruct (strconv_Atoi _) as [len [err|]]; [exact Hh|].
  destruct ((len <? 0) || (maxAlloc <? len)); [exact Hh|].
  destruct (negb (can_allocate len)); [exact Hh|].
  destruct (io_ReadFull _ r1) as [[raw|err] r2] eqn:Hb; apply io_ReadFull_reads_on in Hb;
    cbn [reader_after]; eauto using reads_on_trans.
Qed.

(** X11.  The decoder takes a prefix of the stream and nothing else: whatever
    the outcome, the bytes left pending are a suffix of the bytes that
    were pending, the way the stream ends is untouched, and a call that
    returns an event has taken at least one byte. *)
Theorem decoder_reads_prefix {rt : Runtime} (r : Reader) :
  reads_on r (reader_after (NewEventFromReader r)) /\
  forall ev err r', NewEventFromReader r = Ok (Some ev, err) r' ->
    exists taken, taken <> "" /\ pending r = taken +:+ pending r'.
Proof.
  assert (H : reads_on r (reader_after (NewEventFromReader r))).
  { pose proof (read_frame_reads_on r) as H. unfold NewEventFromReader.
    destruct (read_frame r) as [[e|e] r0|msg r0|r0]; exact H. }
  split; [exact H|].
  intros ev err r' Hdec. pose proof (NewEventFromReader_progress _ _ _ _ Hdec) as Hlt.
  rewrite Hdec in H. destruct H as [_ [taken Ht]]. exists taken. split; [|exact Ht].
  intros ->. cbn [reader_after] in Ht. rewrite Ht, append_nil_l in Hlt. lia.
Qed.

Lemma plen_extend (t : string) (c : error) (r : Reader) :
  plen (extend t c r) = (plen r + String.length t)%nat.
Proof. apply length_append. Qed.

Lemma extend_advance (t : string) (c : error) (rest : string) (r : Reader) :
  advance (rest +:+ t) (extend t c r) = extend t c (advance rest r).
Proof. reflexivity. Qed.

Lemma cut_LF_extend (s t l rest : string) :
  cut_LF s = Some (l, rest) -> cut_LF (s +:+ t) = Some (l, rest +:+ t).
Proof.
  revert l. induction s as [|c s IH]; intros l H; simpl in H; [discriminate|].
  rewrite append_cons. cbn [cut_LF]. destruct (Ascii.eqb c LF).
  - now injection H as <- <-.
  - destruct (cut_LF s) as [[l' rest']|]; [|discriminate].
    injection H as <- <-. now rewrite (IH l' eq_refl).
Qed.

(** A line that ended with its line feed is read the same way whatever
    follows. *)
Lemma ReadLine_extend (r r' : Reader) (l : string) (t : string) (c : error) :
  ReadLine r = (inl l, r') -> (0 < plen r')%nat \/ l = "" ->
  ReadLine (extend t c r) = (inl l, extend t c r').
Proof.
  unfold ReadLine. cbn [pending extend].
  destruct (pending r) as [|c0 s] eqn:Hp; [discriminate|].
  rewrite append_cons.
  destruct (cut_LF (String c0 s)) as [[l' rest]|] eqn:Hc.
  - intros [= <- <-] _. rewrite <- append_cons, (cut_LF_extend _ t _ _ Hc). reflexivity.
  - intros [= <- <-] [H|H]; [simpl in H; lia | discriminate H].
Qed.

Lemma trim_left_extend (s t : string) :
  trim_left s <> "" -> trim_left (s +:+ t) = trim_left s +:+ t.
Proof.
  induction s as [|c s IH]; intros H; [now destruct H|].
  rewrite append_cons. cbn [trim_left] in *. destruct (is_blank c); [now apply IH|].
  now rewrite append_cons.
Qed.

Lemma skipSpace_extend (r r1 : Reader) (n : nat) (t : string) (c : error) :
  skipSpace r = (n, r1) -> (0 < plen r1)%nat ->
  skipSpace (extend t c r) = (n, extend t c r1).
Proof.
  unfold skipSpace. intros [= <- <-]. cbn [pending advance extend]. intros Hpos.
  assert (Hne : trim_left (pending r) <> "") by (intros E; rewrite E in Hpos; simpl in Hpos; lia).
  rewrite (trim_left_extend _ t Hne), !length_append.
  f_equal. pose proof (trim_left_length (pending r)). lia.
Qed.

Lemma continuation_extend (fuel : nat) :
  forall (buf buf' : string) (r r' : Reader) (t : string) (c : error) (fuel2 : nat),
  (plen r <= fuel)%nat -> (plen (extend t c r) <= fuel2)%nat ->
  continuation fuel buf r = (buf', r') -> (0 < plen r')%nat ->
  continuation fuel2 buf (extend t c r) = (buf', extend t c r').
Proof.
  induction fuel as [|fuel IH]; intros buf buf' r r' t c fuel2 Hf Hf2; cbn [continuation].
  - intros [= <- <-] Hpos. lia.
  - destruct (skipSpace r) as [n r1] eqn:Hs.
    pose proof (skipSpace_length _ _ _ Hs) as [Hsl _].
    destruct n as [|n].
    + intros [= <- <-] Hpos.
      rewrite plen_extend in Hf2. destruct fuel2 as [|fuel2]; [lia|].
      cbn [continuation]. now rewrite (skipSpace_extend _ _ _ t c Hs Hpos).
    + destruct (ReadLine r1) as [[line|e] r2] eqn:Hl.
      * intros Hk Hpos.
        pose proof (continuation_length _ _ _ _ _ Hk) as [Hkl _].
        pose proof (ReadLine_progress _ _ _ Hl) as [Hll _].
        rewrite plen_extend in Hf2. destruct fuel2 as [|fuel2]; [lia|].
        cbn [continuation].
        rewrite (skipSpace_extend _ _ _ t c Hs ltac:(lia)).
        rewrite (ReadLine_extend _ _ _ t c Hl ltac:(left; lia)).
        apply IH; [lia | rewrite plen_extend; lia | exact Hk | exact Hpos].
      * apply ReadLine_error in Hl as (-> & Hp & _). intros [= <- <-] Hpos.
        rewrite Hp in Hpos. simpl in Hpos. lia.
Qed.

Lemma continuation_grows (fuel : nat) : forall (buf buf' : string) (r r' : Reader),
  continuation fuel buf r = (buf', r') -> buf <> "" -> buf' <> "".
Proof.
  induction fuel as [|fuel IH]; intros buf buf' r r'; cbn [continuation].
  - now intros [= <- <-].
  - destruct (skipSpace r) as [n r1]. destruct n as [|n]; [now intros [= <- <-]|].
    destruct (ReadLine r1) as [[line|e] r2].
    + intros H Hne. apply (IH _ _ _ _ H). destruct buf; [now destruct Hne | discriminate].
    + intros [= <- <-] Hne. destruct buf; [now destruct Hne | discriminate].
Qed.

Lemma mem_byte_trim_left (c : ascii) (s : string) :
  is_blank c = false -> mem_byte c s = true -> mem_byte c (trim_left s) = true.
Proof.
  intros Hc. induction s as [|d s IH]; [discriminate|].
  cbn [trim_left mem_byte]. destruct (is_blank d) eqn:Hd; [|now cbn [mem_byte]].
  destruct (Ascii.eqb_spec c d) as [->|]; [congruence|]. exact IH.
Qed.

Lemma mem_byte_trim_right (c : ascii) (s : string) :
  is_blank c = false -> mem_byte c s = true -> mem_byte c (trim_right s) = true.
Proof.
  intros Hc. induction s as [|d s IH]; [discriminate|].
  cbn [trim_right mem_byte]. destruct (Ascii.eqb_spec c d) as [->|Hne].
  - intros _. destruct (trim_right s); [rewrite Hc|]; cbn [mem_byte];
      now rewrite Ascii.eqb_refl.
  - cbn [orb]. intros H. specialize (IH H).
    destruct (trim_right s) as [|e t]; [discriminate IH|].
    cbn [mem_byte] in *. rewrite IH. apply orb_true_r.
Qed.

Lemma cut_colon_mem (s : string) : cut_colon s <> None -> mem_byte ":" s = true.
Proof.
  induction s as [|c s IH]; intros H; simpl in H; [now destruct H|].
  cbn [mem_byte]. rewrite Ascii.eqb_sym. destruct (Ascii.eqb c ":"); [reflexivity|].
  destruct (cut_colon s) as [[k' v']|]; [|now destruct H]. now apply IH.
Qed.

Lemma trim_colon_nonempty (line k v : string) :
  cut_colon line = Some (k, v) -> trim line <> "".
Proof.
  intros H. assert (H' : cut_colon line <> None) by now rewrite H.
  clear H. rename H' into H. apply cut_colon_mem in H.
  apply (mem_byte_trim_left ":" _ eq_refl) in H.
  apply (mem_byte_trim_right ":" _ eq_refl) in H.
  unfold trim. intros E. rewrite E in H. discriminate H.
Qed.

Lemma readContinuedLineSlice_extend (r r' : Reader) (kv : string) (t : string) (c : error) :
  readContinuedLineSlice r = (inl kv, r') -> (0 < plen r')%nat \/ kv = "" ->
  readContinuedLineSlice (extend t c r) = (inl kv, extend t c r').
Proof.
  unfold readContinuedLineSlice.
  destruct (ReadLine r) as [[line|e] r0] eqn:Hl; [|discriminate].
  destruct line as [|c0 line].
  - intros [= <- <-] _. now rewrite (ReadLine_extend _ _ _ t c Hl ltac:(now right)).
  - destruct (cut_colon (String c0 line)) as [[k v]|] eqn:Hc; [|discriminate].
    destruct (continuation _ _ r0) as [buf r2] eqn:Hk.
    intros [= <- <-] Hpos.
    pose proof (continuation_grows _ _ _ _ _ Hk (trim_colon_nonempty _ _ _ Hc)) as Hne.
    destruct Hpos as [Hpos|E]; [|now destruct Hne].
    pose proof (continuation_length _ _ _ _ _ Hk) as [Hkl _].
    rewrite (ReadLine_extend _ _ _ t c Hl ltac:(left; lia)), Hc.
    now rewrite (continuation_extend _ _ _ _ _ t c _ (Nat.le_refl _) (Nat.le_refl _) Hk Hpos).
Qed.

Lemma readMIMEHeader_loop_extend (fuel : nat) :
  forall (m m' : MIMEHeader) (r r' : Reader) (t : string) (c : error) (fuel2 : nat),
  (plen (extend t c r) <= fuel2)%nat ->
  readMIMEHeader_loop fuel m r = (m', None, r') ->
  readMIMEHeader_loop fuel2 m (extend t c r) = (m', None, extend t c r').
Proof.
  induction fuel as [|fuel IH]; intros m m' r r' t c fuel2 Hf2; cbn [readMIMEHeader_loop];
    destruct (readContinuedLineSlice r) as [[kv|e] r1] eqn:Hr; try discriminate.
  - destruct kv as [|c0 kv].
    + intros [= <- <-].
      pose proof (readContinuedLineSlice_extend _ _ _ t c Hr ltac:(now right)) as He.
      destruct fuel2; cbn [readMIMEHeader_loop]; now rewrite He.
    + destruct (cut_colon _) as [[k v]|]; [|discriminate].
      destruct (canonicalMIMEHeaderKey k) as [key|]; [|discriminate].
      destruct (negb (all_bytes validHeaderValueByte v)); discriminate.
  - destruct kv as [|c0 kv].
    + intros [= <- <-].
      pose proof (readContinuedLineSlice_extend _ _ _ t c Hr ltac:(now right)) as He.
      destruct fuel2; cbn [readMIMEHeader_loop]; now rewrite He.
    + pose proof (readContinuedLineSlice_progress _ _ _ Hr) as [Hlt _].
      destruct (cut_colon (String c0 kv)) as [[k v]|] eqn:Hc; [|discriminate].
      destruct (canonicalMIMEHeaderKey k) as [key|] eqn:Hk; [|discriminate].
      destruct (negb (all_bytes validHeaderValueByte v)) eqn:Hv; [discriminate|].
      intros Hloop.
      assert (Hpos : (0 < plen r1)%nat).
      { destruct key; apply readMIMEHeader_loop_progress in Hloop; lia. }
      pose proof (readContinuedLineSlice_extend _ _ _ t c Hr ltac:(now left)) as He.
      rewrite plen_extend in Hf2. destruct fuel2 as [|fuel2]; [lia|].
      cbn [readMIMEHeader_loop]. rewrite He, Hc, Hk, Hv.
      destruct key; apply IH; try exact Hloop; rewrite plen_extend; lia.
Qed.

(** A header block read without error is read the same way on any longer
    stream. *)
Lemma ReadMIMEHeader_extend (r r' : Reader) (m : MIMEHeader) (t : string) (c : error) :
  ReadMIMEHeader r = (m, None, r') ->
  ReadMIMEHeader (extend t c r) = (m, None, extend t c r').
Proof.
  unfold ReadMIMEHeader. cbn [pending extend].
  destruct (pending r) as [|c0 s] eqn:Hp.
  - cbn [readMIMEHeader_loop]. unfold readContinuedLineSlice, ReadLine. rewrite Hp. discriminate.
  - rewrite append_cons. destruct (is_blank c0).
    + destruct (ReadLine r) as [[line|e] r1]; discriminate.
    + intros H. rewrite <- append_cons, <- Hp.
      apply (readMIMEHeader_loop_extend _ _ _ _ _ t c _ (Nat.le_refl _) H).
Qed.

Lemma substring_append_l (s t : string) : forall (n : nat),
  (n <= String.length s)%nat -> String.substring 0 n (s +:+ t) = String.substring 0 n s.
Proof.
  induction s as [|c s IH]; intros [|n] H; simpl in H; try lia.
  - now destruct t.
  - reflexivity.
  - rewrite append_cons. simpl. f_equal. apply IH. lia.
Qed.

Lemma drop_append (s t : string) (n : nat) :
  (n <= String.length s)%nat -> drop n (s +:+ t) = drop n s +:+ t.
Proof.
  unfold drop. revert n. induction s as [|c s IH]; intros [|n] H; simpl in H; try lia.
  - rewrite append_nil_l, Nat.sub_0_r. simpl. now rewrite substring_0_length.
  - rewrite !Nat.sub_0_r, !substring_0_length. reflexivity.
  - rewrite append_cons. simpl. apply IH. lia.
Qed.

Lemma io_ReadFull_extend (n : nat) (r r' : Reader) (raw : string) (t : string) (c : error) :
  io_ReadFull n r = (inl raw, r') -> io_ReadFull n (extend t c r) = (inl raw, extend t c r').
Proof.
  unfold io_ReadFull. destruct (n <=? plen r)%nat eqn:E; [|discriminate].
  apply Nat.leb_le in E. intros [= <- <-].
  rewrite plen_extend. replace (n <=? plen r + String.length t)%nat with true
    by (symmetry; apply Nat.leb_le; lia).
  cbn [pending extend]. rewrite (substring_append_l _ _ _ E), (drop_append _ _ _ E).
  reflexivity.
Qed.

Lemma read_frame_extend {rt : Runtime} (r r' : Reader) (e : Event) (t : string) (c : error) :
  read_frame r = Ok (inl e) r' -> read_frame (extend t c r) = Ok (inl e) (extend t c r').
Proof.
  unfold read_frame. destruct (ReadMIMEHeader r) as [[m err] r1] eqn:Hh.
  destruct err as [err|]; [destruct err; discriminate|].
  rewrite (ReadMIMEHeader_extend _ _ _ t c Hh).
  destruct (String.eqb _ ""); [now intros [= <- <-]|].
  destruct (strconv_Atoi _) as [len [err|]]; [discriminate|].
  destruct ((len <? 0) || (maxAlloc <? len)); [discriminate|].
  destruct (negb (can_allocate len)); [discriminate|].
  destruct (io_ReadFull _ r1) as [[raw|err] r2] eqn:Hb; [|discriminate].
  rewrite (io_ReadFull_extend _ _ _ _ t c Hb). now intros [= <- <-].
Qed.

(** X12.  Frames are self-delimiting.  When the decoder returns an event, it
    returns the same event (and the same error beside it, if any) on every
    stream that goes on after the bytes that were pending, however that
    stream ends, and leaves exactly the additional bytes after what it
    left before. *)
Theorem decoder_frame_is_self_delimiting {rt : Runtime} (r r' : Reader) (ev : Event) (err : option error)
    (t : string) (c : error) :
  NewEventFromReader r = Ok (Some ev, err) r' ->
  NewEventFromReader (extend t c r) = Ok (Some ev, err) (extend t c r').
Proof.
  unfold NewEventFromReader.
  destruct (read_frame r) as [[e|e] r0|msg r0|r0] eqn:Hf; try discriminate.
  rewrite (read_frame_extend _ _ _ t c Hf). now intros [= -> <-].
Qed.

(** Two frames on one stream: the api response of the sample stream is
    decoded the same way when a notification follows it. *)
Lemma decoder_frame_is_self_delimiting_witness :
  let r := reader_of ("Content-Type: api/response" +:+ nl +:+ "Content-Length: 4" +:+ nl +:+ nl +:+
                      "+OK" +:+ nl) in
  let ev := set_Type EventApiResponse (frame_of r) in
  NewEventFromReader r = Ok (Some ev, None) (after_frame r)
  /\ NewEventFromReader (extend answer_body io_EOF r)
     = Ok (Some ev, None) (extend answer_body io_EOF (after_frame r))
  /\ pending (extend answer_body io_EOF (after_frame r)) = answer_body.
Proof.
  intros r ev.
  assert (H : NewEventFromReader r = Ok (Some ev, None) (after_frame r))
    by (vm_compute; reflexivity).
  split; [exact H|].
  split; [exact (decoder_frame_is_self_delimiting _ _ _ _ answer_body io_EOF H)|].
  vm_compute. reflexivity.
Defined.












Lemma to_upper_lower (c : ascii) : to_upper (to_lower c) = to_upper c.
Proof. destruct c as [[] [] [] [] [] [] [] []]; reflexivity. Qed.

Lemma to_lower_lower (c : ascii) : to_lower (to_lower c) = to_lower c.
Proof. destruct c as [[] [] [] [] [] [] [] []]; reflexivity. Qed.

Lemma validHeaderFieldByte_lower (c : ascii) :
  validHeaderFieldByte (to_lower c) = validHeaderFieldByte c.
Proof. destruct c as [[] [] [] [] [] [] [] []]; reflexivity. Qed.

Lemma canonicalize_lower (s : string) : forall (upper : bool),
  canonicalize upper (lower s) = canonicalize upper s.
Proof.
  induction s as [|c s IH]; intros upper; [reflexivity|].
  cbn [lower canonicalize]. destruct upper.
  - now rewrite to_upper_lower, IH.
  - now rewrite to_lower_lower, IH.
Qed.

Lemma all_bytes_field_lower (s : string) :
  all_bytes validHeaderFieldByte (lower s) = all_bytes validHeaderFieldByte s.
Proof.
  induction s as [|c s IH]; [reflexivity|].
  cbn [lower all_bytes]. now rewrite validHeaderFieldByte_lower, IH.
Qed.

Lemma CanonicalMIMEHeaderKey_lower (s : string) :
  all_bytes validHeaderFieldByte s = true ->
  CanonicalMIMEHeaderKey (lower s) = CanonicalMIMEHeaderKey s.
Proof.
  intros H. unfold CanonicalMIMEHeaderKey.
  now rewrite all_bytes_field_lower, H, canonicalize_lower.
Qed.

(** X13.  Header lookup ignores the case of the name: two names that are tokens
    and differ only in the case of their letters find the same value, in a
    header map and in an event. *)
Theorem Get_ignores_case (k1 k2 : string) :
  all_bytes validHeaderFieldByte k1 = true ->
  lower k1 = lower k2 ->
  (forall m, MIMEMap_Get m k1 = MIMEMap_Get m k2) /\
  (forall e, Event_Get e k1 = Event_Get e k2).
Proof.
  intros H1 Hl.
  assert (H2 : all_bytes validHeaderFieldByte k2 = true)
    by now rewrite <- all_bytes_field_lower, <- Hl, all_bytes_field_lower.
  assert (Hk : CanonicalMIMEHeaderKey k1 = CanonicalMIMEHeaderKey k2).
  { rewrite <- (CanonicalMIMEHeaderKey_lower k1 H1), <- (CanonicalMIMEHeaderKey_lower k2 H2).
    now rewrite Hl. }
  assert (Hm : forall m, MIMEMap_Get m k1 = MIMEMap_Get m k2).
  { intros m. unfold MIMEMap_Get, MIMEHeader_Get. now rewrite Hk. }
  split; [exact Hm|]. intros e. unfold Event_Get. now rewrite !Hm.
Qed.

Lemma Get_ignores_case_witness :
  Event_Get (frame_of api_frame) "content-LENGTH" = Event_Get (frame_of api_frame) "Content-Length"
  /\ Event_Get (frame_of api_frame) "Content-Length" = "4".
Proof.
  split; [|vm_compute; reflexivity].
  apply (Get_ignores_case "content-LENGTH" "Content-Length"); reflexivity.
Defined.







(** A frame of well-formed header lines that declares no body length is
    decoded from its header map alone, and the reader is left after its
    blank line. *)
Lemma decode_frame_text {rt : Runtime} (fields : list (string * string)) (rest : string) (c : error) :
  forallb well_formed_field fields = true ->
  MIMEHeader_Get (parsed_fields fields ∅) "Content-Length" = "" ->
  NewEventFromReader (mkReader (frame_text fields +:+ rest) c)
  = Ok (switch_ContentType (frame_event (parsed_fields fields ∅) "")) (mkReader rest c).
Proof.
  intros Hwf Hcl. unfold NewEventFromReader, read_frame, frame_text.
  rewrite append_assoc, (ReadMIMEHeader_fields fields rest c Hwf).
  change (set_Header {| Map := parsed_fields fields ∅; IsEscaped := false |} zero_Event)
    with (frame_event (parsed_fields fields ∅) "").
  now rewrite Event_Get_frame_event, Hcl.
Qed.

Lemma decode_auth_request {rt : Runtime} (rest : string) (c : error) :
  NewEventFromReader (mkReader (frame_text auth_request +:+ rest) c)
  = Ok (Some (set_Type EventAuth (frame_event (parsed_fields auth_request ∅) "")), None)
       (mkReader rest c).
Proof. rewrite decode_frame_text; reflexivity. Qed.

Lemma command_reply_fields (t : string) :
  let m := parsed_fields (command_reply t) ∅ in
  MIMEHeader_Get m "Content-Type" = "command/reply" /\
  MIMEHeader_Get m "Content-Length" = "" /\
  MIMEHeader_Get m "Reply-Text" = trim t.
Proof.
  cbv zeta. unfold MIMEHeader_Get, parsed_fields, command_reply. cbn [fold_left fst snd].
  change (canonicalize true "Content-Type") with "Content-Type".
  change (canonicalize true "Reply-Text") with "Reply-Text".
  change (CanonicalMIMEHeaderKey "Content-Type") with "Content-Type".
  change (CanonicalMIMEHeaderKey "Content-Length") with "Content-Length".
  change (CanonicalMIMEHeaderKey "Reply-Text") with "Reply-Text".
  change (trim "command/reply") with "command/reply".
  split; [|split].
  - rewrite lookup_append_other by discriminate. now rewrite lookup_append_same, lookup_empty.
  - rewrite !lookup_append_other by discriminate. now rewrite lookup_empty.
  - rewrite lookup_append_same, lookup_append_other by discriminate. now rewrite lookup_empty.
Qed.

(** How the decoder treats a command reply, by its text. *)
Lemma decode_command_reply {rt : Runtime} (t rest : string) (c : error) :
  all_bytes validHeaderValueByte t = true ->
  NewEventFromReader (mkReader (frame_text (command_reply t) +:+ rest) c)
  = Ok (if negb (strings_Contains (trim t) "+OK") && negb (strings_Contains (trim t) "%2BOK")
        then (None, Some (fmt_Errorf "command error: %s"
                            [arg_string (strings_TrimSpace (trim t))]))
        else (Some (set_Header {| Map := parsed_fields (command_reply t) ∅;
                                  IsEscaped := strings_Contains (trim t) "%" |}
                      (set_Type EventCommandReply
                         (frame_event (parsed_fields (command_reply t) ∅) ""))), None))
       (mkReader rest c).
Proof.
  intros Ht. destruct (command_reply_fields t) as (Hct & Hcl & Hrt).
  rewrite decode_frame_text;
    [|unfold command_reply, well_formed_field; cbn [forallb fst snd]; rewrite Ht; reflexivity
     |exact Hcl].
  f_equal. unfold switch_ContentType.
  rewrite Event_Get_frame_event, Hct. cbn [String.eqb Ascii.eqb Bool.eqb]. cbv iota.
  rewrite Event_Get_set_Type, Event_Get_frame_event, Hrt.
  destruct (negb _ && negb _); [reflexivity|].
  destruct (strings_Contains (trim t) "%"); reflexivity.
Qed.

Lemma seqZ_S (from : Z) (n : nat) :
  seqZ from (Z.of_nat (S n)) = from :: seqZ (from + 1) (Z.of_nat n).
Proof.
  rewrite Nat2Z.inj_succ. rewrite seqZ_cons by lia. f_equal. f_equal; lia.
Qed.

(** The dial loop when the first [n] attempts from [from] on fail. *)
Lemma dial_loop_failures (dial : Z -> (Socket * Reader) + error) (errs : Z -> error)
    (n : nat) : forall (fuel : nat) (from MaxRetries : Z),
  (forall k, from <= k < from + Z.of_nat n -> dial k = inr (errs k)) ->
  from + Z.of_nat n <= MaxRetries ->
  (n <= fuel)%nat ->
  dial_loop dial fuel from MaxRetries
  = let '(notices, res) := dial_loop dial (fuel - n) (from + Z.of_nat n) MaxRetries in
    (failed_attempts errs from n ++ notices, res)%list.
Proof.
  induction n as [|n IH]; intros fuel from MaxRetries Hd Hm Hf.
  - rewrite Nat.sub_0_r, Z.add_0_r. unfold failed_attempts. cbn.
    now destruct (dial_loop dial fuel from MaxRetries).
  - destruct fuel as [|fuel]; [lia|]. cbn [dial_loop].
    replace (from <=? MaxRetries) with true by (symmetry; apply Z.leb_le; lia).
    rewrite (Hd from) by lia.
    replace (from =? MaxRetries) with false by (symmetry; apply Z.eqb_neq; lia).
    rewrite (IH fuel (from + 1) MaxRetries); [| intros k Hk; apply Hd; lia | lia | lia].
    replace (from + 1 + Z.of_nat n) with (from + Z.of_nat (S n)) by lia.
    replace (S fuel - S n)%nat with (fuel - n)%nat by lia.
    destruct (dial_loop dial (fuel - n) (from + Z.of_nat (S n)) MaxRetries) as [notices res].
    unfold failed_attempts. now rewrite seqZ_S.
Qed.

(** [ConnectRetry] when attempt [k] is the first to succeed. *)
Lemma ConnectRetry_success {rt : Runtime} (dial : Z -> (Socket * Reader) + error)
    (errs : Z -> error) (MaxRetries : Z) (unread : option Reader) (con : Connection)
    (k : Z) (s : Socket) (stream : Reader) :
  Connected con = false ->
  1 <= k <= MaxRetries ->
  (forall j, 1 <= j < k -> dial j = inr (errs j)) ->
  dial k = inl (s, stream) ->
  Connection_ConnectRetry dial MaxRetries unread con
  = (failed_attempts errs 1 (Z.to_nat (k - 1)),
     Connection_Authenticate (set_writer_err None (set_reader stream (set_socket s con)))).
Proof.
  intros Hc Hk Hfail Hok. unfold Connection_ConnectRetry. rewrite Hc.
  rewrite (dial_loop_failures dial errs (Z.to_nat (k - 1)));
    [| intros j Hj; apply Hfail; lia | lia | lia].
  replace (1 + Z.of_nat (Z.to_nat (k - 1))) with k by lia.
  destruct (Z.to_nat MaxRetries - Z.to_nat (k - 1))%nat as [|fuel] eqn:Ef; [lia|].
  cbn [dial_loop].
  replace (k <=? MaxRetries) with true by (symmetry; apply Z.leb_le; lia).
  rewrite Hok. now rewrite app_nil_r.
Qed.

(** [ConnectRetry] when every attempt fails. *)
Lemma ConnectRetry_failure {rt : Runtime} (dial : Z -> (Socket * Reader) + error)
    (errs : Z -> error) (MaxRetries : Z) (unread : option Reader) (con : Connection) :
  Connected con = false ->
  1 <= MaxRetries ->
  (forall j, 1 <= j <= MaxRetries -> dial j = inr (errs j)) ->
  Connection_ConnectRetry dial MaxRetries unread con
  = (failed_attempts errs 1 (Z.to_nat (MaxRetries - 1)),
     Ok (Some (fmt_Errorf "last dial attempt: %v" [arg_error (errs MaxRetries)])) con).
Proof.
  intros Hc Hm Hfail. unfold Connection_ConnectRetry. rewrite Hc.
  rewrite (dial_loop_failures dial errs (Z.to_nat (MaxRetries - 1)));
    [| intros j Hj; apply Hfail; lia | lia | lia].
  replace (1 + Z.of_nat (Z.to_nat (MaxRetries - 1))) with MaxRetries by lia.
  destruct (Z.to_nat MaxRetries - Z.to_nat (MaxRetries - 1))%nat as [|fuel] eqn:Ef; [lia|].
  cbn [dial_loop]. rewrite Z.leb_refl, (Hfail MaxRetries) by lia.
  rewrite Z.eqb_refl. now rewrite app_nil_r.
Qed.

(** X22.  [ConnectRetry] on a connection that is not connected.
    - When the attempts [1 .. k-1] fail and attempt [k <= MaxRetries]
      succeeds, the function has logged one notice per failed attempt,
      dials no more, and goes on to authenticate over the new socket with
      fresh buffers.
    - When all [MaxRetries >= 1] attempts fail, the function has logged
      one notice per attempt but the last, and returns the error of the
      last attempt, wrapped, without authenticating.
    - When no attempt is allowed and the connection has no socket, the
      function panics. *)
Theorem ConnectRetry_attempts {rt : Runtime} (dial : Z -> (Socket * Reader) + error)
    (errs : Z -> error) (MaxRetries : Z) (unread : option Reader) (con : Connection) :
  Connected con = false ->
  (forall k s stream,
     1 <= k <= MaxRetries ->
     (forall j, 1 <= j < k -> dial j = inr (errs j)) ->
     dial k = inl (s, stream) ->
     Connection_ConnectRetry dial MaxRetries unread con
     = (failed_attempts errs 1 (Z.to_nat (k - 1)),
        Connection_Authenticate
          (set_writer_err None (set_reader stream (set_socket s con))))) /\
  (1 <= MaxRetries ->
   (forall j, 1 <= j <= MaxRetries -> dial j = inr (errs j)) ->
   Connection_ConnectRetry dial MaxRetries unread con
   = (failed_attempts errs 1 (Z.to_nat (MaxRetries - 1)),
      Ok (Some (fmt_Errorf "last dial attempt: %v" [arg_error (errs MaxRetries)])) con)) /\
  (MaxRetries <= 0 -> unread = None ->
   Connection_ConnectRetry dial MaxRetries unread con = ([], Panicked nil_dereference con)).
Proof.
  intros Hc. split; [|split].
  - intros k s stream. now apply ConnectRetry_success.
  - now apply ConnectRetry_failure.
  - intros Hm ->. unfold Connection_ConnectRetry. rewrite Hc.
    replace (Z.to_nat MaxRetries) with 0%nat by lia. reflexivity.
Qed.

Lemma with_args_Join (args : list string) : forall cmd,
  with_args cmd args = strings_Join (cmd :: args) " ".
Proof.
  induction args as [|a rest IH]; intros cmd; [reflexivity|].
  cbn [with_args]. rewrite IH. cbn [strings_Join].
  destruct rest as [|b rs]; [reflexivity|].
  now rewrite !append_assoc.
Qed.

Lemma Socket_Write_error (p : string) (s : Socket) (e : error) :
  write_error s = Some e -> Socket_Write p s = (Some e, s).
Proof.
  unfold write_error, Socket_Write. destruct (sock_closed s); [now intros [= <-]|].
  now intros ->.
Qed.

Lemma Socket_Write_ok (p : string) (s : Socket) :
  write_error s = None ->
  Socket_Write p s
  = (None, {| sock_closed := false; delivered := delivered s +:+ p; write_fault := None |}).
Proof.
  unfold write_error, Socket_Write. destruct (sock_closed s); [discriminate|].
  now intros ->.
Qed.

(** A write on a healthy connection hands all the bytes to the peer. *)
Lemma Write_healthy (p : string) (con : Connection) :
  healthy con ->
  exists con', Connection_Write p con = (None, con') /\ sent p con con' /\
               cmdReply con' = cmdReply con /\ apiResp con' = apiResp con.
Proof.
  intros [Hw Hs]. unfold Connection_Write. rewrite Hw, (Socket_Write_ok p _ Hs).
  destruct (defaultBufSize <? String.length p)%nat.
  - eexists. split; [reflexivity|]. now repeat split.
  - destruct p as [|c p].
    + exists con. split; [reflexivity|]. unfold sent. rewrite append_nil_r. now repeat split.
    + eexists. split; [reflexivity|]. now repeat split.
Qed.

(** A write on a socket that refuses writes. *)
Lemma Write_broken (p : string) (con : Connection) (e : error) :
  writer_err con = None ->
  write_error (socket con) = Some e ->
  p <> "" ->
  Connection_Write p con
  = (if (defaultBufSize <? String.length p)%nat then Some e else None,
     set_writer_err (Some e) con).
Proof.
  intros Hw Hs Hp. unfold Connection_Write. rewrite Hw, (Socket_Write_error p _ e Hs).
  assert (Hcon : set_socket (socket con) con = con) by now destruct con.
  rewrite Hcon. destruct (defaultBufSize <? String.length p)%nat; [reflexivity|].
  destruct p; [now destruct Hp | reflexivity].
Qed.

(** X16.  The failure of a write that fits the buffer is not reported by
    that write: the bytes are lost, [Write] returns no error, and it is the
    next write, whatever its size, that returns the error.  Only a write
    larger than the buffer reports the failure at once. *)
Theorem Write_failure_deferred (p : string) (con : Connection) (e : error) :
  writer_err con = None ->
  write_error (socket con) = Some e ->
  p <> "" ->
  ((String.length p <= defaultBufSize)%nat -> (Connection_Write p con).1 = None) /\
  ((defaultBufSize < String.length p)%nat -> (Connection_Write p con).1 = Some e) /\
  delivered (socket (Connection_Write p con).2) = delivered (socket con) /\
  forall q, Connection_Write q (Connection_Write p con).2
            = (Some e, (Connection_Write p con).2).
Proof.
  intros Hw Hs Hp. rewrite (Write_broken p con e Hw Hs Hp). cbn [fst snd].
  split; [|split; [|split]].
  - intros H. apply Nat.ltb_ge in H. now rewrite H.
  - intros H. apply Nat.ltb_lt in H. now rewrite H.
  - reflexivity.
  - reflexivity.
Qed.

Lemma Write_failure_deferred_witness :
  let e := net_Error "use of closed network connection" in
  let con' := (Connection_Write "exit" closed_con).2 in
  (Connection_Write "exit" closed_con).1 = None /\
  delivered (socket con') = delivered (socket closed_con) /\
  forall q, Connection_Write q con' = (Some e, con').
Proof.
  intros e con'.
  destruct (Write_failure_deferred "exit" closed_con e) as (H1 & _ & H3 & H4);
    [reflexivity | reflexivity | discriminate |].
  split; [apply H1; vm_compute; lia|]. split; [exact H3 | exact H4].
Defined.

(** X17.  Consequence for a request: on a socket that refuses writes, [SendRecv]
    with a request that fits the buffer does not report the failure.  It
    goes on to wait for a reply, and returns a reply that was already
    waiting as the answer to a request that was never sent. *)
Theorem SendRecv_hides_write_failure (cmd : string) (args : list string)
    (con : Connection) (e : error) :
  writer_err con = None ->
  write_error (socket con) = Some e ->
  (String.length (with_args cmd args) + 2 <= defaultBufSize)%nat ->
  (cmdReply con = [] ->
   exists con', Connection_SendRecv cmd args con = Blocked con' /\
                delivered (socket con') = delivered (socket con)) /\
  (forall ev q, cmdReply con = ev :: q ->
   strings_HasPrefix (Event_Get ev "Reply-Text") "-ERR" = false ->
   exists con', Connection_SendRecv cmd args con = Ok (Some ev, None) con' /\
                delivered (socket con') = delivered (socket con)).
Proof.
  intros Hw Hs Hl.
  set (p := with_args cmd args +:+ nl +:+ nl).
  assert (Hlen : String.length p = (String.length (with_args cmd args) + 2)%nat)
    by (unfold p; rewrite !length_append; reflexivity).
  assert (Hne : p <> "") by (intros H; rewrite H in Hlen; simpl in Hlen; lia).
  unfold Connection_SendRecv. fold p. rewrite (Write_broken p con e Hw Hs Hne).
  replace (defaultBufSize <? String.length p)%nat with false
    by (symmetry; apply Nat.ltb_ge; lia).
  cbn [cmdReply set_writer_err]. split.
  - intros ->. cbn [recv]. eauto.
  - intros ev q -> Hok. cbn [recv]. rewrite Hok. eauto.
Qed.

Lemma SendRecv_hides_write_failure_witness :
  exists con',
    Connection_SendRecv "hupall" [] (set_cmdReply [] closed_con) = Blocked con' /\
    delivered (socket con') = delivered (socket (set_cmdReply [] closed_con)).
Proof.
  apply (SendRecv_hides_write_failure "hupall" [] (set_cmdReply [] closed_con)
           (net_Error "use of closed network connection"));
    [reflexivity | reflexivity | vm_compute; lia | reflexivity].
Defined.

(** X18.  What each request leaves on the wire and takes from the queues,
    on a healthy connection to which a reply has been handed: the bytes of
    the request reach the peer, the oldest event of the matching queue is
    taken and the other queue is left alone.  [SendRecv], [BgApi] and
    [SendEvent] answer a reply text that starts with "-ERR" with an error
    that carries the text; [Api] does so by the trimmed body; [BgApi]
    otherwise returns the [Job-Uuid] of the reply and [Command.Execute]
    returns the reply as it is. *)
Theorem request_exchange (con : Connection) (ev : Event) (q : list Event) :
  healthy con ->
  (forall cmd args, cmdReply con = ev :: q ->
   exists con',
     Connection_SendRecv cmd args con
     = Ok (if strings_HasPrefix (Event_Get ev "Reply-Text") "-ERR"
           then (None, Some (fmt_Errorf "SendRecv %s %s: %s"
                               [arg_string cmd; arg_strings args;
                                arg_string (strings_TrimSpace (Event_Get ev "Reply-Text"))]))
           else (Some ev, None)) con' /\
     sent (strings_Join (cmd :: args) " " +:+ nl +:+ nl) con con' /\
     cmdReply con' = q /\ apiResp con' = apiResp con) /\
  (forall cmd args, cmdReply con = ev :: q ->
   exists con',
     Connection_BgApi cmd args con
     = Ok (if strings_HasPrefix (Event_Get ev "Reply-Text") "-ERR"
           then ("", Some (fmt_Errorf "bgapi: %v"
                             [arg_error (fmt_Errorf "SendRecv %s %s: %s"
                                [arg_string ("bgapi " +:+ cmd); arg_strings args;
                                 arg_string (strings_TrimSpace (Event_Get ev "Reply-Text"))])]))
           else (Event_Get ev "Job-Uuid", None)) con' /\
     sent (strings_Join (("bgapi " +:+ cmd) :: args) " " +:+ nl +:+ nl) con con' /\
     cmdReply con' = q /\ apiResp con' = apiResp con) /\
  (forall cmd args, apiResp con = ev :: q ->
   exists con',
     Connection_Api cmd args con
     = Ok (if strings_HasPrefix (strings_TrimSpace (RawBody ev)) "-ERR"
           then ("", Some (fmt_Errorf "api %s %s: %s"
                             [arg_string cmd; arg_strings args;
                              arg_string (strings_TrimSpace (RawBody ev))]))
           else (RawBody ev, None)) con' /\
     sent (strings_Join (("api " +:+ cmd) :: args) " " +:+ nl +:+ nl) con con' /\
     apiResp con' = q /\ cmdReply con' = cmdReply con) /\
  (forall cmd, cmdReply con = ev :: q ->
   exists con',
     Command.Execute cmd con = Ok (Some ev, None) con' /\
     sent (Command.Serialize cmd) con con' /\
     cmdReply con' = q /\ apiResp con' = apiResp con) /\
  (forall range cmd headers body, cmdReply con = ev :: q ->
   exists con',
     Connection_SendEvent range cmd headers body con
     = Ok (if strings_HasPrefix (Event_Get ev "Reply-Text") "-ERR"
           then (None, Some (fmt_Errorf "send event %s: %s"
                               [arg_string cmd;
                                arg_string (strings_TrimSpace (Event_Get ev "Reply-Text"))]))
           else (Some ev, None)) con' /\
     sent (SendEvent_buf range cmd headers body) con con' /\
     cmdReply con' = q /\ apiResp con' = apiResp con).
Proof.
  intros Hh.
  assert (HSR : forall cmd args, cmdReply con = ev :: q ->
   exists con',
     Connection_SendRecv cmd args con
     = Ok (if strings_HasPrefix (Event_Get ev "Reply-Text") "-ERR"
           then (None, Some (fmt_Errorf "SendRecv %s %s: %s"
                               [arg_string cmd; arg_strings args;
                                arg_string (strings_TrimSpace (Event_Get ev "Reply-Text"))]))
           else (Some ev, None)) con' /\
     sent (strings_Join (cmd :: args) " " +:+ nl +:+ nl) con con' /\
     cmdReply con' = q /\ apiResp con' = apiResp con).
  { intros cmd args Hq. unfold Connection_SendRecv.
    destruct (Write_healthy (with_args cmd args +:+ nl +:+ nl) con Hh)
      as (con1 & -> & Hs & Hc & Ha).
    rewrite Hc, Hq. cbn [recv]. rewrite <- with_args_Join.
    exists (set_cmdReply q con1).
    split; [destruct (strings_HasPrefix (Event_Get ev "Reply-Text") "-ERR"); reflexivity|].
    split; [exact Hs|]. split; [reflexivity | exact Ha]. }
  split; [exact HSR|]. split; [|split; [|split]].
  - intros cmd args Hq. unfold Connection_BgApi.
    destruct (HSR ("bgapi " +:+ cmd) args Hq) as (con' & -> & Hs & Hc & Ha).
    exists con'.
    split; [destruct (strings_HasPrefix (Event_Get ev "Reply-Text") "-ERR"); reflexivity|].
    split; [exact Hs|]. split; [exact Hc | exact Ha].
  - intros cmd args Hq. unfold Connection_Api.
    destruct (Write_healthy (with_args ("api " +:+ cmd) args +:+ nl +:+ nl) con Hh)
      as (con1 & -> & Hs & Hc & Ha).
    rewrite Ha, Hq. cbn [recv]. rewrite <- with_args_Join.
    exists (set_apiResp q con1).
    split; [destruct (strings_HasPrefix (strings_TrimSpace (RawBody ev)) "-ERR"); reflexivity|].
    split; [exact Hs|]. split; [reflexivity | exact Hc].
  - intros cmd Hq. unfold Command.Execute.
    destruct (Write_healthy (Command.Serialize cmd) con Hh) as (con1 & -> & Hs & Hc & Ha).
    rewrite Hc, Hq. cbn [recv]. exists (set_cmdReply q con1).
    split; [reflexivity|]. split; [exact Hs|]. split; [reflexivity | exact Ha].
  - intros range cmd headers body Hq. unfold Connection_SendEvent.
    destruct (Write_healthy (SendEvent_buf range cmd headers body) con Hh)
      as (con1 & -> & Hs & Hc & Ha).
    rewrite Hc, Hq. cbn [recv]. exists (set_cmdReply q con1).
    split; [destruct (strings_HasPrefix (Event_Get ev "Reply-Text") "-ERR"); reflexivity|].
    split; [exact Hs|]. split; [reflexivity | exact Ha].
Qed.

(** [SendRecv] on a healthy connection to which a failed reply was
    handed. *)
Lemma request_exchange_witness :
  exists err con',
    Connection_SendRecv "hupall" [] waiting_con = Ok (None, Some err) con' /\
    delivered (socket con') = "hupall" +:+ nl +:+ nl /\
    cmdReply con' = [] /\ apiResp con' = [err_response].
Proof.
  destruct (request_exchange waiting_con err_reply []) as (H & _); [split; reflexivity|].
  destruct (H "hupall" [] eq_refl) as (con' & H1 & (H2 & _) & H3 & H4).
  eexists _, con'. split; [exact H1|]. split; [exact H2|]. split; [exact H3 | exact H4].
Defined.

(** The decoder ends the program only in the allocation of the body: by
    the panic on a length out of range, or by the fatal error when the
    allocator cannot serve it. *)
Lemma decoder_panic_msg {rt : Runtime} (r r' : Reader) (msg : string) :
  NewEventFromReader r = Panicked msg r' -> msg = makeslice_panic \/ msg = out_of_memory.
Proof.
  unfold NewEventFromReader, read_frame.
  destruct (ReadMIMEHeader r) as [[m err] r1].
  destruct err as [err|]; [destruct err; discriminate|].
  destruct (String.eqb _ ""); [discriminate|].
  destruct (strconv_Atoi _) as [len [err|]]; [discriminate|].
  destruct ((len <? 0) || (maxAlloc <? len)); [intros [= <- _]; now left|].
  destruct (negb (can_allocate len)); [intros [= <- _]; now right|].
  destruct (io_ReadFull _ r1) as [[raw|err] r2]; discriminate.
Qed.

(** What [Write] can change: the socket's delivered bytes, by the bytes
    written, and the writer's error. *)
Lemma Connection_Write_frame (p : string) (con : Connection) :
  let con' := (Connection_Write p con).2 in
  reader con' = reader con /\ cmdReply con' = cmdReply con /\ apiResp con' = apiResp con /\
  spawned con' = spawned con /\ Password con' = Password con /\
  Connected con' = Connected con /\
  sock_closed (socket con') = sock_closed (socket con) /\
  (delivered (socket con') = delivered (socket con) \/
   delivered (socket con') = delivered (socket con) +:+ p).
Proof.
  unfold Connection_Write. destruct (writer_err con); [cbn; now auto 10|].
  assert (Hs : let s := (Socket_Write p (socket con)).2 in
               sock_closed s = sock_closed (socket con) /\
               (delivered s = delivered (socket con) \/
                delivered s = delivered (socket con) +:+ p)).
  { unfold Socket_Write. destruct (sock_closed (socket con)) eqn:Hc; [cbn; auto|].
    destruct (write_fault (socket con)); cbn; auto. }
  destruct (Socket_Write p (socket con)) as [err s]. cbn [snd] in Hs. destruct Hs as [Hs1 Hs2].
  destruct (defaultBufSize <? String.length p)%nat; [cbn; now auto 10|].
  destruct p; cbn; now auto 10.
Qed.



Lemma decoder_reply_accepted {rt : Runtime} (r r' : Reader) (ev : Event) (err : option error) :
  NewEventFromReader r = Ok (Some ev, err) r' ->
  Type_ ev = EventCommandReply -> accepted_reply ev.
Proof.
  unfold NewEventFromReader.
  destruct (read_frame r) as [[e0|e0] r0|msg r0|r0] eqn:Hf; try discriminate.
  apply read_frame_event in Hf as (m & r1 & raw & _ & ->).
  unfold switch_ContentType.
  destruct (String.eqb _ "auth/request"); [intros [= <- <- _]; discriminate|].
  destruct (String.eqb _ "command/reply").
  { rewrite Event_Get_set_Type, Event_Get_frame_event.
    destruct (strings_Contains _ "+OK") eqn:H1.
    - cbn [negb andb].
      destruct (strings_Contains _ "%"); intros [= <- <- _] _; split; cbn; auto.
    - destruct (strings_Contains _ "%2BOK") eqn:H2; [|discriminate].
      cbn [negb andb].
      destruct (strings_Contains _ "%"); intros [= <- <- _] _; split; cbn; auto. }
  destruct (String.eqb _ "text/event-plain").
  { destruct (parseTextBody _) as [e' err'] eqn:P. intros [= <- <- _].
    apply parseTextBody_frame in P as (-> & _). discriminate. }
  destruct (String.eqb _ "text/event-json" || String.eqb _ "text/event-xml");
    [intros [= <- <- _]; discriminate|].
  destruct (String.eqb _ "text/disconnect-notice" || String.eqb _ "text/rude-rejection");
    [intros [= <- <- _]; discriminate|].
  destruct (String.eqb _ "api/response"); intros [= <- <- _]; discriminate.
Qed.

Section LoopInvariants.

Context {Handler : ConnectionHandler} {rt : Runtime}.
Variable others : nat -> Connection -> Connection.
Variable taken : nat -> bool.

(** The other goroutines and the hooks take events from the queues or
    leave them alone: they keep each queue to its kind. *)
Hypothesis others_sorted : forall i con, queues_sorted con -> queues_sorted (others i con).
Hypothesis OnDisconnect_sorted : forall con ev,
  queues_sorted con -> queues_sorted (OnDisconnect con ev).
Hypothesis OnClose_sorted : forall con, queues_sorted con -> queues_sorted (OnClose con).

Lemma dispatch_sorted (i : nat) (ev : Event) (con : Connection) (r r' : Reader)
    (err : option error) :
  NewEventFromReader r = Ok (Some ev, err) r' ->
  queues_sorted con ->
  match dispatch taken i ev con with
  | Return _ => True
  | Continue con' | Park con' => queues_sorted con'
  end.
Proof.
  intros Hdec (Hc & Ha & Hs). unfold dispatch.
  destruct (Type_ ev) eqn:Ht;
    try match goal with |- context [taken i] => destruct (taken i) end;
    try exact I; try (split; [|split]; assumption).
  - split; [|split; assumption]. cbn [cmdReply set_cmdReply].
    apply Forall_app. split; [assumption|]. constructor; [|constructor].
    now apply (decoder_reply_accepted _ _ _ _ Hdec).
  - split; [assumption|split; [|assumption]]. cbn [apiResp set_apiResp].
    apply Forall_app. split; [assumption|]. constructor; [assumption|constructor].
  - apply OnDisconnect_sorted. split; [|split]; assumption.
  - split; [assumption|split; [assumption|]]. cbn [spawned set_spawned].
    apply Forall_app. split; [assumption|]. constructor; [assumption|constructor].
Qed.

(** X24.  The read loop keeps each queue to its kind: what it hands to
    the receivers of the command channel are command replies that carry a
    success marker, what it hands to those of the api channel are api
    responses, and the notifications for which it starts a handler are of
    the generic kind. *)
Theorem HandleEvents_sorts (fuel : nat) : forall (i : nat) (con : Connection)
    (res : result Connection (option error)),
  queues_sorted con ->
  Connection_HandleEvents others taken fuel i con = Some res ->
  queues_sorted (final res).
Proof.
  induction fuel as [|fuel IH]; intros i con res Hq; [discriminate|].
  cbn [Connection_HandleEvents].
  destruct (negb (Connected con)); [now intros [= <-]|].
  assert (Hset : forall r, queues_sorted (others i (set_reader r con)))
    by (intros r; apply others_sorted; exact Hq).
  destruct (NewEventFromReader (reader con)) as [[ev err] r'|msg r'|r'] eqn:Hdec;
    try (intros [= <-]; apply Hset).
  destruct err as [err|].
  - destruct (is_EOF err || _); intros [= <-]; [apply Hset|].
    cbn [final]. unfold Connection_Close.
    assert (Hcl : forall c, queues_sorted c -> queues_sorted (close_socket c))
      by (intros c H; exact H).
    apply Hcl. destruct (Connected _); [|apply Hset].
    apply OnClose_sorted. exact (Hset r').
  - destruct ev as [ev|]; [|intros [= <-]; apply Hset].
    pose proof (dispatch_sorted i ev _ _ _ _ Hdec (Hset r')) as Hd.
    destruct (dispatch taken i ev _) as [e|con'|con'];
      [intros [= <-]; apply Hset | | intros [= <-]; exact Hd].
    intros H. exact (IH _ _ _ Hd H).
Qed.

End LoopInvariants.

Lemma HandleEvents_sorts_witness :
  exists res,
    Connection_HandleEvents alone all_taken 4 0 (connected_on mixed_stream io_EOF) = Some res /\
    length (cmdReply (final res)) = 1%nat /\
    length (apiResp (final res)) = 1%nat /\
    length (spawned (final res)) = 1%nat /\
    queues_sorted (final res).
Proof.
  assert (Hn : match Connection_HandleEvents alone all_taken 4 0
                       (connected_on mixed_stream io_EOF) with
               | Some res => (length (cmdReply (final res)), length (apiResp (final res)),
                              length (spawned (final res)))
               | None => (0, 0, 0)%nat
               end = (1, 1, 1)%nat) by (vm_compute; reflexivity).
  destruct (Connection_HandleEvents alone all_taken 4 0 (connected_on mixed_stream io_EOF))
    as [res|] eqn:E; [|discriminate Hn].
  injection Hn as H1 H2 H3.
  exists res. split; [reflexivity|].
  split; [exact H1|]. split; [exact H2|]. split; [exact H3|].
  apply (HandleEvents_sorts alone all_taken) with (fuel := 4%nat) (i := 0%nat)
    (con := connected_on mixed_stream io_EOF).
  - intros i c H. exact H.
  - intros c ev H. exact H.
  - intros c H. exact H.
  - repeat split; constructor.
  - exact E.
Defined.

(** X25.  The read loop never dereferences a nil event: when it ends the
    program, it does so in the decoder's allocation of a body, by the
    panic on a length out of range or by the fatal error when the
    allocator cannot serve the length. *)
Theorem HandleEvents_only_panic {Handler : ConnectionHandler} {rt : Runtime}
    (others : nat -> Connection -> Connection) (taken : nat -> bool) (fuel : nat) :
  forall (i : nat) (con con' : Connection) (msg : string),
  Connection_HandleEvents others taken fuel i con = Some (Panicked msg con') ->
  msg = makeslice_panic \/ msg = out_of_memory.
Proof.
  induction fuel as [|fuel IH]; intros i con con' msg; [discriminate|].
  cbn [Connection_HandleEvents].
  destruct (negb (Connected con)); [discriminate|].
  destruct (NewEventFromReader (reader con)) as [[ev err] r'|m r'|r'] eqn:Hdec;
    [| intros [= <- _]; now apply decoder_panic_msg in Hdec | discriminate].
  destruct err as [err|]; [destruct (is_EOF err || _); discriminate|].
  destruct ev as [ev|]; [|now apply decoder_no_nil_nil in Hdec].
  destruct (dispatch taken i ev _) as [e|con1|con1]; [discriminate| |discriminate].
  apply IH.
Qed.

Lemma HandleEvents_only_panic_witness :
  exists msg con',
    Connection_HandleEvents alone all_taken 1 0
      (connected_on ("Content-Length: -1" +:+ nl +:+ nl) io_EOF)
    = Some (Panicked msg con')
    /\ (msg = makeslice_panic \/ msg = out_of_memory).
Proof.
  assert (Hn : match Connection_HandleEvents alone all_taken 1 0
                       (connected_on ("Content-Length: -1" +:+ nl +:+ nl) io_EOF) with
               | Some (Panicked _ _) => true
               | _ => false
               end = true) by (vm_compute; reflexivity).
  destruct (Connection_HandleEvents alone all_taken 1 0
              (connected_on ("Content-Length: -1" +:+ nl +:+ nl) io_EOF))
    as [[a c|msg c|c]|] eqn:E; try discriminate Hn.
  exists msg, c. split; [reflexivity|].
  exact (HandleEvents_only_panic alone all_taken 1 0 _ _ _ E).
Defined.

(** [Authenticate] against a server that greets and then answers the
    [auth] request with a command reply of text [t]. *)
Lemma Authenticate_on_stream {rt : Runtime} (con : Connection) (t rest : string) (c : error) :
  healthy con ->
  reader con = mkReader (frame_text auth_request +:+ frame_text (command_reply t) +:+ rest) c ->
  all_bytes validHeaderValueByte t = true ->
  exists con',
    Connection_Authenticate con
    = Ok (if rejected t
          then Some (fmt_Errorf "auth reply: %v"
                       [arg_error (fmt_Errorf "command error: %s"
                                     [arg_string (strings_TrimSpace (trim t))])])
          else None) con' /\
    Connected con' = (if rejected t then Connected con else true) /\
    sock_closed (socket con') = rejected t /\
    delivered (socket con') = delivered (socket con) +:+ auth_line (Password con) /\
    reader con' = mkReader rest c /\
    cmdReply con' = cmdReply con /\ apiResp con' = apiResp con /\
    spawned con' = spawned con /\ Password con' = Password con.
Proof.
  intros Hh Hr Ht.
  set (con0 := set_reader (mkReader (frame_text (command_reply t) +:+ rest) c) con).
  assert (Hh0 : healthy con0) by exact Hh.
  destruct (Write_healthy (auth_line (Password con)) con0 Hh0) as (con1 & Hw & Hs & Hc & Ha).
  destruct Hs as (Hd & [_ Hh1] & Hr1 & Hcn).
  pose proof (Connection_Write_frame (auth_line (Password con)) con0) as Hf.
  cbv zeta in Hf. rewrite Hw in Hf. cbn [snd] in Hf.
  destruct Hf as (_ & _ & _ & Hsp & Hp & _ & Hsc & _).
  assert (Hopen : sock_closed (socket con1) = false).
  { unfold write_error in Hh1. now destruct (sock_closed (socket con1)). }
  assert (Hauth : Connection_Authenticate con
    = if rejected t
      then Ok (Some (fmt_Errorf "auth reply: %v"
                       [arg_error (fmt_Errorf "command error: %s"
                                     [arg_string (strings_TrimSpace (trim t))])]))
              (close_socket (set_reader (mkReader rest c) con1))
      else Ok None (set_Connected true (set_reader (mkReader rest c) con1))).
  { unfold Connection_Authenticate. rewrite Hr, decode_auth_request.
    cbn [Type_ set_Type is_EventAuth negb Password set_reader].
    fold con0. fold (auth_line (Password con)). rewrite Hw, Hr1.
    unfold con0 at 1. cbn [reader set_reader].
    rewrite (decode_command_reply t rest c Ht). fold (rejected t).
    destruct (rejected t); reflexivity. }
  rewrite Hauth. destruct (rejected t).
  - eexists. split; [reflexivity|]. cbn. now repeat split.
  - eexists. split; [reflexivity|]. cbn. now repeat split.
Qed.

(** X21.  The handshake by the server's answer.  On a healthy connection whose
    stream starts with the greeting and a command reply of text [t],
    whatever follows: [Authenticate] sends the [auth] line with the
    password and consumes exactly the two frames; when the reply carries a
    success marker it returns nil and the connection is connected; when it
    carries none (as the reply to a wrong password) it returns the
    decoder's error, wrapped, and has closed the socket. *)
Theorem Authenticate_by_reply {rt : Runtime} (con : Connection) (t rest : string) (c : error) :
  healthy con ->
  reader con = mkReader (frame_text auth_request +:+ frame_text (command_reply t) +:+ rest) c ->
  all_bytes validHeaderValueByte t = true ->
  exists con',
    Connection_Authenticate con
    = Ok (if rejected t
          then Some (fmt_Errorf "auth reply: %v"
                       [arg_error (fmt_Errorf "command error: %s"
                                     [arg_string (strings_TrimSpace (trim t))])])
          else None) con' /\
    Connected con' = (if rejected t then Connected con else true) /\
    sock_closed (socket con') = rejected t /\
    delivered (socket con') = delivered (socket con) +:+ auth_line (Password con) /\
    reader con' = mkReader rest c.
Proof.
  intros Hh Hr Ht.
  destruct (Authenticate_on_stream con t rest c Hh Hr Ht) as (con' & H1 & H2 & H3 & H4 & H5 & _).
  exists con'. split; [exact H1|]. split; [exact H2|]. split; [exact H3|].
  split; [exact H4 | exact H5].
Qed.

(** The server turns the password down. *)
Lemma Authenticate_by_reply_witness :
  let stream := frame_text auth_request +:+ frame_text (command_reply "-ERR invalid") +:+ "" in
  exists err con',
    Connection_Authenticate (dialled_on stream io_EOF) = Ok (Some err) con' /\
    sock_closed (socket con') = true /\
    delivered (socket con') = "auth ClueCon" +:+ nl +:+ nl.
Proof.
  intros stream.
  destruct (Authenticate_by_reply (dialled_on stream io_EOF) "-ERR invalid" "" io_EOF)
    as (con' & H1 & _ & H3 & H4 & _); [split; reflexivity | reflexivity | reflexivity |].
  eexists _, con'. split; [exact H1|]. split; [exact H3 | exact H4].
Defined.

(** X23.  [NewConnection] end to end, with [dial] the outcome of each dial.
    - When every one of the three attempts fails, it returns no connection
      and the error of the third attempt, wrapped twice; two notices are
      logged and [OnConnect] is not started.
    - When attempt [k] is the first to succeed, on a socket that takes
      writes and whose server greets and accepts the password, it returns
      the connection, connected, having sent the default password
      [ClueCon], and starts [OnConnect]; the attempts before it are
      logged and no further one is made.
    - When attempt [k] is the first to succeed and the server closes the
      stream before it sends anything, the call panics. *)
Theorem NewConnection_outcomes {rt : Runtime} (dial : Z -> (Socket * Reader) + error) (errs : Z -> error) :
  ((forall j, 1 <= j <= 3 -> dial j = inr (errs j)) ->
   NewConnection dial
   = ([(1, errs 1); (2, errs 2)],
      Ok (false, Some (fmt_Errorf "connect: %v"
                         [arg_error (fmt_Errorf "last dial attempt: %v" [arg_error (errs 3)])]))
         new_connection)) /\
  (forall k s t rest c,
     1 <= k <= 3 ->
     (forall j, 1 <= j < k -> dial j = inr (errs j)) ->
     dial k = inl (s, mkReader (frame_text auth_request +:+ frame_text (command_reply t) +:+ rest) c) ->
     write_error s = None ->
     all_bytes validHeaderValueByte t = true ->
     rejected t = false ->
     exists con,
       NewConnection dial = (failed_attempts errs 1 (Z.to_nat (k - 1)), Ok (true, None) con) /\
       Connected con = true /\
       delivered (socket con) = delivered s +:+ auth_line "ClueCon" /\
       reader con = mkReader rest c /\
       cmdReply con = [] /\ apiResp con = []) /\
  (forall k s,
     1 <= k <= 3 ->
     (forall j, 1 <= j < k -> dial j = inr (errs j)) ->
     dial k = inl (s, mkReader "" io_EOF) ->
     exists con,
       NewConnection dial
       = (failed_attempts errs 1 (Z.to_nat (k - 1)), Panicked nil_dereference con)).
Proof.
  split; [|split].
  - intros Hfail. unfold NewConnection.
    rewrite (ConnectRetry_failure dial errs 3 None new_connection eq_refl);
      [reflexivity | lia | exact Hfail].
  - intros k s t rest c Hk Hfail Hd Hs Ht Hacc.
    unfold NewConnection.
    rewrite (ConnectRetry_success dial errs 3 None new_connection k _ _ eq_refl Hk Hfail Hd).
    set (con0 := set_writer_err None (set_reader _ (set_socket s new_connection))).
    destruct (Authenticate_on_stream con0 t rest c) as (con & H1 & H2 & _ & H4 & H5 & H6 & H7 & _);
      [split; [reflexivity | exact Hs] | reflexivity | exact Ht |].
    rewrite Hacc in H1, H2. rewrite H1.
    exists con. split; [reflexivity|]. split; [exact H2|]. split; [exact H4|].
    split; [exact H5|]. split; [exact H6 | exact H7].
  - intros k s Hk Hfail Hd.
    unfold NewConnection.
    rewrite (ConnectRetry_success dial errs 3 None new_connection k _ _ eq_refl Hk Hfail Hd).
    eexists. reflexivity.
Qed.

Lemma NewConnection_outcomes_witness :
  exists con,
    NewConnection second_dial = ([(1, net_Error "connection refused")], Ok (true, None) con) /\
    Connected con = true /\
    delivered (socket con) = "auth ClueCon" +:+ nl +:+ nl.
Proof.
  destruct (NewConnection_outcomes second_dial (fun _ => net_Error "connection refused"))
    as (_ & H & _).
  destruct (H 2 {| sock_closed := false; delivered := ""; write_fault := None |}
              "+OK accepted" "" io_EOF) as (con & H1 & H2 & H3 & _);
    [lia | intros j Hj; assert (j = 1) as -> by lia; reflexivity
     | reflexivity | reflexivity | reflexivity | reflexivity |].
  exists con. split; [exact H1|]. split; [exact H2 | exact H3].
Defined.

(** Two refused dials, then a server that greets. *)
Lemma ConnectRetry_attempts_witness :
  Connection_ConnectRetry second_dial 3 None new_connection
  = ([(1, net_Error "connection refused")],
     Connection_Authenticate
       (set_writer_err None
          (set_reader (reader_of (frame_text auth_request +:+
                                  frame_text (command_reply "+OK accepted") +:+ ""))
             (set_socket {| sock_closed := false; delivered := ""; write_fault := None |}
                new_connection)))).
Proof.
  destruct (ConnectRetry_attempts second_dial (fun _ => net_Error "connection refused") 3 None
              new_connection eq_refl) as (H & _).
  apply (H 2); [lia | intros j Hj; assert (j = 1) as -> by lia; reflexivity | reflexivity].
Defined.

(** X26.  A failed command ends the read loop.  When the next frame on a
    connected connection is a command reply whose text carries no success
    marker, the decoder turns it down and the loop, instead of sending the
    reply to the waiting request, closes the connection and returns the
    decoder's error, whether or not a receiver is there. *)
Theorem HandleEvents_rejected_reply {Handler : ConnectionHandler} {rt : Runtime}
    (others : nat -> Connection -> Connection) (taken : nat -> bool) (fuel i : nat)
    (con : Connection) (t rest : string) (c : error) :
  Connected con = true ->
  reader con = mkReader (frame_text (command_reply t) +:+ rest) c ->
  all_bytes validHeaderValueByte t = true ->
  rejected t = true ->
  Connected (others i (set_reader (mkReader rest c) con)) = true ->
  Connection_HandleEvents others taken (S fuel) i con
  = Some (Ok (Some (fmt_Errorf ("event read loop: %v" +:+ nl)
                      [arg_error (fmt_Errorf "command error: %s"
                                    [arg_string (strings_TrimSpace (trim t))])]))
             (Connection_Close (others i (set_reader (mkReader rest c) con)))).
Proof.
  intros Hc Hr Ht Hrej Hc'. cbn [Connection_HandleEvents].
  rewrite Hc, Hr, (decode_command_reply t rest c Ht). fold (rejected t). rewrite Hrej.
  cbn [negb is_EOF orb]. now rewrite Hc'.
Qed.

Lemma HandleEvents_rejected_reply_witness :
  exists err con',
    Connection_HandleEvents alone all_taken 1 0
      (connected_on (frame_text (command_reply "-ERR no such channel") +:+ "") io_EOF)
    = Some (Ok (Some err) con') /\
    Connected con' = false /\ sock_closed (socket con') = true /\ cmdReply con' = [].
Proof.
  eexists _, _. split; [|split; [|split]].
  - apply (HandleEvents_rejected_reply alone all_taken 0 0 _ "-ERR no such channel" "" io_EOF);
      reflexivity.
  - reflexivity.
  - reflexivity.
  - reflexivity.
Defined.

Lemma parseTextBody_Body (e e' : Event) (err : option error) :
  parseTextBody e = (e', err) ->
  Map (Body e') = (ReadMIMEHeader (mkReader (RawBody e) io_EOF)).1.1.
Proof.
  unfold parseTextBody.
  destruct (ReadMIMEHeader _) as [[m [err0|]] rest].
  - intros [= <- <-]. reflexivity.
  - destruct (strconv_Atoi _) as [stamp err1]. intros [= <- <-]. reflexivity.
Qed.

(** X9.  The decoder never returns a nil event without an error, and it returns
    an event beside an error only for a notification: one whose nested
    header or timestamp it could not parse, or one in a format it does not
    support, left unclassified. *)
Theorem decoder_event_or_error {rt : Runtime} (r r' : Reader) (ev : option Event) (err : option error) :
  NewEventFromReader r = Ok (ev, err) r' ->
  (ev = None -> err <> None) /\
  (forall e x, ev = Some e -> err = Some x ->
     Type_ e = EventGeneric \/
     (Type_ e = EventError /\
      x = fmt_Errorf "unsupported format %s" [arg_string (Event_Get e "Content-Type")])).
Proof.
  unfold NewEventFromReader.
  destruct (read_frame r) as [[e0|e0] r0|msg r0|r0] eqn:Hf; try discriminate.
  2:{ intros [= <- <- _]. split; [discriminate | intros e x [=]]. }
  assert (Hz : Type_ e0 = EventError)
    by (apply read_frame_event in Hf as (m & r1 & raw & _ & ->); reflexivity).
  unfold switch_ContentType.
  destruct (String.eqb _ "auth/request");
    [intros [= <- <- _]; split; [discriminate | intros e x _ [=]]|].
  destruct (String.eqb _ "command/reply").
  { destruct (negb _ && negb _);
      [intros [= <- <- _]; split; [discriminate | intros e x [=]]|].
    destruct (strings_Contains _ "%");
      intros [= <- <- _]; (split; [discriminate | intros e x _ [=]]). }
  destruct (String.eqb _ "text/event-plain").
  { destruct (parseTextBody _) as [e' err'] eqn:P. intros [= <- <- _].
    split; [discriminate|]. intros e x [= <-] _. left.
    now apply parseTextBody_frame in P as (-> & _). }
  destruct (String.eqb _ "text/event-json" || String.eqb _ "text/event-xml").
  { intros [= <- <- _]. split; [discriminate|]. intros e x [= <-] [= <-]. right.
    split; [exact Hz | reflexivity]. }
  destruct (String.eqb _ "text/disconnect-notice" || String.eqb _ "text/rude-rejection");
    [intros [= <- <- _]; split; [discriminate | intros e x _ [=]]|].
  destruct (String.eqb _ "api/response");
    intros [= <- <- _]; (split; [discriminate | intros e x _ [=]]).
Qed.

Lemma decoder_event_or_error_witness :
  NewEventFromReader json_frame
  = Ok (Some (frame_of json_frame),
        Some (fmt_Errorf "unsupported format %s" [arg_string "text/event-json"]))
       (after_frame json_frame)
  /\ (Type_ (frame_of json_frame) = EventGeneric \/
      (Type_ (frame_of json_frame) = EventError /\
       fmt_Errorf "unsupported format %s" [arg_string "text/event-json"]
       = fmt_Errorf "unsupported format %s"
           [arg_string (Event_Get (frame_of json_frame) "Content-Type")])).
Proof.
  assert (H : NewEventFromReader json_frame
  = Ok (Some (frame_of json_frame),
        Some (fmt_Errorf "unsupported format %s" [arg_string "text/event-json"]))
       (after_frame json_frame)) by (vm_compute; reflexivity).
  split; [exact H|].
  exact (proj2 (decoder_event_or_error _ _ _ _ H) _ _ eq_refl eq_refl).
Defined.

(** X10.  Fields of a decoded event.  Only a notification ([EventGeneric]) has
    derived fields and a nested header; only a command reply has its outer
    header flagged percent-escaped; the nested header map of a notification
    is what the header reader finds in the raw body. *)
Theorem decoded_event_fields {rt : Runtime} (r r' : Reader) (e : Event) (err : option error) :
  NewEventFromReader r = Ok (Some e, err) r' ->
  (Type_ e <> EventGeneric ->
   UId e = "" /\ Name e = CUSTOM /\ App e = "" /\ AppData e = "" /\ Stamp e = 0 /\
   Body e = zero_MIMEMap) /\
  (IsEscaped (Header e) = true ->
   Type_ e = EventCommandReply /\
   strings_Contains (MIMEHeader_Get (Map (Header e)) "Reply-Text") "%" = true) /\
  (Type_ e = EventGeneric ->
   Map (Body e) = (ReadMIMEHeader (mkReader (RawBody e) io_EOF)).1.1).
Proof.
  unfold NewEventFromReader.
  destruct (read_frame r) as [[e0|e0] r0|msg r0|r0] eqn:Hf; try discriminate.
  apply read_frame_event in Hf as (m & r1 & raw & _ & ->).
  unfold switch_ContentType.
  destruct (String.eqb _ "auth/request");
    [intros [= <- <- _]; split; [now repeat split | split; discriminate]|].
  destruct (String.eqb _ "command/reply").
  { destruct (negb _ && negb _); [discriminate|].
    rewrite Event_Get_set_Type, Event_Get_frame_event.
    destruct (strings_Contains _ "%") eqn:Hp;
      intros [= <- <- _]; (split; [now repeat split | split; [|discriminate]]).
    - intros _. split; [reflexivity | exact Hp].
    - discriminate. }
  destruct (String.eqb _ "text/event-plain").
  { destruct (parseTextBody _) as [e' err'] eqn:P. intros [= <- <- _].
    pose proof (parseTextBody_Body _ _ _ P) as Hb.
    apply parseTextBody_frame in P as (Ht & Hh & Hr).
    split; [intros H; now destruct H|].
    split; [rewrite Hh; discriminate|].
    intros _. rewrite Hb, Hr. reflexivity. }
  destruct (String.eqb _ "text/event-json" || String.eqb _ "text/event-xml");
    [intros [= <- <- _]; split; [now repeat split | split; discriminate]|].
  destruct (String.eqb _ "text/disconnect-notice" || String.eqb _ "text/rude-rejection");
    [intros [= <- <- _]; split; [now repeat split | split; discriminate]|].
  destruct (String.eqb _ "api/response");
    intros [= <- <- _]; (split; [now repeat split | split; discriminate]).
Qed.

Lemma decoded_event_fields_witness :
  NewEventFromReader api_frame
  = Ok (Some (set_Type EventApiResponse (frame_of api_frame)), None) (after_frame api_frame)
  /\ Body (set_Type EventApiResponse (frame_of api_frame)) = zero_MIMEMap.
Proof.
  assert (H : NewEventFromReader api_frame
              = Ok (Some (set_Type EventApiResponse (frame_of api_frame)), None)
                   (after_frame api_frame)) by (vm_compute; reflexivity).
  split; [exact H|].
  destruct (decoded_event_fields _ _ _ _ H) as [Hz _].
  destruct Hz as (_ & _ & _ & _ & _ & Hb); [discriminate | exact Hb].
Defined.
